(** * SPDAC driver: trigger pool and virtual-gate arrangements

    A shallow embedding of the parts of [SPDev/SPDAC.py] that manage the
    pool of internal triggers, the virtual-gate [Arrangement_Context] with
    its correction matrix, and the [Virtual_Sweep_Context] built from it.

    Python [float]s and NumPy [float64] arrays are IEEE-754 binary64
    values: they are embedded as Rocq's primitive [float]s, so every
    voltage below is computed with the arithmetic the driver really uses.
    Python [int]s are [Z], list positions are [nat], [dict]s that are only
    looked up are [gmap]s and [dict]s that are iterated are association
    lists in insertion order. *)

From Stdlib Require Import ZArith List Floats.
From stdpp Require Import gmap strings list.

(** ** Exceptions and the state-and-exception monad *)

Inductive exn : Type :=
| KeyError
| ValueError
| IndexError
| AttributeError.

#[global] Instance exn_eq_dec : EqDecision exn.
Proof. solve_decision. Defined.

Inductive outcome (A : Type) : Type :=
| Return (a : A)
| Raise (e : exn).
Arguments Return {A} a.
Arguments Raise {A} e.

(** A method call maps the state before the call to its outcome and the
    state after it.  A raised exception keeps the mutations made so far:
    Python does not roll anything back. *)
Definition M (S A : Type) : Type := S → outcome A * S.

Definition ret {S A} (a : A) : M S A := λ s, (Return a, s).
Definition raise {S A} (e : exn) : M S A := λ s, (Raise e, s).
Definition bind {S A B} (m : M S A) (k : A → M S B) : M S B :=
  λ s, match m s with
       | (Return a, s') => k a s'
       | (Raise e, s') => (Raise e, s')
       end.
Definition modify {S} (f : S → S) : M S unit := λ s, (Return tt, f s).

(** [try: m except e: h] *)
Definition try_except {S A} (m : M S A) (e : exn) (h : M S A) : M S A :=
  λ s, match m s with
       | (Raise e', s') => if decide (e' = e) then h s' else (Raise e', s')
       | r => r
       end.

Declare Scope py_scope.
Delimit Scope py_scope with py.
Notation "'do' x <- m ; k" := (bind m (λ x, k))
  (at level 10, x name, m at level 100, k at level 200,
   format "'[v' 'do'  x  <-  m ; '/' k ']'") : py_scope.
Notation "'do_' m ; k" := (bind m (λ _, k))
  (at level 10, m at level 100, k at level 200,
   format "'[v' 'do_'  m ; '/' k ']'") : py_scope.
Open Scope py_scope.

(** [for x in l: body x] *)
Fixpoint for_each {S A} (l : list A) (body : A → M S unit) : M S unit :=
  match l with
  | [] => ret tt
  | x :: l' => do_ body x; for_each l' body
  end.

(** Run a computation on the component [get_c] of a larger state. *)
Definition zoom {S C A} (get_c : S → C) (set_c : C → S → S) (m : M C A) : M S A :=
  λ s, let (r, c') := m (get_c s) in (r, set_c c' s).

(** [m] leaves the observation [f] of the state as it was, whether it
    returns or raises. *)
Definition preserves {S A X} (f : S → X) (m : M S A) : Prop :=
  ∀ s, f (m s).2 = f s.

(** ** NumPy on binary64 *)

Module np.

Definition zeros (n : nat) : list float := repeat 0%float n.

(** [np.identity(n)] *)
Definition identity (n : nat) : list (list float) :=
  map (λ i, map (λ j, if Nat.eqb i j then 1%float else 0%float) (seq 0 n)) (seq 0 n).

(** Inner product, accumulated from [0.0] in index order. *)
Definition dot (a b : list float) : float :=
  fold_left (λ acc p, (acc + fst p * snd p)%float) (combine a b) 0%float.

(** [np.matmul(m, v)] for a matrix [m] and a one-dimensional [v]. *)
Definition matvec (m : list (list float)) (v : list float) : list float :=
  map (λ row, dot row v) m.

Definition ncols (m : list (list float)) : nat :=
  match m with [] => 0 | row :: _ => length row end.

Definition column (k : nat) (m : list (list float)) : list float :=
  map (λ row, nth k row 0%float) m.

(** [np.matmul(a, b)] for two matrices. *)
Definition matmul (a b : list (list float)) : list (list float) :=
  map (λ row, map (λ k, dot row (column k b)) (seq 0 (ncols b))) a.

(** [m[index] = factors]: the row is replaced by [factors], a sequence
    of one element is broadcast over the row, any other length raises
    [ValueError]; a row that does not exist raises [IndexError]. *)
Definition setrow (index : nat) (factors : list float) (m : list (list float))
    : outcome (list (list float)) :=
  match m !! index with
  | None => Raise IndexError
  | Some row =>
      if decide (length factors = length row) then Return (<[index := factors]> m)
      else match factors with
           | [x] => Return (<[index := repeat x (length row)]> m)
           | _ => Raise ValueError
           end
  end.

(** [m[r][c]] *)
Definition entry (m : list (list float)) (r c : nat) : option float :=
  match m !! r with
  | Some row => row !! c
  | None => None
  end.

(** [np.flip] of a one-dimensional array. *)
Definition flip (v : list float) : list float := rev v.

Definition of_nat (k : nat) : float := PrimFloat.of_uint63 (Uint63.of_Z (Z.of_nat k)).

(** The [n] samples of [np.linspace(start, stop, n)] with the default
    [endpoint=True]: [start + k * step] for [k] from 0, the last one set
    to [stop]. *)
Definition samples (start stop : float) (n : nat) : list float :=
  let div := of_nat (n - 1) in
  let delta := (stop - start)%float in
  let y := map of_nat (seq 0 n) in
  let y :=
    if (0 <? n - 1)%nat then
      let step := (delta / div)%float in
      if (step =? 0)%float
      then map (λ k, (k / div * delta)%float) y
      else map (λ k, (k * step)%float) y
    else map (λ k, (k * delta)%float) y in
  let y := map (λ x, (x + start)%float) y in
  if (1 <? n)%nat then removelast y ++ [stop] else y.

(** [np.linspace(start, stop, num)]: a negative [num] raises
    [ValueError]. *)
Definition linspace (start stop : float) (num : Z) : outcome (list float) :=
  if (num <? 0)%Z then Raise ValueError
  else Return (samples start stop (Z.to_nat num)).

(** C's [rint] in the default rounding mode: the nearest integer, a tie
    going to the even one; the sign of the argument is kept. *)
Definition two52 : float := 4503599627370496%float.

Definition rint (x : float) : float :=
  if (PrimFloat.abs x <? two52)%float then
    let r := (PrimFloat.abs x + two52 - two52)%float in
    if PrimFloat.get_sign x then (- r)%float else r
  else x.

(** [10 ** n] as NumPy's [power_of_ten] computes it. *)
Definition power_of_ten (n : nat) : float :=
  Nat.iter n (λ p, (p * 10)%float) 1%float.

(** [np.round(x, decimals)] on one element: scale, [rint], scale back. *)
Definition round1 (decimals : Z) (x : float) : float :=
  if (decimals =? 0)%Z then rint x
  else if (0 <? decimals)%Z then
    let f := power_of_ten (Z.to_nat decimals) in (rint (x * f) / f)%float
  else
    let f := power_of_ten (Z.to_nat (- decimals)) in (rint (x / f) * f)%float.

(** [np.round(v, decimals)] *)
Definition round (v : list float) (decimals : Z) : list float :=
  map (round1 decimals) v.

End np.

(** ** Python containers *)

(** [s.pop()] on a [set]: removes and returns an arbitrary element, raises
    [KeyError] on the empty set.  Which element is left to the
    implementation; [pick] is that choice, any [pick] selects a member. *)
Definition set_pop (pick : nat) : M (gset Z) Z :=
  λ s, match elements s with
       | [] => (Raise KeyError, s)
       | x :: l =>
           let number := nth (pick mod length (x :: l)) (x :: l) x in
           (Return number, s ∖ {[number]})
       end.

(** [d[k] = v] on a [dict]: an existing key keeps its place. *)
Fixpoint dict_set {V} (k : string) (v : V) (d : list (string * V)) : list (string * V) :=
  match d with
  | [] => [(k, v)]
  | (k', v') :: d' => if decide (k' = k) then (k, v) :: d' else (k', v') :: dict_set k v d'
  end.

(** [d[k]], raising [KeyError] *)
Fixpoint dict_get {V} (k : string) (d : list (string * V)) : option V :=
  match d with
  | [] => None
  | (k', v') :: d' => if decide (k' = k) then Some v' else dict_get k d'
  end.

Definition dict_values {V} (d : list (string * V)) : list V := map snd d.

(** [a[i] = x] on a list or a one-dimensional array, [i >= 0] *)
Definition setitem {A} (i : nat) (x : A) (a : list A) : outcome (list A) :=
  if decide (i < length a) then Return (<[i := x]> a) else Raise IndexError.

(** [a[i]], [i >= 0] *)
Definition getitem {A} (i : nat) (a : list A) : outcome A :=
  match a !! i with
  | Some x => Return x
  | None => Raise IndexError
  end.

Definition lift {S A} (r : outcome A) : M S A := λ s, (r, s).

(** ** SCPI commands written to the instrument *)

Inductive scpi : Type :=
| outp_trig_sour_int (port internal : Z)   (* outp:trig:sour {port},int{internal} *)
| outp_trig_sour_hold (port : Z)           (* outp:trig:sour {port},hold *)
| outp_trig_widt (port : Z) (width_s : float) (* outp:trig:widt {port},{width_s} *)
| sour_volt_mode_fix (channum : Z)         (* sour:volt:mode {channum},fix *)
| sour_volt (channum : Z) (v : float)      (* sour:volt {channum},{v} *)
| sour_dc_mark_sst (channum trigger : Z)   (* sour:dc:mark:sst {channum} {trigger} *)
| sour_dc_abor (channum : Z)               (* sour:dc:abor {channum} *)
| sour_dc_trig_sour_imm (channum : Z).     (* sour:dc:trig:sour {channum} imm *)

(** ** SPDacTrigger_Context *)

(** Wraps an already-allocated internal trigger number. *)
Record SPDacTrigger_Context : Type := { value : Z }.

Definition _trigger_context_to_value (trigger : SPDacTrigger_Context) : Z :=
  value trigger.

(** ** SPDac *)

Module SPDac.

(** The driver's state.  [visa] is the sequence of commands handed to
    the VISA transport, in the order they were written. *)
Record t : Type := {
  _internal_triggers : gset Z;
  _round_off : option Z;
  _record_commands : bool;
  _scpi_sent : list scpi;
  visa : list scpi
}.

Definition set_internal_triggers (s : gset Z) (self : t) : t :=
  {| _internal_triggers := s; _round_off := _round_off self;
     _record_commands := _record_commands self; _scpi_sent := _scpi_sent self;
     visa := visa self |}.

Definition n_triggers : Z := 14.

(** [set(range(1, self.n_triggers() + 1))] *)
Definition all_triggers : gset Z :=
  list_to_set (seqZ 1 n_triggers).

Definition _set_up_internal_triggers : M t unit :=
  modify (set_internal_triggers all_triggers).

Definition allocate_trigger (pick : nat) : M t SPDacTrigger_Context :=
  do number <- try_except
      (zoom _internal_triggers set_internal_triggers (set_pop pick))
      KeyError (raise ValueError);
  ret {| value := number |}.

Definition free_trigger (trigger : SPDacTrigger_Context) : M t unit :=
  let internal := _trigger_context_to_value trigger in
  modify (λ self, set_internal_triggers (_internal_triggers self ∪ {[internal]}) self).

Definition free_all_triggers : M t unit := _set_up_internal_triggers.

Definition write (cmd : scpi) : M t unit :=
  modify (λ self,
    {| _internal_triggers := _internal_triggers self; _round_off := _round_off self;
       _record_commands := _record_commands self;
       _scpi_sent := if _record_commands self then _scpi_sent self ++ [cmd]
                     else _scpi_sent self;
       visa := visa self ++ [cmd] |}).

(** [getattr(self, f'ch{ch:02}')]: the channels set up are 1 to 4. *)
Definition channel (ch : Z) : M t Z :=
  if decide (1 ≤ ch ≤ 4)%Z then ret ch else raise AttributeError.

Definition connect_external_trigger (port : Z) (trigger : SPDacTrigger_Context)
    (width_s : float) : M t unit :=
  let internal := _trigger_context_to_value trigger in
  do_ write (outp_trig_sour_int port internal);
  write (outp_trig_widt port width_s).

(** The state [__init__] leaves behind ([_set_up_debug_settings] and
    [_set_up_internal_triggers]), nothing written yet. *)
Definition init : t :=
  {| _internal_triggers := all_triggers; _round_off := None;
     _record_commands := false; _scpi_sent := []; visa := [] |}.

End SPDac.

(** ** SPDacChannel *)

Module SPDacChannel.

Definition _set_fixed_voltage_immediately (channum : Z) (v : float) : M SPDac.t unit :=
  do_ SPDac.write (sour_volt_mode_fix channum);
  SPDac.write (sour_volt channum v).

(** The [dc_constant_V] parameter: [vals=validators.Numbers(-10.0, 10.0)]
    is checked, then [set_cmd] runs. *)
Definition dc_constant_V (channum : Z) (v : float) : M SPDac.t unit :=
  if ((-10 <=? v) && (v <=? 10))%float
  then _set_fixed_voltage_immediately channum v
  else raise ValueError.

Definition dc_abort (channum : Z) : M SPDac.t unit :=
  SPDac.write (sour_dc_abor channum).

End SPDacChannel.

(** ** Loops that build a list *)

(** [[f x for x in l]] *)
Fixpoint comprehension {S A B} (l : list A) (f : A → M S B) : M S (list B) :=
  match l with
  | [] => ret []
  | x :: l' =>
      do y <- f x;
      do ys <- comprehension l' f;
      ret (y :: ys)
  end.

(** [zip( *ls )]: tuples of one element per list, as long as the shortest. *)
Fixpoint zip_star {A} (ls : list (list A)) : list (list A) :=
  match ls with
  | [] => []
  | [l] => map (λ x, [x]) l
  | l :: ls' => zip_with cons l (zip_star ls')
  end.

(** The choices for successive [set.pop()] calls, one per element. *)
Fixpoint with_picks {A} (l : list A) (picks : list nat) : list (A * nat) :=
  match l with
  | [] => []
  | x :: l' => (x, hd 0 picks) :: with_picks l' (tl picks)
  end.

(** [forward_and_back(start, end, steps)] *)
Definition forward_and_back (start end_ : float) (steps : Z) : outcome (list float) :=
  match np.linspace start end_ steps with
  | Return forward =>
      let backward := removelast (tl (np.flip forward)) in
      Return (forward ++ backward)
  | Raise e => Raise e
  end.

(** ** Arrangement_Context *)

Module Arrangement_Context.

Record t : Type := {
  _contact_names : list string;
  _contacts : gmap string nat;
  _channels : list Z;
  _virtual_voltages : list float;
  _correction : list (list float);
  _internal_triggers : list (string * SPDacTrigger_Context);
  _external_triggers : list (string * Z);
  _outer_trigger_channel : option Z
}.

(** An arrangement and the driver its [_spdac] attribute refers to. *)
Record env : Type := { self : t; _spdac : SPDac.t }.

Definition on_spdac {A} (m : M SPDac.t A) : M env A :=
  zoom _spdac (λ d e, {| self := self e; _spdac := d |}) m.

Definition on_self (f : t → t) : M env unit :=
  modify (λ e, {| self := f (self e); _spdac := _spdac e |}).

Definition attr {A} (f : t → A) : M env A := λ e, (Return (f (self e)), e).

Definition spdac_attr {A} (f : SPDac.t → A) : M env A :=
  λ e, (Return (f (_spdac e)), e).

Definition set_virtual_voltages_attr (v : list float) (a : t) : t :=
  {| _contact_names := _contact_names a; _contacts := _contacts a;
     _channels := _channels a; _virtual_voltages := v;
     _correction := _correction a; _internal_triggers := _internal_triggers a;
     _external_triggers := _external_triggers a;
     _outer_trigger_channel := _outer_trigger_channel a |}.

Definition set_correction_attr (c : list (list float)) (a : t) : t :=
  {| _contact_names := _contact_names a; _contacts := _contacts a;
     _channels := _channels a; _virtual_voltages := _virtual_voltages a;
     _correction := c; _internal_triggers := _internal_triggers a;
     _external_triggers := _external_triggers a;
     _outer_trigger_channel := _outer_trigger_channel a |}.

Definition set_internal_triggers_attr (d : list (string * SPDacTrigger_Context)) (a : t) : t :=
  {| _contact_names := _contact_names a; _contacts := _contacts a;
     _channels := _channels a; _virtual_voltages := _virtual_voltages a;
     _correction := _correction a; _internal_triggers := d;
     _external_triggers := _external_triggers a;
     _outer_trigger_channel := _outer_trigger_channel a |}.

Definition set_external_triggers_attr (d : list (string * Z)) (a : t) : t :=
  {| _contact_names := _contact_names a; _contacts := _contacts a;
     _channels := _channels a; _virtual_voltages := _virtual_voltages a;
     _correction := _correction a; _internal_triggers := _internal_triggers a;
     _external_triggers := d;
     _outer_trigger_channel := _outer_trigger_channel a |}.

Definition set_outer_trigger_channel_attr (c : option Z) (a : t) : t :=
  {| _contact_names := _contact_names a; _contacts := _contacts a;
     _channels := _channels a; _virtual_voltages := _virtual_voltages a;
     _correction := _correction a; _internal_triggers := _internal_triggers a;
     _external_triggers := _external_triggers a;
     _outer_trigger_channel := c |}.

(** [self._virtual_voltages[index] = voltage] *)
Definition store_virtual_voltage (index : nat) (voltage : float) : M env unit :=
  do v <- attr _virtual_voltages;
  do v' <- lift (setitem index voltage v);
  on_self (set_virtual_voltages_attr v').

(** [len(self._contacts)] *)
Definition shape : M env nat := attr (λ a, size (_contacts a)).

Definition _contact_index (contact : string) : M env nat :=
  do cs <- attr _contacts;
  match cs !! contact with
  | Some index => ret index
  | None => raise KeyError
  end.

Definition _free_triggers : M env unit :=
  do d <- attr _internal_triggers;
  for_each (dict_values d) (λ trigger, on_spdac (SPDac.free_trigger trigger)).

Definition __exit__ : M env bool :=
  do ext <- attr _external_triggers;
  do_ match ext with
      | [] => ret tt
      | _ => for_each (dict_values ext)
               (λ port, on_spdac (SPDac.write (outp_trig_sour_hold port)))
      end;
  do_ _free_triggers;
  ret false.

Definition close : M env unit :=
  do_ __exit__; ret tt.

Definition _allocate_internal_triggers (internal_triggers : option (list string))
    (picks : list nat) : M env unit :=
  match internal_triggers with
  | None | Some [] => ret tt
  | Some names =>
      for_each (with_picks names picks) (λ '(name, pick),
        do trigger <- on_spdac (SPDac.allocate_trigger pick);
        on_self (λ a, set_internal_triggers_attr
                        (dict_set name trigger (_internal_triggers a)) a))
  end.

(** The default [width_s=1e-6], as the binary64 value Python reads it. *)
Definition width_s_default : float := 0x1.0c6f7a0b5ed8dp-20%float.

Definition _allocate_external_triggers (output_triggers : option (list (string * Z)))
    (picks : list nat) : M env unit :=
  do_ on_self (set_external_triggers_attr []);
  match output_triggers with
  | None | Some [] => ret tt
  | Some items =>
      for_each (with_picks items picks) (λ '((name, port), pick),
        do_ on_self (λ a, set_external_triggers_attr
                            (dict_set name port (_external_triggers a)) a);
        do trigger <- on_spdac (SPDac.allocate_trigger pick);
        do_ on_spdac (SPDac.connect_external_trigger port trigger width_s_default);
        on_self (λ a, set_internal_triggers_attr
                        (dict_set name trigger (_internal_triggers a)) a))
  end.

Definition _allocate_triggers (internal_triggers : option (list string))
    (output_triggers : option (list (string * Z))) (picks : list nat) : M env unit :=
  do_ on_self (set_internal_triggers_attr []);
  do_ _allocate_internal_triggers internal_triggers picks;
  _allocate_external_triggers output_triggers
    (drop (length (default [] internal_triggers)) picks).

(** The attributes [_fix_contact_order] assigns, from the items of the
    [contacts] dict in order. *)
Definition _fix_contact_order (contacts : list (string * Z)) : M env unit :=
  let '(names, cs, chans, _) :=
    fold_left (λ '(names, cs, chans, index) '(contact, channel),
                 (names ++ [contact], <[contact := index]> cs,
                  chans ++ [channel], S index))
              contacts ([], (∅ : gmap string nat), [], 0) in
  on_self (λ a,
    {| _contact_names := names; _contacts := cs; _channels := chans;
       _virtual_voltages := np.zeros (size cs);
       _correction := _correction a; _internal_triggers := _internal_triggers a;
       _external_triggers := _external_triggers a;
       _outer_trigger_channel := _outer_trigger_channel a |}).

Definition blank : t :=
  {| _contact_names := []; _contacts := ∅; _channels := [];
     _virtual_voltages := []; _correction := []; _internal_triggers := [];
     _external_triggers := []; _outer_trigger_channel := None |}.

(** [Arrangement_Context(spdac, contacts, output_triggers,
    internal_triggers, outer_trigger_channel)]: the new object, or the
    exception its construction raised. *)
Definition __init__ (contacts : list (string * Z))
    (output_triggers : option (list (string * Z)))
    (internal_triggers : option (list string))
    (outer_trigger_channel : option Z) (picks : list nat) : M SPDac.t t :=
  λ spdac,
    let body :=
      do_ _fix_contact_order contacts;
      do_ _allocate_triggers internal_triggers output_triggers picks;
      do_ on_self (set_outer_trigger_channel_attr outer_trigger_channel);
      do n <- shape;
      on_self (set_correction_attr (np.identity n)) in
    match body {| self := blank; _spdac := spdac |} with
    | (Return _, e) => (Return (self e), _spdac e)
    | (Raise x, e) => (Raise x, _spdac e)
    end.

Definition initiate_correction (contact : string) (factors : list float) : M env unit :=
  do index <- _contact_index contact;
  do c <- attr _correction;
  do c' <- lift (np.setrow index factors c);
  on_self (set_correction_attr c').

(** [if self._spdac._round_off:] holds for an [int] other than 0. *)
Definition truthy (round_off : option Z) : bool :=
  match round_off with
  | Some decimals => negb (decimals =? 0)%Z
  | None => false
  end.

Definition actual_voltages : M env (list float) :=
  do c <- attr _correction;
  do v <- attr _virtual_voltages;
  do round_off <- spdac_attr SPDac._round_off;
  let vs := np.matvec c v in
  let vs := if truthy round_off
            then np.round vs (default 0%Z round_off)
            else vs in
  ret vs.

Definition _effectuate_virtual_voltages : M env unit :=
  do chans <- attr _channels;
  for_each (imap (λ index channel_number, (index, channel_number)) chans)
    (λ '(index, channel_number),
      do vs <- actual_voltages;
      do actual_V <- lift (getitem index vs);
      do ch <- on_spdac (SPDac.channel channel_number);
      on_spdac (SPDacChannel.dc_constant_V ch actual_V)).

Definition _effectuate_virtual_voltage (index : nat) (voltage : float) : M env unit :=
  do_ store_virtual_voltage index voltage;
  _effectuate_virtual_voltages.

Definition set_virtual_voltage (contact : string) (voltage : float) : M env unit :=
  do index <- try_except (_contact_index contact) KeyError (raise ValueError);
  _effectuate_virtual_voltage index voltage.

Definition set_virtual_voltages (contacts_to_voltages : list (string * float)) : M env unit :=
  do_ for_each contacts_to_voltages (λ '(contact, voltage),
        do index <- try_except (_contact_index contact) KeyError (raise ValueError);
        store_virtual_voltage index voltage);
  _effectuate_virtual_voltages.

Definition add_correction (contact : string) (factors : list float) : M env unit :=
  do index <- _contact_index contact;
  do n <- shape;
  let multiplier := np.identity n in
  do multiplier <- lift (np.setrow index factors multiplier);
  do c <- attr _correction;
  on_self (set_correction_attr (np.matmul multiplier c)).

Definition virtual_voltage (contact : string) : M env float :=
  do index <- _contact_index contact;
  do v <- attr _virtual_voltages;
  lift (getitem index v).

Definition _calculate_1d_values (contact : string) (voltages : list float)
    : M env (list (list float)) :=
  do original_voltage <- virtual_voltage contact;
  do index <- _contact_index contact;
  do sweep <- comprehension voltages (λ v,
                do_ store_virtual_voltage index v;
                actual_voltages);
  do_ store_virtual_voltage index original_voltage;
  ret sweep.

Definition _check_same_lengths {A B C} (contacts : list A) (start_V : list B)
    (end_V : list C) : M env unit :=
  let n_contacts := length contacts in
  if decide (n_contacts ≠ length start_V) then raise ValueError
  else if decide (n_contacts ≠ length end_V) then raise ValueError
  else ret tt.

Definition _calculate_detune_values (contacts : list string)
    (start_V end_V : list float) (steps : Z) : M env (list (list float)) :=
  do original_voltages <- comprehension contacts virtual_voltage;
  do indices <- comprehension contacts _contact_index;
  do forward_V <- comprehension (seq 0 (length contacts)) (λ i,
                    do s <- lift (getitem i start_V);
                    do e <- lift (getitem i end_V);
                    lift (forward_and_back s e steps));
  do sweep <- comprehension (zip_star forward_V) (λ voltages,
                do_ for_each (zip indices voltages) (λ '(index, voltage),
                      store_virtual_voltage index voltage);
                actual_voltages);
  do_ for_each (zip indices original_voltages) (λ '(index, voltage),
        store_virtual_voltage index voltage);
  ret sweep.

Definition get_trigger_by_name (name : string) : M env SPDacTrigger_Context :=
  do d <- attr _internal_triggers;
  match dict_get name d with
  | Some trigger => ret trigger
  | None => raise KeyError
  end.

End Arrangement_Context.

(** ** Virtual_Sweep_Context *)

Module Virtual_Sweep_Context.

Import Arrangement_Context.

(** The attributes of the context; [self._arrangement] is the
    arrangement of the [env] its methods run in. *)
Record t : Type := {
  _sweep : list (list float);
  _step_trigger : option string;
  _step_time_s : float;
  _repetitions : option Z;
  _start_trigger_name : string;
  _spdac_ready : bool
}.

(** [fresh] is the name [uuid.uuid4().hex] produces. *)
Definition _allocate_triggers (start_sweep : option string) (fresh : string)
    (pick : nat) : M env string :=
  let start_sweep := match start_sweep with
                     | None | Some EmptyString => fresh
                     | Some name => name
                     end in
  do_ _allocate_internal_triggers (Some [start_sweep]) [pick];
  ret start_sweep.

Definition __init__ (sweep : list (list float)) (start_trigger : option string)
    (step_time_s : float) (step_trigger : option string) (repetitions : option Z)
    (fresh : string) (pick : nat) : M env t :=
  do name <- _allocate_triggers start_trigger fresh pick;
  ret {| _sweep := sweep; _step_trigger := step_trigger;
         _step_time_s := step_time_s; _repetitions := repetitions;
         _start_trigger_name := name; _spdac_ready := false |}.

(** [spdac.channel(self._arrangement._channels[contact_index])] *)
Definition _get_channel (contact_index : nat) : M env Z :=
  do chans <- attr _channels;
  do channel_number <- lift (getitem contact_index chans);
  on_spdac (SPDac.channel channel_number).

Definition __exit__ (ctx : t) : M env bool :=
  do channel <- _get_channel 0;
  do_ on_spdac (SPDac.write (sour_dc_mark_sst channel 0));
  do n <- shape;
  do_ for_each (seq 0 n) (λ contact_index,
        do channel <- _get_channel contact_index;
        do_ on_spdac (SPDacChannel.dc_abort channel);
        on_spdac (SPDac.write (sour_dc_trig_sour_imm channel)));
  ret false.

Definition close (ctx : t) : M env unit :=
  do_ __exit__ ctx;
  Arrangement_Context.close.

End Virtual_Sweep_Context.

(** ** The sweeps an arrangement builds *)

Module Arrangement_Sweeps.

Import Arrangement_Context.

Definition step_time_s_default : float := 0x1.4f8b588e368f1p-17%float.

(** [Arrangement_Context.virtual_sweep] *)
Definition virtual_sweep (contact : string) (voltages : list float)
    (start_sweep_trigger : option string) (step_time_s : float)
    (step_trigger : option string) (repetitions : option Z)
    (fresh : string) (pick : nat) : M env Virtual_Sweep_Context.t :=
  do sweep <- _calculate_1d_values contact voltages;
  Virtual_Sweep_Context.__init__ sweep start_sweep_trigger step_time_s
    step_trigger repetitions fresh pick.

(** [Arrangement_Context.virtual_detune] *)
Definition virtual_detune (contacts : list string) (start_V end_V : list float)
    (steps : Z) (start_trigger : option string) (step_time_s : float)
    (step_trigger : option string) (repetitions : option Z)
    (fresh : string) (pick : nat) : M env Virtual_Sweep_Context.t :=
  do_ _check_same_lengths contacts start_V end_V;
  do sweep <- _calculate_detune_values contacts start_V end_V steps;
  Virtual_Sweep_Context.__init__ sweep start_trigger step_time_s
    step_trigger repetitions fresh pick.

End Arrangement_Sweeps.

(** ** Vocabulary for the statements below *)

Module State.

Import Arrangement_Context.

(** The state [e] with the virtual-voltage vector [v]. *)
Definition with_virtual_voltages (v : list float) (e : env) : env :=
  {| self := set_virtual_voltages_attr v (self e); _spdac := _spdac e |}.

(** The state [e] with the correction matrix [c]. *)
Definition with_correction (c : list (list float)) (e : env) : env :=
  {| self := set_correction_attr c (self e); _spdac := _spdac e |}.

(** The virtual-voltage vector of [e]. *)
Definition virtual (e : env) : list float := _virtual_voltages (self e).

(** The physical-voltage vector of [e]: what [actual_voltages()] returns. *)
Definition physical (e : env) : list float :=
  match actual_voltages e with
  | (Return vs, _) => vs
  | (Raise _, _) => []
  end.

(** The commands written to the instrument so far. *)
Definition written (e : env) : list scpi := SPDac.visa (_spdac e).

(** The free internal triggers. *)
Definition pool (e : env) : gset Z := SPDac._internal_triggers (_spdac e).

(** The commands [dc_constant_V] writes for the voltages [vs] on the
    channels [channels], channel by channel. *)
Definition voltage_writes (channels : list Z) (vs : list float) : list scpi :=
  flat_map (λ '(channum, v), [sour_volt_mode_fix channum; sour_volt channum v])
           (zip channels vs).

(** The vector [v] after the assignments of [contacts_to_voltages], in
    order, at the indices [contacts] gives. *)
Definition assigned (contacts : gmap string nat)
    (contacts_to_voltages : list (string * float)) (v : list float) : list float :=
  fold_left (λ v '(contact, voltage),
               match contacts !! contact with
               | Some index => <[index := voltage]> v
               | None => v
               end) contacts_to_voltages v.

(** The entry in row [r] and column [c] of the product of two [n] by [n]
    matrices given by their entries: the sum over [j] of
    [a r j * b j c]. *)
Definition product_entry (n : nat) (a b : nat → nat → float) (r c : nat) : float :=
  fold_left (λ acc j, (acc + a r j * b j c)%float) (seq 0 n) 0%float.

(** The entries of the identity matrix with row [index] replaced by
    [factors]. *)
Definition perturbation (index : nat) (factors : list float) (r c : nat) : float :=
  if decide (r = index) then nth c factors 0%float
  else if decide (r = c) then 1%float else 0%float.

(** The entries of the matrix [m], [0.0] outside of it. *)
Definition entries (m : list (list float)) (r c : nat) : float :=
  default 0%float (np.entry m r c).

(** The vector [v] after [v[index] = voltage] for the pairs of
    [zip(indices, voltages)], in order. *)
Definition stored (indices : list nat) (voltages : list float) (v : list float)
    : list float :=
  fold_left (λ v iv, <[iv.1 := iv.2]> v) (zip indices voltages) v.

(** The [steps] evenly spaced points from [start] to [end_], followed by
    the reverse of those points with both endpoints excluded. *)
Definition there_and_back (start end_ : float) (steps : Z) : list float :=
  let forward := np.samples start end_ (Z.to_nat steps) in
  forward ++ rev (removelast (tl forward)).

(** [x == y] on floats: equal as numbers, so [-0.0 == 0.0] and a NaN
    equals nothing. *)
Definition same_voltage (x y : float) : Prop := (x =? y)%float = true.

(** The state [e] after [spdac._round_off = round_off]. *)
Definition with_round_off (round_off : option Z) (e : env) : env :=
  {| self := self e;
     _spdac := {| SPDac._internal_triggers := SPDac._internal_triggers (_spdac e);
                  SPDac._round_off := round_off;
                  SPDac._record_commands := SPDac._record_commands (_spdac e);
                  SPDac._scpi_sent := SPDac._scpi_sent (_spdac e);
                  SPDac.visa := SPDac.visa (_spdac e) |} |}.

(** [e'] differs from [e] at most in the commands written. *)
Definition only_written (e e' : env) : Prop :=
  self e' = self e ∧
  SPDac._internal_triggers (_spdac e') = SPDac._internal_triggers (_spdac e) ∧
  SPDac._round_off (_spdac e') = SPDac._round_off (_spdac e) ∧
  SPDac._record_commands (_spdac e') = SPDac._record_commands (_spdac e).

(** In every state whose arrangement is [a], the computation [m] has
    the outcome [r], writes the commands [cmds], returns the ids [freed]
    to the pool and changes nothing else of what the driver acts on. *)
Definition emits {A} (m : M env A) (a : t) (r : outcome A)
    (cmds : list scpi) (freed : gset Z) : Prop :=
  ∀ e, self e = a →
    ∃ e', m e = (r, e') ∧
          self e' = a ∧
          written e' = written e ++ cmds ∧
          pool e' = pool e ∪ freed ∧
          SPDac._round_off (_spdac e') = SPDac._round_off (_spdac e) ∧
          SPDac._record_commands (_spdac e') = SPDac._record_commands (_spdac e) ∧
          SPDac._scpi_sent (_spdac e')
            = SPDac._scpi_sent (_spdac e)
                ++ (if SPDac._record_commands (_spdac e) then cmds else []).

(** The outcome, the commands and the freed ids of [m] are determined by
    the arrangement. *)
Definition determined {A} (m : M env A) (a : t) : Prop :=
  ∃ r cmds freed, emits m a r cmds freed.

(** The shape invariant of an arrangement of [n] contacts: one virtual
    voltage and one channel per contact, an [n] by [n] correction
    matrix, and every contact index below [n]. *)
Definition well_formed (a : t) : Prop :=
  let n := size (_contacts a) in
  length (_virtual_voltages a) = n ∧
  length (_channels a) = n ∧
  length (_correction a) = n ∧
  Forall (λ row, length row = n) (_correction a) ∧
  (∀ contact index, _contacts a !! contact = Some index → index < n).

End State.

(** ** Sequences of pool operations *)

Module Pool.

Inductive op : Type :=
| allocate (pick : nat)
| free (trigger : SPDacTrigger_Context).

(** What a caller observes of one operation. *)
Inductive event : Type :=
| issued (id : Z)
| raised (e : exn)
| freed (id : Z).

#[global] Instance event_eq_dec : EqDecision event.
Proof. solve_decision. Defined.

Definition step (o : op) (d : SPDac.t) : event * SPDac.t :=
  match o with
  | allocate pick =>
      match SPDac.allocate_trigger pick d with
      | (Return trigger, d') => (issued (value trigger), d')
      | (Raise e, d') => (raised e, d')
      end
  | free trigger =>
      match SPDac.free_trigger trigger d with
      | (Return _, d') => (freed (value trigger), d')
      | (Raise e, d') => (raised e, d')
      end
  end.

Fixpoint run (ops : list op) (d : SPDac.t) : list event * SPDac.t :=
  match ops with
  | [] => ([], d)
  | o :: ops' =>
      let (ev, d') := step o d in
      let (evs, d'') := run ops' d' in
      (ev :: evs, d'')
  end.

Definition events (ops : list op) (d : SPDac.t) : list event := fst (run ops d).
Definition final (ops : list op) (d : SPDac.t) : SPDac.t := snd (run ops d).

(** The ids held by callers after the events [evs], [held] before them:
    an issued id is held until it is freed. *)
Definition held_after (held : gset Z) (evs : list event) : gset Z :=
  fold_left (λ held ev,
               match ev with
               | issued id => held ∪ {[id]}
               | freed id => held ∖ {[id]}
               | raised _ => held
               end) evs held.

(** The ids issued and not freed since, after the events [evs]. *)
Definition outstanding (evs : list event) : gset Z := held_after ∅ evs.

(** A [free] is handed a trigger id of the device, 1 to [n_triggers]. *)
Definition trigger_id (o : op) : Prop :=
  match o with
  | allocate _ => True
  | free trigger => (1 ≤ value trigger ≤ SPDac.n_triggers)%Z
  end.

End Pool.

(** ** Arrangements used as examples *)

Module Example.

Import Arrangement_Context.

(** [spdac.arrange(contacts, output_triggers, internal_triggers)] on a
    freshly connected driver; the blank state if construction raised. *)
Definition arrange (contacts : list (string * Z))
    (output_triggers : option (list (string * Z)))
    (internal_triggers : option (list string)) : env :=
  match __init__ contacts output_triggers internal_triggers None [] SPDac.init with
  | (Return a, d) => {| self := a; _spdac := d |}
  | (Raise _, d) => {| self := blank; _spdac := d |}
  end.

(** One contact ["a"] on channel 1. *)
Definition a : env := arrange [("a", 1%Z)] None None.

(** Contacts ["a"] and ["b"] on channels 1 and 2. *)
Definition ab : env := arrange [("a", 1%Z); ("b", 2%Z)] None None.

(** The same after [add_correction("a", [1.0, 0.5])]. *)
Definition ab_corrected : env := (add_correction "a" [1; 0.5]%float ab).2.

(** The same with the external output trigger ["out"] on port 4. *)
Definition ab_out : env := arrange [("a", 1%Z); ("b", 2%Z)] (Some [("out", 4%Z)]) None.

(** The sweep context of [ab.virtual_sweep("a", [0.0, 1.0])] and the
    state it is created in. *)
Definition ab_sweep : outcome Virtual_Sweep_Context.t * env :=
  Arrangement_Sweeps.virtual_sweep "a" [0; 1]%float None
    Arrangement_Sweeps.step_time_s_default None (Some 1%Z) "fresh" 0 ab.

End Example.

(** * More of the driver *)

(** ** SPDacTrigger_Context as a context manager *)

Module Trigger_Context.

(** [__exit__]: the trigger goes back to its parent's pool; exceptions
    are propagated ([False]). *)
Definition __exit__ (self : SPDacTrigger_Context) : M SPDac.t bool :=
  do_ SPDac.free_trigger self;
  ret false.

Definition close (self : SPDacTrigger_Context) : M SPDac.t unit :=
  do_ __exit__ self; ret tt.

End Trigger_Context.

(** ** Recording the SCPI commands *)

Module Recording.

Definition start_recording_scpi : M SPDac.t unit :=
  modify (λ self,
    {| SPDac._internal_triggers := SPDac._internal_triggers self;
       SPDac._round_off := SPDac._round_off self;
       SPDac._record_commands := true;
       SPDac._scpi_sent := [];
       SPDac.visa := SPDac.visa self |}).

Definition get_recorded_scpi_commands : M SPDac.t (list scpi) :=
  λ self,
    let commands := SPDac._scpi_sent self in
    (Return commands,
     {| SPDac._internal_triggers := SPDac._internal_triggers self;
        SPDac._round_off := SPDac._round_off self;
        SPDac._record_commands := SPDac._record_commands self;
        SPDac._scpi_sent := [];
        SPDac.visa := SPDac.visa self |}).

End Recording.

(** ** Two-dimensional sweeps *)

Module Arrangement_2d.

Import Arrangement_Context.

(** [Arrangement_Context._calculate_2d_values] *)
Definition _calculate_2d_values (inner_contact : string) (inner_voltages : list float)
    (outer_contact : string) (outer_voltages : list float)
    : M env (list (list float)) :=
  do original_fast_voltage <- virtual_voltage inner_contact;
  do original_slow_voltage <- virtual_voltage outer_contact;
  do outer_index <- _contact_index outer_contact;
  do inner_index <- _contact_index inner_contact;
  do sweep <- comprehension outer_voltages (λ slow_V,
                do_ store_virtual_voltage outer_index slow_V;
                comprehension inner_voltages (λ fast_V,
                  do_ store_virtual_voltage inner_index fast_V;
                  actual_voltages));
  do_ store_virtual_voltage inner_index original_fast_voltage;
  do_ store_virtual_voltage outer_index original_slow_voltage;
  ret (concat sweep).

End Arrangement_2d.

(** ** The triggers of an arrangement *)

Module Allocation.

Import Arrangement_Context.

(** The names an arrangement is asked to allocate triggers for, in the
    order of allocation: [internal_triggers], then the keys of
    [output_triggers]. *)
Definition names (internal_triggers : option (list string))
    (output_triggers : option (list (string * Z))) : list string :=
  default [] internal_triggers ++ (default [] output_triggers).*1.

(** The ports of [output_triggers], in order. *)
Definition ports (output_triggers : option (list (string * Z))) : list Z :=
  (default [] output_triggers).*2.

(** The ids of the triggers the arrangement [a] holds. *)
Definition held (a : t) : gset Z :=
  list_to_set (map value (dict_values (_internal_triggers a))).

(** What [connect_external_trigger] writes for the output [port] and
    the trigger id [n]. *)
Definition connects (port n : Z) : list scpi :=
  [outp_trig_sour_int port n; outp_trig_widt port width_s_default].

(** The state after one round of the loop of
    [_allocate_internal_triggers] in which [set.pop()] returned [n]. *)
Definition internal_step (name : string) (n : Z) (e : env) : env :=
  {| self := set_internal_triggers_attr
               (dict_set name {| value := n |} (_internal_triggers (self e))) (self e);
     _spdac := SPDac.set_internal_triggers
                 (SPDac._internal_triggers (_spdac e) ∖ {[n]}) (_spdac e) |}.

(** The same for the loop of [_allocate_external_triggers]. *)
Definition external_step (name : string) (port : Z) (n : Z) (e : env) : env :=
  {| self := set_internal_triggers_attr
               (dict_set name {| value := n |} (_internal_triggers (self e)))
               (set_external_triggers_attr
                  (dict_set name port (_external_triggers (self e))) (self e));
     _spdac := (SPDac.connect_external_trigger port {| value := n |} width_s_default
                  (SPDac.set_internal_triggers
                     (SPDac._internal_triggers (_spdac e) ∖ {[n]}) (_spdac e))).2 |}.

End Allocation.

(** ** Contacts and channels of an arrangement *)

Module Arrangement_Channels.

Import Arrangement_Context.

(** The property [contact_names] *)
Definition contact_names : M env (list string) := attr _contact_names.

(** The property [channel_numbers] *)
Definition channel_numbers : M env (list Z) := attr _channels.

(** [Arrangement_Context.channel]:
    [self._spdac.channel(self._channels[self._contacts[name]])] *)
Definition channel (name : string) : M env Z :=
  do chans <- attr _channels;
  do cs <- attr _contacts;
  do index <- match cs !! name with
              | Some index => ret index
              | None => raise KeyError
              end;
  do channel_number <- lift (getitem index chans);
  on_spdac (SPDac.channel channel_number).

End Arrangement_Channels.

(** ** Voltages a channel refuses *)

Module Validation.

(** The exception with which setting the voltage [v] on the channel
    with number [channel_number] stops, if it does: there is no such
    channel ([AttributeError] of [spdac.channel]), or the voltage fails
    the validator of [dc_constant_V] ([ValueError]). *)
Definition rejection (channel_number : Z) (v : float) : option exn :=
  if decide (1 ≤ channel_number ≤ 4)%Z then
    if ((-10 <=? v) && (v <=? 10))%float then None else Some ValueError
  else Some AttributeError.

End Validation.

(** ** The values of a sweep *)

Module ndarray.

(** [np.array(rows)[:, index]]: the array of a list without rows has
    one dimension only, and indexing it with two raises [IndexError];
    so does a column that does not exist. *)
Definition column (rows : list (list float)) (index : nat) : outcome (list float) :=
  match rows with
  | [] => Raise IndexError
  | row :: _ =>
      if decide (index < length row)
      then Return (map (λ r, nth index r 0%float) rows)
      else Raise IndexError
  end.

End ndarray.

Module Virtual_Sweep_Values.

Import Arrangement_Context.

(** [Virtual_Sweep_Context.actual_values_V] *)
Definition actual_values_V (ctx : Virtual_Sweep_Context.t) (contact : string)
    : M env (list float) :=
  do index <- _contact_index contact;
  lift (ndarray.column (Virtual_Sweep_Context._sweep ctx) index).

End Virtual_Sweep_Values.

(** ** DC generators: [_Dc_Context], [Sweep_Context] and [List_Context] *)

Module Generator.

(** The trigger sources of [sour:dc:trig:sour]. *)
Inductive source : Type :=
| hold
| bus
| imm
| int (internal : Z)
| ext (external : Z).

(** The four markers of [sour:dc:mark]. *)
Inductive marker : Type :=
| star
| end_
| sst
| send.

(** The commands the generator contexts write.  Numbers are kept as
    values, not as the text Python formats them to; [repetitions] is
    [None] when the caller passed [None]. *)
Inductive command : Type :=
| sour_dc_trig_sour (channum : Z) (s : source)    (* sour:dc:trig:sour {0},{s} *)
| sour_dc_mark (m : marker) (channum n : Z)       (* sour:dc:mark:{m} {0},{n} *)
| sour_dc_del (channum : Z) (delay_s : float)     (* sour:dc:del {0},{delay_s} *)
| sour_dc_init_cont (channum : Z) (on : bool)     (* sour:dc:init:cont {0},on|off *)
| sour_dc_init (channum : Z)                      (* sour:dc:init {0} *)
| tint (n : Z)                                    (* tint {n} *)
| sour_volt_mode_swe (channum : Z)                (* sour:volt:mode {0},swe *)
| sour_swe_star (channum : Z) (v : float)         (* sour:swe:star {0},{v} *)
| sour_swe_stop (channum : Z) (v : float)         (* sour:swe:stop {0},{v} *)
| sour_swe_poin (channum points : Z)              (* sour:swe:poin {0},{points} *)
| sour_swe_gen (channum : Z) (stepped : bool)     (* sour:swe:gen {0},step|anal *)
| sour_swe_dwel (channum : Z) (dwell_s : float)   (* sour:swe:dwel {0},{dwell_s} *)
| sour_swe_coun (channum : Z) (repetitions : option Z) (* sour:swe:coun {0} {n} *)
| sour_volt_mode_list (channum : Z)               (* sour:volt:mode {0},list *)
| sour_list_volt (channum : Z) (vs : list float)  (* sour:list:volt {0},{vs} *)
| sour_list_volt_app (channum : Z) (vs : list float) (* sour:list:volt:app {0},{vs} *)
| sour_list_tmod (channum : Z) (stepped : bool)   (* sour:list:tmod {0},step|auto *)
| sour_list_dwel (channum : Z) (dwell_s : float)  (* sour:list:dwel {0},{dwell_s} *)
| sour_list_dir (channum : Z) (backwards : bool)  (* sour:list:dir {0},down|up *)
| sour_list_coun (channum : Z) (repetitions : option Z) (* sour:list:coun {0},{n} *)
| plain (cmd : scpi).                             (* a command of [scpi] *)

(** The driver as the generator contexts use it: the pool of internal
    triggers lives in [spdac]; [sent] are the generator commands handed
    to the transport, in order, and [recorded] those of them that
    [write] and [write_floats] appended to [_scpi_sent]. *)
Record driver : Type := {
  spdac : SPDac.t;
  recorded : list command;
  sent : list command
}.

(** [SPDac.write] and [SPDac.write_floats], for a generator command. *)
Definition write (cmd : command) : M driver unit :=
  modify (λ d,
    {| spdac := spdac d;
       recorded := if SPDac._record_commands (spdac d)
                   then recorded d ++ [cmd] else recorded d;
       sent := sent d ++ [cmd] |}).

(** The driver [d] after the commands [cmds] were written. *)
Definition wrote (cmds : list command) (d : driver) : driver :=
  {| spdac := spdac d;
     recorded := if SPDac._record_commands (spdac d)
                 then recorded d ++ cmds else recorded d;
     sent := sent d ++ cmds |}.

Definition on_spdac {A} (m : M SPDac.t A) : M driver A :=
  zoom spdac (λ s d, {| spdac := s; recorded := recorded d; sent := sent d |}) m.

(** The class of a context decides which methods it has. *)
Inductive class : Type :=
| Sweep_Context
| List_Context.

(** The attributes of a [_Dc_Context]; [_channel] is the number of the
    channel the context belongs to. *)
Record t : Type := {
  class_of : class;
  _channel : Z;
  _trigger : option SPDacTrigger_Context;
  _marker_start : option SPDacTrigger_Context;
  _marker_end : option SPDacTrigger_Context;
  _marker_step_start : option SPDacTrigger_Context;
  _marker_step_end : option SPDacTrigger_Context;
  _repetitions : option Z
}.

(** A context and the driver of its channel. *)
Record env : Type := { self : t; _parent : driver }.

Definition on_parent {A} (m : M driver A) : M env A :=
  zoom _parent (λ d e, {| self := self e; _parent := d |}) m.

Definition on_self (f : t → t) : M env unit :=
  modify (λ e, {| self := f (self e); _parent := _parent e |}).

Definition attr {A} (f : t → A) : M env A := λ e, (Return (f (self e)), e).

Definition set_trigger (x : option SPDacTrigger_Context) (c : t) : t :=
  {| class_of := class_of c; _channel := _channel c; _trigger := x;
     _marker_start := _marker_start c; _marker_end := _marker_end c;
     _marker_step_start := _marker_step_start c;
     _marker_step_end := _marker_step_end c; _repetitions := _repetitions c |}.

Definition set_marker_start (x : option SPDacTrigger_Context) (c : t) : t :=
  {| class_of := class_of c; _channel := _channel c; _trigger := _trigger c;
     _marker_start := x; _marker_end := _marker_end c;
     _marker_step_start := _marker_step_start c;
     _marker_step_end := _marker_step_end c; _repetitions := _repetitions c |}.

Definition set_marker_end (x : option SPDacTrigger_Context) (c : t) : t :=
  {| class_of := class_of c; _channel := _channel c; _trigger := _trigger c;
     _marker_start := _marker_start c; _marker_end := x;
     _marker_step_start := _marker_step_start c;
     _marker_step_end := _marker_step_end c; _repetitions := _repetitions c |}.

Definition set_marker_step_start (x : option SPDacTrigger_Context) (c : t) : t :=
  {| class_of := class_of c; _channel := _channel c; _trigger := _trigger c;
     _marker_start := _marker_start c; _marker_end := _marker_end c;
     _marker_step_start := x;
     _marker_step_end := _marker_step_end c; _repetitions := _repetitions c |}.

Definition set_marker_step_end (x : option SPDacTrigger_Context) (c : t) : t :=
  {| class_of := class_of c; _channel := _channel c; _trigger := _trigger c;
     _marker_start := _marker_start c; _marker_end := _marker_end c;
     _marker_step_start := _marker_step_start c;
     _marker_step_end := x; _repetitions := _repetitions c |}.

Definition set_repetitions (x : option Z) (c : t) : t :=
  {| class_of := class_of c; _channel := _channel c; _trigger := _trigger c;
     _marker_start := _marker_start c; _marker_end := _marker_end c;
     _marker_step_start := _marker_step_start c;
     _marker_step_end := _marker_step_end c; _repetitions := x |}.

(** [_write_channel(cmd)] and [_write_channel_floats(cmd, values)]:
    the channel number is put into the command. *)
Definition _write_channel (cmd : Z → command) : M env unit :=
  do channum <- attr _channel;
  on_parent (write (cmd channum)).

(** *** _Channel_Context and _Dc_Context *)

Definition allocate_trigger (pick : nat) : M env SPDacTrigger_Context :=
  on_parent (on_spdac (SPDac.allocate_trigger pick)).

Definition _make_ready_to_start : M env unit :=
  _write_channel (λ ch, sour_dc_init_cont ch true).

Definition _make_ready_to_start_once : M env unit :=
  _write_channel (λ ch, sour_dc_init_cont ch false).

Definition _switch_to_immediate_trigger : M env unit :=
  do_ _write_channel (λ ch, sour_dc_init_cont ch false);
  _write_channel (λ ch, sour_dc_trig_sour ch imm).

Definition abort : M env unit := _write_channel (λ ch, plain (sour_dc_abor ch)).

(** [_Dc_Context.__init__], after [self._channel = channel] *)
Definition _Dc_Context__init__ : M env unit :=
  do_ _write_channel (λ ch, sour_dc_trig_sour ch hold);
  do_ on_self (set_trigger None);
  do_ on_self (set_marker_start None);
  do_ on_self (set_marker_end None);
  do_ on_self (set_marker_step_start None);
  on_self (set_marker_step_end None).

(** [if self._marker:] free it and write [clear], the command that
    pairs the marker with trigger 0. *)
Definition release_marker (m : option SPDacTrigger_Context) (clear : Z → command)
    : M env unit :=
  match m with
  | Some trigger =>
      do_ on_parent (on_spdac (SPDac.free_trigger trigger));
      _write_channel clear
  | None => ret tt
  end.

Definition __exit__ : M env bool :=
  do_ abort;
  do trigger <- attr _trigger;
  do_ match trigger with
      | Some trigger => on_parent (on_spdac (SPDac.free_trigger trigger))
      | None => ret tt
      end;
  do m <- attr _marker_start;
  do_ release_marker m (λ ch, sour_dc_mark star ch 0);
  do m <- attr _marker_end;
  do_ release_marker m (λ ch, sour_dc_mark end_ ch 0);
  do m <- attr _marker_step_start;
  do_ release_marker m (λ ch, sour_dc_mark sst ch 0);
  do m <- attr _marker_step_end;
  do_ release_marker m (λ ch, sour_dc_mark send ch 0);
  do_ _write_channel (λ ch, sour_dc_trig_sour ch imm);
  ret false.

Definition close : M env unit :=
  do_ __exit__; ret tt.

Definition start_on (trigger : SPDacTrigger_Context) : M env unit :=
  do_ on_self (set_trigger (Some trigger));
  let internal := _trigger_context_to_value trigger in
  do_ _write_channel (λ ch, sour_dc_trig_sour ch (int internal));
  _make_ready_to_start.

Definition start_once_on (trigger : SPDacTrigger_Context) : M env unit :=
  do_ on_self (set_trigger (Some trigger));
  let internal := _trigger_context_to_value trigger in
  do_ _write_channel (λ ch, sour_dc_trig_sour ch (int internal));
  _make_ready_to_start_once.

Definition start_on_external (trigger : Z) : M env unit :=
  do_ on_self (set_trigger None);
  do_ _write_channel (λ ch, sour_dc_trig_sour ch (ext trigger));
  _make_ready_to_start.

Definition start_once_on_external (trigger : Z) : M env unit :=
  do_ on_self (set_trigger None);
  do_ _write_channel (λ ch, sour_dc_trig_sour ch (ext trigger));
  _make_ready_to_start_once.

(** The four marker methods: [get] and [set] are the attribute of the
    marker, [m] its name in the command. *)
Definition marker_method (get : t → option SPDacTrigger_Context)
    (set : option SPDacTrigger_Context → t → t) (m : marker) (pick : nat)
    : M env SPDacTrigger_Context :=
  do current <- attr get;
  do trigger <- match current with
                | Some trigger => ret trigger
                | None =>
                    do trigger <- allocate_trigger pick;
                    do_ on_self (set (Some trigger));
                    ret trigger
                end;
  do_ _write_channel (λ ch, sour_dc_mark m ch (value trigger));
  ret trigger.

Definition end_marker : nat → M env SPDacTrigger_Context :=
  marker_method _marker_end set_marker_end end_.

Definition start_marker : nat → M env SPDacTrigger_Context :=
  marker_method _marker_start set_marker_start star.

Definition step_end_marker : nat → M env SPDacTrigger_Context :=
  marker_method _marker_step_end set_marker_step_end send.

Definition step_start_marker : nat → M env SPDacTrigger_Context :=
  marker_method _marker_step_start set_marker_step_start sst.

Definition _set_delay (delay_s : float) : M env unit :=
  _write_channel (λ ch, sour_dc_del ch delay_s).

Definition _set_triggering : M env unit :=
  do_ _write_channel (λ ch, sour_dc_trig_sour ch bus);
  _make_ready_to_start.

Definition _start : M env unit :=
  do trigger <- attr _trigger;
  match trigger with
  | Some trigger =>
      do_ _make_ready_to_start;
      _write_channel (λ _, tint (value trigger))
  | None =>
      do_ _switch_to_immediate_trigger;
      _write_channel sour_dc_init
  end.

(** *** Methods the subclasses define *)

(** [self._set_direction(backwards)]: [List_Context] defines the
    method; [Sweep_Context] does not (its definition is commented out)
    and neither do its base classes, so the attribute lookup fails. *)
Definition _set_direction (backwards : bool) : M env unit :=
  do c <- attr class_of;
  match c with
  | List_Context => _write_channel (λ ch, sour_list_dir ch backwards)
  | Sweep_Context => raise AttributeError
  end.

Definition _set_repetitions : M env unit :=
  do c <- attr class_of;
  do repetitions <- attr _repetitions;
  match c with
  | List_Context => _write_channel (λ ch, sour_list_coun ch repetitions)
  | Sweep_Context => _write_channel (λ ch, sour_swe_coun ch repetitions)
  end.

(** [Sweep_Context._set_voltages] *)
Definition _set_voltages_sweep (start_V stop_V : float) : M env unit :=
  do_ _write_channel (λ ch, sour_swe_star ch start_V);
  _write_channel (λ ch, sour_swe_stop ch stop_V).

Definition _set_generation_mode (stepped : bool) : M env unit :=
  _write_channel (λ ch, sour_swe_gen ch stepped).

(** [List_Context._set_voltages] *)
Definition _set_voltages_list (voltages : list float) : M env unit :=
  _write_channel (λ ch, sour_list_volt ch voltages).

Definition _set_trigger_mode (stepped : bool) : M env unit :=
  _write_channel (λ ch, sour_list_tmod ch stepped).

Definition start : M env unit := _start.

(** [append]: a method of [List_Context] only. *)
Definition append (voltages : list float) : M env unit :=
  do c <- attr class_of;
  match c with
  | List_Context =>
      do_ _write_channel (λ ch, sour_list_volt_app ch voltages);
      _make_ready_to_start
  | Sweep_Context => raise AttributeError
  end.

(** The object [__init__] starts from: its class and its channel. *)
Definition blank (c : class) (channel : Z) : t :=
  {| class_of := c; _channel := channel; _trigger := None;
     _marker_start := None; _marker_end := None; _marker_step_start := None;
     _marker_step_end := None; _repetitions := None |}.

(** The new object, or the exception its construction raised. *)
Definition construct (c : class) (channel : Z) (body : M env unit) : M driver t :=
  λ d, match body {| self := blank c channel; _parent := d |} with
       | (Return _, e) => (Return (self e), _parent e)
       | (Raise x, e) => (Raise x, _parent e)
       end.

Definition Sweep_Context__init__ (channel : Z) (start_V stop_V : float) (points : Z)
    (repetitions : option Z) (dwell_s delay_s : float) (backwards stepped : bool)
    : M driver t :=
  construct Sweep_Context channel (
    do_ on_self (set_repetitions repetitions);
    do_ _Dc_Context__init__;
    do_ _write_channel sour_volt_mode_swe;
    do_ _set_voltages_sweep start_V stop_V;
    do_ _write_channel (λ ch, sour_swe_poin ch points);
    do_ _set_generation_mode stepped;
    do_ _write_channel (λ ch, sour_swe_dwel ch dwell_s);
    do_ _set_delay delay_s;
    do_ _set_direction backwards;
    do_ _set_repetitions;
    _set_triggering).

Definition List_Context__init__ (channel : Z) (voltages : list float)
    (repetitions : option Z) (dwell_s delay_s : float) (backwards stepped : bool)
    : M driver t :=
  construct List_Context channel (
    do_ _Dc_Context__init__;
    do_ on_self (set_repetitions repetitions);
    do_ _write_channel sour_volt_mode_list;
    do_ _set_voltages_list voltages;
    do_ _set_trigger_mode stepped;
    do_ _write_channel (λ ch, sour_list_dwel ch dwell_s);
    do_ _set_delay delay_s;
    do_ _set_direction backwards;
    do_ _set_repetitions;
    _set_triggering).

(** [SPDacChannel.dc_list] and [SPDacChannel.dc_sweep] of the channel
    with number [channum]. *)
Definition dc_list (channum : Z) (voltages : list float) (repetitions : option Z)
    (dwell_s delay_s : float) (backwards stepped : bool) : M driver t :=
  List_Context__init__ channum voltages repetitions dwell_s delay_s backwards stepped.

Definition dc_sweep (channum : Z) (start_V stop_V : float) (points : Z)
    (repetitions : option Z) (dwell_s delay_s : float) (backwards stepped : bool)
    : M driver t :=
  Sweep_Context__init__ channum start_V stop_V points repetitions dwell_s delay_s
    backwards stepped.

(** *** Statement vocabulary *)

(** The ids of the markers a context holds. *)
Definition markers (c : t) : list Z :=
  map value (omap id [_marker_start c; _marker_end c;
                      _marker_step_start c; _marker_step_end c]).

(** The id of the trigger attached by [start_on] or [start_once_on]. *)
Definition attached (c : t) : gset Z :=
  match _trigger c with
  | Some trigger => {[value trigger]}
  | None => ∅
  end.

Definition marker_ids (c : t) : gset Z := list_to_set (markers c).

Definition pool (e : env) : gset Z := SPDac._internal_triggers (spdac (_parent e)).

(** The state [e] after the context became [c], the commands [cmds]
    were written and the free triggers became [p]. *)
Definition after (c : t) (cmds : list command) (p : gset Z) (e : env) : env :=
  {| self := c;
     _parent := wrote cmds
                  {| spdac := SPDac.set_internal_triggers p (spdac (_parent e));
                     recorded := recorded (_parent e);
                     sent := sent (_parent e) |} |}.

(** From [e] to [e'] the markers and the pool are unchanged, or one id
    has moved from the pool to the markers. *)
Definition unchanged_or_taken (e e' : env) : Prop :=
  (marker_ids (self e') = marker_ids (self e) ∧ pool e' = pool e) ∨
  (∃ n, n ∈ pool e ∧ pool e' = pool e ∖ {[n]} ∧
        marker_ids (self e') = {[n]} ∪ marker_ids (self e)).

(** The commands [__exit__] writes for the context [c]. *)
Definition closing (c : t) : list command :=
  let clear (m : option SPDacTrigger_Context) (k : marker) :=
    match m with
    | Some _ => [sour_dc_mark k (_channel c) 0]
    | None => []
    end in
  [plain (sour_dc_abor (_channel c))]
    ++ clear (_marker_start c) star ++ clear (_marker_end c) end_
    ++ clear (_marker_step_start c) sst ++ clear (_marker_step_end c) send
    ++ [sour_dc_trig_sour (_channel c) imm].

(** What the user of a context can call. *)
Inductive call : Type :=
| call_start_on (trigger : SPDacTrigger_Context)
| call_start_once_on (trigger : SPDacTrigger_Context)
| call_start_on_external (trigger : Z)
| call_start_once_on_external (trigger : Z)
| call_abort
| call_end_marker (pick : nat)
| call_start_marker (pick : nat)
| call_step_end_marker (pick : nat)
| call_step_start_marker (pick : nat)
| call_start
| call_append (voltages : list float).

Definition perform (c : call) : M env unit :=
  match c with
  | call_start_on trigger => start_on trigger
  | call_start_once_on trigger => start_once_on trigger
  | call_start_on_external trigger => start_on_external trigger
  | call_start_once_on_external trigger => start_once_on_external trigger
  | call_abort => abort
  | call_end_marker pick => do_ end_marker pick; ret tt
  | call_start_marker pick => do_ start_marker pick; ret tt
  | call_step_end_marker pick => do_ step_end_marker pick; ret tt
  | call_step_start_marker pick => do_ step_start_marker pick; ret tt
  | call_start => start
  | call_append voltages => append voltages
  end.

(** A program that makes the calls one after the other and goes on
    after a call that raised. *)
Definition perform_all (calls : list call) (e : env) : env :=
  fold_left (λ e c, (perform c e).2) calls e.

End Generator.

(** ** Starting a virtual sweep *)

Module Sweep_Session.

Import Arrangement_Context.

(** A sweep context ([this]), the arrangement it belongs to with its
    driver, and the generator commands written through that driver. *)
Record t : Type := {
  this : Virtual_Sweep_Context.t;
  _arrangement : Arrangement_Context.env;
  _recorded : list Generator.command;
  _sent : list Generator.command
}.

Definition on_arrangement {A} (m : M Arrangement_Context.env A) : M t A :=
  zoom _arrangement
       (λ a s, {| this := this s; _arrangement := a;
                  _recorded := _recorded s; _sent := _sent s |}) m.

(** The driver of the arrangement, as the generator contexts use it. *)
Definition on_driver {A} (m : M Generator.driver A) : M t A :=
  λ s, let d := {| Generator.spdac := _spdac (_arrangement s);
                   Generator.recorded := _recorded s;
                   Generator.sent := _sent s |} in
       let (r, d') := m d in
       (r, {| this := this s;
              _arrangement := {| self := self (_arrangement s);
                                 _spdac := Generator.spdac d' |};
              _recorded := Generator.recorded d';
              _sent := Generator.sent d' |}).

(** A method call on the generator context [c], which is not kept. *)
Definition on_context {A} (c : Generator.t) (m : M Generator.env A)
    : M Generator.driver A :=
  λ d, let (r, e') := m {| Generator.self := c; Generator._parent := d |} in
       (r, Generator._parent e').

Definition attr {A} (f : Virtual_Sweep_Context.t → A) : M t A :=
  λ s, (Return (f (this s)), s).

Definition set_spdac_ready (ready : bool) : M t unit :=
  modify (λ s,
    {| this := {| Virtual_Sweep_Context._sweep := Virtual_Sweep_Context._sweep (this s);
                  Virtual_Sweep_Context._step_trigger :=
                    Virtual_Sweep_Context._step_trigger (this s);
                  Virtual_Sweep_Context._step_time_s :=
                    Virtual_Sweep_Context._step_time_s (this s);
                  Virtual_Sweep_Context._repetitions :=
                    Virtual_Sweep_Context._repetitions (this s);
                  Virtual_Sweep_Context._start_trigger_name :=
                    Virtual_Sweep_Context._start_trigger_name (this s);
                  Virtual_Sweep_Context._spdac_ready := ready |};
       _arrangement := _arrangement s;
       _recorded := _recorded s; _sent := _sent s |}).

Definition _route_inner_trigger : M t unit :=
  do step_trigger <- attr Virtual_Sweep_Context._step_trigger;
  match step_trigger with
  | None | Some EmptyString => ret tt
  | Some name =>
      do trigger <- on_arrangement (get_trigger_by_name name);
      do channel <- on_arrangement (Virtual_Sweep_Context._get_channel 0);
      on_driver (Generator.write
                   (Generator.plain
                      (sour_dc_mark_sst channel (_trigger_context_to_value trigger))))
  end.

(** [dwell_s] is the step time; [delay_s], [backwards] and [stepped]
    are the defaults of [dc_list]: 0, [False] and [False]. *)
Definition _send_list_to_spdac (contact_index : nat) (voltages : list float)
    : M t unit :=
  do channel <- on_arrangement (Virtual_Sweep_Context._get_channel contact_index);
  do dwell_s <- attr Virtual_Sweep_Context._step_time_s;
  do repetitions <- attr Virtual_Sweep_Context._repetitions;
  do dc_list <- on_driver (Generator.dc_list channel voltages repetitions dwell_s
                             0 false false);
  do name <- attr Virtual_Sweep_Context._start_trigger_name;
  do trigger <- on_arrangement (get_trigger_by_name name);
  on_driver (on_context dc_list (Generator.start_on trigger)).

Definition _send_lists_to_spdac : M t unit :=
  do n <- on_arrangement shape;
  for_each (seq 0 n) (λ contact_index,
    do sweep <- attr Virtual_Sweep_Context._sweep;
    do voltages <- lift (ndarray.column sweep contact_index);
    _send_list_to_spdac contact_index voltages).

Definition _make_ready_to_start : M t unit :=
  do n <- on_arrangement shape;
  for_each (seq 0 n) (λ contact_index,
    do channel <- on_arrangement (Virtual_Sweep_Context._get_channel contact_index);
    on_driver (Generator.write (Generator.sour_dc_init channel))).

Definition _ensure_spdac_setup : M t unit :=
  do ready <- attr Virtual_Sweep_Context._spdac_ready;
  if ready then _make_ready_to_start
  else
    do_ _route_inner_trigger;
    do_ _send_lists_to_spdac;
    set_spdac_ready true.

Definition __enter__ : M t unit := _ensure_spdac_setup.

(** [spdac.trigger(trigger)] writes [tint] with the trigger's number. *)
Definition start : M t unit :=
  do_ _ensure_spdac_setup;
  do name <- attr Virtual_Sweep_Context._start_trigger_name;
  do trigger <- on_arrangement (get_trigger_by_name name);
  on_driver (Generator.write (Generator.tint (_trigger_context_to_value trigger))).

(** *** Statement vocabulary *)

(** The session [s] after the commands [cmds] were written. *)
Definition wrote (cmds : list Generator.command) (s : t) : t :=
  {| this := this s; _arrangement := _arrangement s;
     _recorded := if SPDac._record_commands (_spdac (_arrangement s))
                  then _recorded s ++ cmds else _recorded s;
     _sent := _sent s ++ cmds |}.

(** The session [s] once the sweep is set up. *)
Definition ready (s : t) : t := (set_spdac_ready true s).2.

(** What setting up the channel [channel] writes: the ten commands of
    [dc_list] for the voltages, then the start trigger and the
    [init:cont] command of [start_on]. *)
Definition list_program (channel : Z) (voltages : list float)
    (repetitions : option Z) (dwell_s : float) (trigger : Z)
    : list Generator.command :=
  [Generator.sour_dc_trig_sour channel Generator.hold;
   Generator.sour_volt_mode_list channel;
   Generator.sour_list_volt channel voltages;
   Generator.sour_list_tmod channel false;
   Generator.sour_list_dwel channel dwell_s;
   Generator.sour_dc_del channel 0;
   Generator.sour_list_dir channel false;
   Generator.sour_list_coun channel repetitions;
   Generator.sour_dc_trig_sour channel Generator.bus;
   Generator.sour_dc_init_cont channel true;
   Generator.sour_dc_trig_sour channel (Generator.int trigger);
   Generator.sour_dc_init_cont channel true].

(** The values of the contact at position [index], step by step. *)
Definition column_of (rows : list (list float)) (index : nat) : list float :=
  map (λ row, nth index row 0%float) rows.

(** [route] is what [_route_inner_trigger] writes in the session [s]:
    nothing without a step trigger, else the marker command that pairs
    the first channel with the trigger registered under that name. *)
Definition routed (s : t) (route : list Generator.command) : Prop :=
  match Virtual_Sweep_Context._step_trigger (this s) with
  | None | Some EmptyString => route = []
  | Some name =>
      ∃ step channel,
        dict_get name (_internal_triggers (self (_arrangement s))) = Some step ∧
        _channels (self (_arrangement s)) !! 0 = Some channel ∧
        (1 ≤ channel ≤ 4)%Z ∧
        route = [Generator.plain (sour_dc_mark_sst channel (value step))]
  end.

End Sweep_Session.

(** ** More examples *)

Module Example_Session.

(** The session of the sweep [Example.ab_sweep], nothing written yet. *)
Definition ab_sweep : Sweep_Session.t :=
  {| Sweep_Session.this :=
       match Example.ab_sweep.1 with
       | Return ctx => ctx
       | Raise _ =>
           {| Virtual_Sweep_Context._sweep := [];
              Virtual_Sweep_Context._step_trigger := None;
              Virtual_Sweep_Context._step_time_s := 0;
              Virtual_Sweep_Context._repetitions := None;
              Virtual_Sweep_Context._start_trigger_name := "";
              Virtual_Sweep_Context._spdac_ready := false |}
       end;
     Sweep_Session._arrangement := Example.ab_sweep.2;
     Sweep_Session._recorded := [];
     Sweep_Session._sent := [] |}.

(** The same for a sweep of contact ["a"] over no voltages. *)
Definition ab_empty_sweep : Sweep_Session.t :=
  let run := Arrangement_Sweeps.virtual_sweep "a" [] None
               Arrangement_Sweeps.step_time_s_default None (Some 1%Z) "fresh" 0
               Example.ab in
  {| Sweep_Session.this :=
       match run.1 with
       | Return ctx => ctx
       | Raise _ =>
           {| Virtual_Sweep_Context._sweep := [[0%float]];
              Virtual_Sweep_Context._step_trigger := None;
              Virtual_Sweep_Context._step_time_s := 0;
              Virtual_Sweep_Context._repetitions := None;
              Virtual_Sweep_Context._start_trigger_name := "";
              Virtual_Sweep_Context._spdac_ready := true |}
       end;
     Sweep_Session._arrangement := run.2;
     Sweep_Session._recorded := [];
     Sweep_Session._sent := [] |}.

End Example_Session.

(** * Reasoning about computations *)

Section computations.

Context {S : Type}.

Lemma preserves_ret {A X} (f : S → X) (a : A) : preserves f (ret a).
Proof. by intros s. Qed.

Lemma preserves_bind {A B X} (f : S → X) (m : M S A) (k : A → M S B) :
  preserves f m → (∀ a, preserves f (k a)) → preserves f (bind m k).
Proof.
  intros Hm Hk s. unfold bind. specialize (Hm s).
  destruct (m s) as [[a|x] s1]; simpl in *; [|done].
  by rewrite Hk.
Qed.

Lemma preserves_for_each {A X} (f : S → X) (l : list A) (body : A → M S unit) :
  (∀ a, preserves f (body a)) → preserves f (for_each l body).
Proof.
  intros Hbody. induction l as [|a l IH]; simpl.
  - apply preserves_ret.
  - apply preserves_bind; [apply Hbody|]. intros _. apply IH.
Qed.

(** [bind] by the outcome of its first computation. *)
Lemma bind_Return {A B} (m : M S A) (k : A → M S B) a s s' :
  m s = (Return a, s') → bind m k s = k a s'.
Proof. intros H. unfold bind. by rewrite H. Qed.

Lemma bind_Raise {A B} (m : M S A) (k : A → M S B) x s s' :
  m s = (Raise x, s') → bind m k s = (Raise x, s').
Proof. intros H. unfold bind. by rewrite H. Qed.

End computations.

Section arrangement_frames.

Import Arrangement_Context.

Lemma preserves_on_spdac {A X} (f : env → X) (m : M SPDac.t A) :
  (∀ e d, f {| self := self e; _spdac := d |} = f e) →
  preserves f (on_spdac m).
Proof.
  intros H e. unfold on_spdac, zoom. destruct (m (_spdac e)) as [r d]. apply H.
Qed.

Lemma preserves_on_self {X} (f : env → X) (g : t → t) :
  (∀ e, f {| self := g (self e); _spdac := _spdac e |} = f e) →
  preserves f (on_self g).
Proof. intros H e. apply H. Qed.

End arrangement_frames.

(** * The trigger pool *)

Section trigger_pool.

Implicit Types (d : SPDac.t) (s : gset Z) (pick : nat) (n : Z).

Lemma set_pop_empty pick : set_pop pick ∅ = (Raise KeyError, ∅).
Proof. reflexivity. Qed.

Lemma set_pop_member pick s :
  s ≠ ∅ → ∃ n, n ∈ s ∧ set_pop pick s = (Return n, s ∖ {[n]}).
Proof.
  intros Hs. unfold set_pop.
  destruct (elements s) as [|x l] eqn:E.
  - apply elements_empty_inv in E. apply leibniz_equiv in E. done.
  - eexists. split; [|reflexivity].
    apply elem_of_elements. rewrite E.
    apply list_elem_of_In, nth_In, Nat.mod_upper_bound. simpl. lia.
Qed.

Lemma allocate_trigger_empty pick d :
  SPDac._internal_triggers d = ∅ →
  SPDac.allocate_trigger pick d = (Raise ValueError, d).
Proof.
  intros E. unfold SPDac.allocate_trigger, bind, try_except, zoom.
  rewrite E, set_pop_empty. simpl.
  unfold raise. f_equal. destruct d; simpl in *; by subst.
Qed.

Lemma allocate_trigger_member pick d :
  SPDac._internal_triggers d ≠ ∅ →
  ∃ n, n ∈ SPDac._internal_triggers d ∧
       SPDac.allocate_trigger pick d =
         (Return {| value := n |},
          SPDac.set_internal_triggers (SPDac._internal_triggers d ∖ {[n]}) d).
Proof.
  intros Hs. destruct (set_pop_member pick _ Hs) as (n & Hn & E).
  exists n. split; [done|].
  unfold SPDac.allocate_trigger, bind, try_except, zoom. by rewrite E.
Qed.

Lemma free_trigger_eq trigger d :
  SPDac.free_trigger trigger d =
    (Return tt, SPDac.set_internal_triggers
                  (SPDac._internal_triggers d ∪ {[value trigger]}) d).
Proof. reflexivity. Qed.

(** One step of a trace, by cases on what the caller observes. *)
Lemma step_cases o d :
  let s := SPDac._internal_triggers d in
  match Pool.step o d with
  | (Pool.issued n, d') =>
      (∃ pick, o = Pool.allocate pick) ∧ n ∈ s ∧ SPDac._internal_triggers d' = s ∖ {[n]}
  | (Pool.raised e, d') =>
      (∃ pick, o = Pool.allocate pick) ∧ e = ValueError ∧ s = ∅ ∧ d' = d
  | (Pool.freed n, d') =>
      o = Pool.free {| value := n |} ∧ SPDac._internal_triggers d' = s ∪ {[n]}
  end.
Proof.
  destruct o as [pick|[n]]; simpl.
  - destruct (decide (SPDac._internal_triggers d = ∅)) as [E|E].
    + rewrite (allocate_trigger_empty _ _ E). eauto.
    + destruct (allocate_trigger_member pick _ E) as (n & Hn & ->). eauto.
  - split; reflexivity.
Qed.


Lemma events_cons o ops d :
  Pool.events (o :: ops) d = (Pool.step o d).1 :: Pool.events ops (Pool.step o d).2.
Proof.
  unfold Pool.events. cbn [Pool.run]. destruct (Pool.step o d) as [ev d1].
  cbn [snd]. by destruct (Pool.run ops d1).
Qed.

Lemma final_cons o ops d :
  Pool.final (o :: ops) d = Pool.final ops (Pool.step o d).2.
Proof.
  unfold Pool.final. cbn [Pool.run]. destruct (Pool.step o d) as [ev d1].
  cbn [snd]. by destruct (Pool.run ops d1).
Qed.

Lemma events_take k ops d :
  Pool.events (take k ops) d = take k (Pool.events ops d).
Proof.
  revert k d. induction ops as [|o ops IH]; intros [|k] d; try reflexivity.
  simpl take. rewrite !events_cons. simpl. by rewrite IH.
Qed.

(** An id outside the free set is not issued until it has been freed. *)
Lemma not_issued_until_freed ops : ∀ d n j,
  n ∉ SPDac._internal_triggers d →
  Pool.events ops d !! j = Some (Pool.issued n) →
  ∃ k, k < j ∧ Pool.events ops d !! k = Some (Pool.freed n).
Proof.
  induction ops as [|o ops IH]; intros d n j Hn Hj; [done|].
  rewrite events_cons in Hj |- *.
  pose proof (step_cases o d) as Hstep. simpl in Hstep.
  destruct (Pool.step o d) as [ev d1]. simpl in *.
  destruct j as [|j]; simpl in Hj.
  - injection Hj as ->. by destruct Hstep as (_ & Hin & _).
  - destruct (decide (ev = Pool.freed n)) as [->|Hev].
    + exists 0. split; [lia|done].
    + destruct (IH d1 n j) as (k & Hk & Hfreed); [|done|].
      * destruct ev as [m|e|m].
        -- destruct Hstep as (_ & _ & ->). set_solver.
        -- by destruct Hstep as (_ & _ & _ & ->).
        -- destruct Hstep as (_ & ->). set_solver.
      * exists (S k). split; [lia|done].
Qed.

Lemma issued_once_until_freed ops : ∀ d i j n,
  i < j →
  Pool.events ops d !! i = Some (Pool.issued n) →
  Pool.events ops d !! j = Some (Pool.issued n) →
  ∃ k, i < k < j ∧ Pool.events ops d !! k = Some (Pool.freed n).
Proof.
  induction ops as [|o ops IH]; intros d i j n Hij Hi Hj; [done|].
  rewrite events_cons in Hi, Hj |- *.
  pose proof (step_cases o d) as Hstep. simpl in Hstep.
  destruct (Pool.step o d) as [ev d1]. simpl in *.
  destruct j as [|j]; [lia|]. simpl in Hj.
  destruct i as [|i]; simpl in Hi.
  - injection Hi as ->. destruct Hstep as (_ & _ & Hd1).
    destruct (not_issued_until_freed ops d1 n j) as (k & Hk & Hfreed); [|done|].
    + rewrite Hd1. set_solver.
    + exists (S k). split; [lia|done].
  - destruct (IH d1 i j n) as (k & Hk & Hfreed); [lia|done|done|].
    exists (S k). split; [lia|done].
Qed.

Lemma all_triggers_range n :
  n ∈ SPDac.all_triggers ↔ (1 ≤ n ≤ SPDac.n_triggers)%Z.
Proof.
  unfold SPDac.all_triggers. rewrite elem_of_list_to_set, elem_of_seqZ.
  unfold SPDac.n_triggers. lia.
Qed.

(** The free set and the outstanding ids partition the ids of the device. *)
Lemma partition_preserved ops : ∀ d held,
  Forall Pool.trigger_id ops →
  held ## SPDac._internal_triggers d →
  held ∪ SPDac._internal_triggers d = SPDac.all_triggers →
  let held' := Pool.held_after held (Pool.events ops d) in
  held' ## SPDac._internal_triggers (Pool.final ops d) ∧
  held' ∪ SPDac._internal_triggers (Pool.final ops d) = SPDac.all_triggers.
Proof.
  induction ops as [|o ops IH]; intros d held Hops Hdisj Hall; [done|].
  rewrite events_cons, final_cons.
  pose proof (step_cases o d) as Hstep. simpl in Hstep.
  destruct (Pool.step o d) as [ev d1]. simpl.
  apply Forall_cons in Hops as [Ho Hops].
  apply IH; [done| |]; destruct ev as [m|e|m].
  - destruct Hstep as (_ & Hm & ->). set_solver.
  - by destruct Hstep as (_ & _ & _ & ->).
  - destruct Hstep as (_ & ->). set_solver.
  - destruct Hstep as (_ & Hm & ->). rewrite <- Hall.
    apply set_eq. intros x. rewrite !elem_of_union, elem_of_difference, elem_of_singleton.
    destruct (decide (x = m)); [subst|]; tauto.
  - by destruct Hstep as (_ & _ & _ & ->).
  - destruct Hstep as (-> & ->). simpl in Ho.
    apply all_triggers_range in Ho. rewrite <- Hall in Ho |- *.
    apply set_eq. intros x. rewrite !elem_of_union, elem_of_difference, elem_of_singleton.
    rewrite elem_of_union in Ho.
    destruct (decide (x = m)); [subst|]; tauto.
Qed.

Lemma size_all_triggers : size SPDac.all_triggers = 14.
Proof. by vm_compute. Qed.

End trigger_pool.

(** C1.  Starting from the full pool of 14 internal triggers, along every
    sequence of [allocate_trigger] and [free_trigger] calls: an id that was
    issued is not issued again before a [free_trigger] of it; when every
    freed trigger carries a trigger id of the device, at most 14 ids are
    outstanding at any time; and [allocate_trigger] raises [ValueError]
    exactly when the free set is empty, issuing a member of it otherwise. *)
Theorem trigger_pool_allocate_free (ops : list Pool.op) (d : SPDac.t) :
  SPDac._internal_triggers d = SPDac.all_triggers →
  let evs := Pool.events ops d in
  let d' := Pool.final ops d in
  (∀ i j n, i < j →
     evs !! i = Some (Pool.issued n) → evs !! j = Some (Pool.issued n) →
     ∃ k, i < k < j ∧ evs !! k = Some (Pool.freed n)) ∧
  (Forall Pool.trigger_id ops →
     ∀ k, size (Pool.outstanding (take k evs)) ≤ 14) ∧
  (∀ pick, SPDac._internal_triggers d' = ∅ →
     SPDac.allocate_trigger pick d' = (Raise ValueError, d')) ∧
  (∀ pick, SPDac._internal_triggers d' ≠ ∅ →
     ∃ n, n ∈ SPDac._internal_triggers d' ∧
          SPDac.allocate_trigger pick d' =
            (Return {| value := n |},
             SPDac.set_internal_triggers (SPDac._internal_triggers d' ∖ {[n]}) d')).
Proof.
  intros Hfull evs d'. repeat split.
  - intros i j n. apply issued_once_until_freed.
  - intros Hops k. subst evs. rewrite <- events_take.
    destruct (partition_preserved (take k ops) d ∅) as [_ Hall].
    + by apply Forall_take.
    + set_solver.
    + rewrite Hfull. set_solver.
    + rewrite <- size_all_triggers, <- Hall.
      apply subseteq_size. unfold Pool.outstanding. set_solver.
  - intros pick. apply allocate_trigger_empty.
  - intros pick. apply allocate_trigger_member.
Qed.

Lemma trigger_pool_allocate_free_witness :
  let ops := repeat (Pool.allocate 0) 14 ++ [Pool.free {| value := 3 |}] in
  SPDac._internal_triggers SPDac.init = SPDac.all_triggers ∧
  Forall Pool.trigger_id ops ∧
  size (Pool.outstanding (Pool.events ops SPDac.init)) ≤ 14 ∧
  SPDac.allocate_trigger 0 (Pool.final (repeat (Pool.allocate 0) 14) SPDac.init)
    = (Raise ValueError, Pool.final (repeat (Pool.allocate 0) 14) SPDac.init).
Proof.
  intros ops.
  assert (Hops : Forall Pool.trigger_id ops).
  { repeat constructor; vm_compute; discriminate. }
  split; [reflexivity|]. split; [exact Hops|]. split.
  - destruct (trigger_pool_allocate_free ops SPDac.init eq_refl) as (_ & Hb & _).
    specialize (Hb Hops (length ops)). by rewrite firstn_all2 in Hb by (by vm_compute).
  - destruct (trigger_pool_allocate_free (repeat (Pool.allocate 0) 14) SPDac.init eq_refl)
      as (_ & _ & Hc & _).
    apply Hc. by vm_compute.
Defined.

(** C10.  [free_trigger] inserts the id into the free set: freeing an id
    that is free already changes nothing, and freeing twice in a row is
    freeing once; no call raises. *)
Theorem free_trigger_idempotent (trigger : SPDacTrigger_Context) (d : SPDac.t) :
  (∃ d1, SPDac.free_trigger trigger d = (Return tt, d1) ∧
         SPDac.free_trigger trigger d1 = (Return tt, d1)) ∧
  (value trigger ∈ SPDac._internal_triggers d →
     SPDac.free_trigger trigger d = (Return tt, d)).
Proof.
  split.
  - eexists. split; [reflexivity|]. rewrite free_trigger_eq. f_equal.
    unfold SPDac.set_internal_triggers. simpl. f_equal. set_solver.
  - intros Hin. rewrite free_trigger_eq. f_equal.
    destruct d as [s r c l v]. unfold SPDac.set_internal_triggers. simpl in *.
    f_equal. set_solver.
Qed.

Lemma free_trigger_idempotent_witness :
  value {| value := 5 |} ∈ SPDac._internal_triggers SPDac.init ∧
  SPDac.free_trigger {| value := 5 |} SPDac.init = (Return tt, SPDac.init).
Proof.
  assert (H : value {| value := 5 |} ∈ SPDac._internal_triggers SPDac.init).
  { apply all_triggers_range. by vm_compute. }
  split; [exact H|].
  exact (proj2 (free_trigger_idempotent {| value := 5 |} SPDac.init) H).
Defined.

(** * Arrangements: virtual voltages *)

Section virtual_voltages.

Import Arrangement_Context State.

Implicit Types (e : env) (v : list float) (contact : string) (index : nat).

Lemma with_virtual_voltages_id e : with_virtual_voltages (virtual e) e = e.
Proof. by destruct e as [[] ?]. Qed.

Lemma with_virtual_voltages_twice v v' e :
  with_virtual_voltages v (with_virtual_voltages v' e) = with_virtual_voltages v e.
Proof. reflexivity. Qed.

Lemma actual_voltages_eq e : actual_voltages e = (Return (physical e), e).
Proof. reflexivity. Qed.

Lemma physical_eq e :
  physical e =
    let vs := np.matvec (_correction (self e)) (virtual e) in
    if truthy (SPDac._round_off (_spdac e))
    then np.round vs (default 0%Z (SPDac._round_off (_spdac e)))
    else vs.
Proof. reflexivity. Qed.

Lemma _contact_index_Some contact index e :
  _contacts (self e) !! contact = Some index →
  _contact_index contact e = (Return index, e).
Proof. intros H. unfold _contact_index, bind, attr. by rewrite H. Qed.

Lemma _contact_index_None contact e :
  _contacts (self e) !! contact = None →
  _contact_index contact e = (Raise KeyError, e).
Proof. intros H. unfold _contact_index, bind, attr. by rewrite H. Qed.

Lemma store_virtual_voltage_lt index x e :
  index < length (virtual e) →
  store_virtual_voltage index x e
    = (Return tt, with_virtual_voltages (<[index := x]> (virtual e)) e).
Proof.
  intros H. unfold store_virtual_voltage, bind, attr, lift, setitem.
  fold (virtual e). by rewrite decide_True.
Qed.

Lemma store_virtual_voltage_ge index x e :
  length (virtual e) ≤ index →
  store_virtual_voltage index x e = (Raise IndexError, e).
Proof.
  intros H. unfold store_virtual_voltage, bind, attr, lift, setitem.
  fold (virtual e). rewrite decide_False; [done|lia].
Qed.

Lemma virtual_voltage_Some contact index x e :
  _contacts (self e) !! contact = Some index →
  virtual e !! index = Some x →
  virtual_voltage contact e = (Return x, e).
Proof.
  intros Hc Hx. unfold virtual_voltage, bind.
  rewrite (_contact_index_Some _ _ _ Hc). unfold attr, lift, getitem.
  fold (virtual e). by rewrite Hx.
Qed.

End virtual_voltages.

(** C6.  For a name that is not a contact of the arrangement,
    [set_virtual_voltage] raises [ValueError] and leaves the whole state
    as it was: the virtual-voltage vector is unmodified and nothing is
    written to the instrument. *)
Theorem set_virtual_voltage_unknown_contact
    (e : Arrangement_Context.env) (contact : string) (voltage : float) :
  Arrangement_Context._contacts (Arrangement_Context.self e) !! contact = None →
  ∃ e', Arrangement_Context.set_virtual_voltage contact voltage e = (Raise ValueError, e') ∧
        State.virtual e' = State.virtual e ∧
        State.written e' = State.written e ∧
        e' = e.
Proof.
  intros H. exists e. split; [|done].
  unfold Arrangement_Context.set_virtual_voltage, bind, try_except.
  by rewrite (_contact_index_None _ _ H).
Qed.

Lemma set_virtual_voltage_unknown_contact_witness :
  Arrangement_Context._contacts (Arrangement_Context.self Example.ab) !! "missing" = None ∧
  ∃ e', Arrangement_Context.set_virtual_voltage "missing" 1%float Example.ab
          = (Raise ValueError, e') ∧
        State.virtual e' = State.virtual Example.ab ∧
        State.written e' = State.written Example.ab ∧
        e' = Example.ab.
Proof.
  assert (H : Arrangement_Context._contacts (Arrangement_Context.self Example.ab)
                !! "missing" = None) by (by vm_compute).
  split; [exact H|].
  exact (set_virtual_voltage_unknown_contact Example.ab "missing" 1%float H).
Defined.

(** * One-dimensional sweeps *)

Section sweep_1d.

Import Arrangement_Context State.

Implicit Types (e : env) (v w : list float) (index : nat).

(** The loop of [_calculate_1d_values]: every row is computed with the
    swept entry set in the vector the loop started from. *)
Lemma sweep_loop e index w0 voltages : ∀ w,
  index < length w0 →
  length w = length w0 →
  (∀ x, <[index := x]> w = <[index := x]> w0) →
  ∃ w', length w' = length w0 ∧
        (∀ x, <[index := x]> w' = <[index := x]> w0) ∧
        comprehension voltages
          (λ x, do_ store_virtual_voltage index x; actual_voltages)
          (with_virtual_voltages w e)
        = (Return (map (λ x, physical (with_virtual_voltages (<[index := x]> w0) e))
                       voltages),
           with_virtual_voltages w' e).
Proof.
  induction voltages as [|x voltages IH]; intros w Hi Hlen Hw.
  - exists w. by repeat split.
  - destruct (IH (<[index := x]> w0)) as (w' & Hlen' & Hw' & Hrun).
    + done.
    + by rewrite length_insert.
    + intros y. by rewrite list_insert_insert_eq.
    + exists w'. repeat split; [done..|].
      cbn [comprehension].
      erewrite bind_Return; last first.
      { erewrite bind_Return; last first.
        { apply store_virtual_voltage_lt. cbn. lia. }
        cbn [virtual with_virtual_voltages self set_virtual_voltages_attr
             _virtual_voltages].
        rewrite Hw. apply actual_voltages_eq. }
      rewrite with_virtual_voltages_twice.
      erewrite bind_Return; [|exact Hrun]. reflexivity.
Qed.

Lemma _calculate_1d_values_Return contact voltages index e :
  _contacts (self e) !! contact = Some index →
  index < length (virtual e) →
  _calculate_1d_values contact voltages e
    = (Return (map (λ x, physical (with_virtual_voltages (<[index := x]> (virtual e)) e))
                   voltages), e).
Proof.
  intros Hc Hi. destruct (lookup_lt_is_Some_2 _ _ Hi) as [x0 Hx0].
  unfold _calculate_1d_values.
  erewrite bind_Return; [|by eapply virtual_voltage_Some].
  erewrite bind_Return; [|by apply _contact_index_Some].
  destruct (sweep_loop e index (virtual e) voltages (virtual e))
    as (w' & Hlen' & Hw' & Hrun); [done..|].
  rewrite with_virtual_voltages_id in Hrun.
  erewrite bind_Return; [|exact Hrun].
  erewrite bind_Return; last first.
  { apply store_virtual_voltage_lt. cbn. lia. }
  cbn [virtual with_virtual_voltages self set_virtual_voltages_attr _virtual_voltages].
  rewrite with_virtual_voltages_twice, Hw', list_insert_id by done.
  by rewrite with_virtual_voltages_id.
Qed.

(** Whatever its outcome, [_calculate_1d_values] ends in the state it
    started from. *)
Lemma _calculate_1d_values_state contact voltages e :
  (_calculate_1d_values contact voltages e).2 = e.
Proof.
  destruct (_contacts (self e) !! contact) as [index|] eqn:Hc.
  - destruct (decide (index < length (virtual e))) as [Hi|Hi].
    + by rewrite (_calculate_1d_values_Return _ _ _ _ Hc Hi).
    + unfold _calculate_1d_values.
      erewrite bind_Raise; [done|].
      unfold virtual_voltage.
      erewrite bind_Return; [|by apply _contact_index_Some].
      unfold bind, attr, lift, getitem. fold (virtual e).
      rewrite lookup_ge_None_2; [done|lia].
  - unfold _calculate_1d_values.
    erewrite bind_Raise; [done|].
    unfold virtual_voltage. erewrite bind_Raise; [done|].
    by apply _contact_index_None.
Qed.

Lemma _allocate_internal_triggers_virtual names picks :
  preserves virtual (_allocate_internal_triggers names picks).
Proof.
  unfold _allocate_internal_triggers.
  destruct names as [[|name names]|]; try apply preserves_ret.
  apply preserves_for_each. intros [n pick].
  apply preserves_bind; [by apply preserves_on_spdac|].
  intros trigger. by apply preserves_on_self.
Qed.

Lemma Virtual_Sweep_Context_init_virtual sweep start step_time_s step_trigger
    repetitions fresh pick :
  preserves virtual
    (Virtual_Sweep_Context.__init__ sweep start step_time_s step_trigger
       repetitions fresh pick).
Proof.
  unfold Virtual_Sweep_Context.__init__, Virtual_Sweep_Context._allocate_triggers.
  apply preserves_bind; [|intros; apply preserves_ret].
  apply preserves_bind; [|intros; apply preserves_ret].
  apply _allocate_internal_triggers_virtual.
Qed.

End sweep_1d.

(** C5.  Building a one-dimensional sweep leaves the virtual-voltage
    vector as it was.  [_calculate_1d_values] ends in the very state it
    started from, for any contact and any list of values; [virtual_sweep],
    which goes on to allocate the start trigger, ends with the same
    virtual-voltage vector.  For a contact of the arrangement the program
    has one row per value: the physical voltages with that contact's
    virtual voltage set to the value and every other one as before. *)
Theorem build_1d_sweep_restores_virtual_voltages
    (e : Arrangement_Context.env) (contact : string) (voltages : list float)
    (start_sweep_trigger : option string) (step_time_s : float)
    (step_trigger : option string) (repetitions : option Z)
    (fresh : string) (pick : nat) :
  (Arrangement_Context._calculate_1d_values contact voltages e).2 = e ∧
  State.virtual
    (Arrangement_Sweeps.virtual_sweep contact voltages start_sweep_trigger
       step_time_s step_trigger repetitions fresh pick e).2 = State.virtual e ∧
  (∀ index,
     Arrangement_Context._contacts (Arrangement_Context.self e) !! contact = Some index →
     index < length (State.virtual e) →
     (Arrangement_Context._calculate_1d_values contact voltages e).1
       = Return (map (λ x, State.physical
                             (State.with_virtual_voltages
                                (<[index := x]> (State.virtual e)) e))
                     voltages)).
Proof.
  split; [apply _calculate_1d_values_state|]. split.
  - unfold Arrangement_Sweeps.virtual_sweep.
    pose proof (_calculate_1d_values_state contact voltages e) as Hstate.
    unfold bind.
    destruct (Arrangement_Context._calculate_1d_values contact voltages e)
      as [[sweep|x] e1]; simpl in Hstate; subst e1; [|done].
    apply Virtual_Sweep_Context_init_virtual.
  - intros index Hc Hi. by rewrite (_calculate_1d_values_Return _ _ _ _ Hc Hi).
Qed.

Lemma build_1d_sweep_restores_virtual_voltages_witness :
  let e := (Arrangement_Context.set_virtual_voltages
              [("a", 0.25%float); ("b", 0.75%float)] Example.ab).2 in
  Arrangement_Context._contacts (Arrangement_Context.self e) !! "b" = Some 1 ∧
  1 < length (State.virtual e) ∧
  State.virtual e = [0.25; 0.75]%float ∧
  (Arrangement_Context._calculate_1d_values "b" [1; 2; 3]%float e).1
    = Return [[0.25; 1]; [0.25; 2]; [0.25; 3]]%float.
Proof.
  intros e.
  assert (Hc : Arrangement_Context._contacts (Arrangement_Context.self e) !! "b" = Some 1)
    by (by vm_compute).
  assert (Hi : 1 < length (State.virtual e)) by (vm_compute; lia).
  split; [exact Hc|]. split; [exact Hi|]. split; [by vm_compute|].
  destruct (build_1d_sweep_restores_virtual_voltages e "b" [1; 2; 3]%float
              None 1%float None None "" 0) as (_ & _ & Hrows).
  rewrite (Hrows 1 Hc Hi). by vm_compute.
Defined.

(** * Setting several virtual voltages *)

Section set_voltages.

Import Arrangement_Context State.

Implicit Types (e : env) (v : list float) (index : nat).

Lemma only_written_refl e : only_written e e.
Proof. by repeat split. Qed.

Lemma only_written_trans e1 e2 e3 :
  only_written e1 e2 → only_written e2 e3 → only_written e1 e3.
Proof.
  intros (? & ? & ? & ?) (? & ? & ? & ?). repeat split; congruence.
Qed.

Lemma only_written_physical e e' : only_written e e' → physical e' = physical e.
Proof.
  intros (Hs & _ & Hr & _). rewrite !physical_eq. unfold virtual.
  by rewrite Hs, Hr.
Qed.

(** [dc_constant_V] writes the two commands of the channel, or raises
    [ValueError] and writes nothing. *)
Lemma dc_constant_V_written channum x e :
  ∃ r e', on_spdac (SPDacChannel.dc_constant_V channum x) e = (r, e') ∧
          only_written e e' ∧
          ((r = Return tt ∧
            written e' = written e ++ [sour_volt_mode_fix channum; sour_volt channum x])
           ∨ (r = Raise ValueError ∧ e' = e)).
Proof.
  unfold SPDacChannel.dc_constant_V.
  destruct (_ && _).
  - eexists _, _. split; [reflexivity|]. split; [by repeat split|]. left.
    split; [done|]. unfold written. simpl. by rewrite <- app_assoc.
  - exists (Raise ValueError), e. split; [by destruct e|].
    split; [apply only_written_refl|]. by right.
Qed.

(** The loop of [_effectuate_virtual_voltages], from the channel at
    position [off] on. *)
Lemma effectuate_loop (body := λ '(index, channel_number),
      do vs <- actual_voltages;
      do actual_V <- lift (getitem index vs);
      do ch <- on_spdac (SPDac.channel channel_number);
      on_spdac (SPDacChannel.dc_constant_V ch actual_V)) channels : ∀ off e,
  ∃ r e' k,
    for_each (imap (λ index channel_number, (off + index, channel_number)) channels)
             body e = (r, e') ∧
    only_written e e' ∧
    written e' = written e ++ voltage_writes (take k channels) (drop off (physical e)) ∧
    (r = Return tt →
       k = length channels ∧
       (channels = [] ∨ off + length channels ≤ length (physical e))).
Proof.
  induction channels as [|c channels IH]; intros off e.
  { exists (Return tt), e, 0. split; [done|]. split; [apply only_written_refl|].
    split; [by rewrite app_nil_r|]. intros _. split; [done|by left]. }
  assert (Hstop : ∀ x, body (off + 0, c) e = (Raise x, e) →
    ∃ r e' k,
      for_each (imap (λ index channel_number, (off + index, channel_number))
                     (c :: channels)) body e = (r, e') ∧
      only_written e e' ∧
      written e' = written e ++ voltage_writes (take k (c :: channels))
                                               (drop off (physical e)) ∧
      (r = Return tt →
         k = length (c :: channels) ∧
         (c :: channels = [] ∨ off + length (c :: channels) ≤ length (physical e)))).
  { intros x Hx. exists (Raise x), e, 0. split.
    - cbn [imap for_each]. by erewrite bind_Raise.
    - split; [apply only_written_refl|]. split; [by rewrite app_nil_r|done]. }
  destruct (physical e !! off) as [x|] eqn:Hoff; last first.
  { apply (Hstop IndexError). unfold body.
    rewrite Nat.add_0_r. erewrite bind_Return; [|apply actual_voltages_eq].
    unfold bind, lift, getitem. by rewrite Hoff. }
  assert (Hget : (do vs <- actual_voltages; lift (getitem off vs)) e = (Return x, e)).
  { erewrite bind_Return; [|apply actual_voltages_eq].
    unfold lift, getitem. by rewrite Hoff. }
  destruct (decide (1 ≤ c ≤ 4)%Z) as [Hc|Hc]; last first.
  { apply (Hstop AttributeError). unfold body.
    rewrite Nat.add_0_r. erewrite bind_Return; [|apply actual_voltages_eq].
    unfold bind, lift, getitem. rewrite Hoff.
    unfold on_spdac, zoom, SPDac.channel. rewrite decide_False by done.
    unfold raise. by destruct e. }
  assert (Hbody : body (off + 0, c) e = on_spdac (SPDacChannel.dc_constant_V c x) e).
  { unfold body. rewrite Nat.add_0_r.
    erewrite bind_Return; [|apply actual_voltages_eq].
    unfold bind at 1, lift, getitem. rewrite Hoff.
    unfold bind, on_spdac at 1, zoom, SPDac.channel. rewrite decide_True by done.
    unfold ret. by destruct e. }
  destruct (dc_constant_V_written c x e) as (r1 & e1 & Hrun1 & Hframe1 & Hcase).
  destruct Hcase as [[-> Hw1]|[-> ->]]; last first.
  { apply (Hstop ValueError). by rewrite Hbody, Hrun1. }
  destruct (IH (S off) e1) as (r & e' & k & Hrun & Hframe & Hw & Hret).
  exists r, e', (S k). split.
  { cbn [imap for_each]. erewrite bind_Return; [|by rewrite Hbody].
    rewrite <- Hrun. f_equal. apply imap_ext. intros i y _. simpl. f_equal. lia. }
  split; [by eapply only_written_trans|].
  rewrite (only_written_physical _ _ Hframe1) in Hw, Hret.
  split.
  - rewrite Hw, Hw1, <- app_assoc. f_equal.
    rewrite (drop_S _ _ _ Hoff). reflexivity.
  - intros Hr. destruct (Hret Hr) as [-> Hlen]. split; [done|]. right.
    apply lookup_lt_Some in Hoff. simpl.
    destruct Hlen as [->|Hlen]; simpl; lia.
Qed.

Lemma _effectuate_virtual_voltages_written e :
  ∃ r e' k,
    _effectuate_virtual_voltages e = (r, e') ∧
    only_written e e' ∧
    written e' = written e ++ voltage_writes (take k (_channels (self e))) (physical e) ∧
    (r = Return tt →
       k = length (_channels (self e)) ∧
       length (_channels (self e)) ≤ length (physical e)).
Proof.
  destruct (effectuate_loop (_channels (self e)) 0 e)
    as (r & e' & k & Hrun & Hframe & Hw & Hret).
  exists r, e', k. split; [exact Hrun|]. split; [done|]. split; [done|].
  intros Hr. destruct (Hret Hr) as [-> Hlen]. split; [done|].
  destruct Hlen as [->|Hlen]; simpl in *; lia.
Qed.

(** The loop of [set_virtual_voltages] touches the virtual-voltage
    vector only. *)
Lemma assign_loop contacts_to_voltages : ∀ e,
  ∃ r v,
    for_each contacts_to_voltages (λ '(contact, voltage),
        do index <- try_except (_contact_index contact) KeyError (raise ValueError);
        store_virtual_voltage index voltage) e
      = (r, with_virtual_voltages v e) ∧
    length v = length (virtual e) ∧
    (r = Return tt →
       v = assigned (_contacts (self e)) contacts_to_voltages (virtual e) ∧
       Forall (λ cv, is_Some (_contacts (self e) !! cv.1)) contacts_to_voltages).
Proof.
  induction contacts_to_voltages as [|[contact voltage] m IH]; intros e.
  { exists (Return tt), (virtual e). rewrite with_virtual_voltages_id.
    repeat split; done. }
  cbn [for_each].
  destruct (_contacts (self e) !! contact) as [index|] eqn:Hc; last first.
  { exists (Raise ValueError), (virtual e). rewrite with_virtual_voltages_id.
    split; [|done]. erewrite bind_Raise; [done|]. erewrite bind_Raise; [done|].
    unfold try_except. by rewrite (_contact_index_None _ _ Hc). }
  assert (Hidx : try_except (_contact_index contact) KeyError (raise ValueError) e
                 = (Return index, e)).
  { unfold try_except. by rewrite (_contact_index_Some _ _ _ Hc). }
  destruct (decide (index < length (virtual e))) as [Hi|Hi]; last first.
  { exists (Raise IndexError), (virtual e). rewrite with_virtual_voltages_id.
    split; [|done]. erewrite bind_Raise; [done|]. erewrite bind_Return; [|exact Hidx].
    apply store_virtual_voltage_ge. lia. }
  destruct (IH (with_virtual_voltages (<[index := voltage]> (virtual e)) e))
    as (r & v & Hrun & Hlen & Hret).
  exists r, v. split.
  { erewrite bind_Return; last first.
    { erewrite bind_Return; [|exact Hidx]. by apply store_virtual_voltage_lt. }
    exact Hrun. }
  split.
  { rewrite Hlen. cbn. by rewrite length_insert. }
  intros Hr. destruct (Hret Hr) as [-> Hall]. cbn. rewrite Hc. split; [done|].
  constructor; [cbn; by rewrite Hc|exact Hall].
Qed.

End set_voltages.

(** C2.  [set_virtual_voltages] assigns every named contact before it
    writes anything.  Whatever the outcome, each command it writes is one
    of the pair [sour:volt:mode ch,fix], [sour:volt ch,v] of a leading
    segment of the channels, with [v] the physical voltage of the final
    virtual-voltage vector, so no write reflects an intermediate state; a
    name that is not a contact makes the call raise before any write.  On
    success the vector is the old one with all assignments made, and
    exactly one voltage is written per channel: the physical voltages of
    the new vector, which are the correction matrix times that vector
    (rounded when a rounding precision is in force). *)
Theorem set_virtual_voltages_atomic
    (e : Arrangement_Context.env) (contacts_to_voltages : list (string * float)) :
  let channels := Arrangement_Context._channels (Arrangement_Context.self e) in
  let contacts := Arrangement_Context._contacts (Arrangement_Context.self e) in
  ∃ r e' k,
    Arrangement_Context.set_virtual_voltages contacts_to_voltages e = (r, e') ∧
    State.only_written (State.with_virtual_voltages (State.virtual e') e) e' ∧
    State.written e'
      = State.written e ++ State.voltage_writes (take k channels) (State.physical e') ∧
    (Exists (λ cv, contacts !! cv.1 = None) contacts_to_voltages →
       r ≠ Return tt ∧ State.written e' = State.written e) ∧
    (r = Return tt →
       State.virtual e' = State.assigned contacts contacts_to_voltages (State.virtual e) ∧
       length channels ≤ length (State.physical e') ∧
       State.written e'
         = State.written e ++ State.voltage_writes channels (State.physical e') ∧
       (Arrangement_Context.truthy (SPDac._round_off (Arrangement_Context._spdac e)) = false →
          State.physical e'
            = np.matvec (Arrangement_Context._correction (Arrangement_Context.self e))
                        (State.virtual e'))).
Proof.
  intros channels contacts. unfold Arrangement_Context.set_virtual_voltages.
  destruct (assign_loop contacts_to_voltages e) as (r1 & v & Hrun1 & Hlen & Hret1).
  destruct r1 as [[]|x].
  - destruct (Hret1 eq_refl) as [Hv Hknown].
    destruct (_effectuate_virtual_voltages_written (State.with_virtual_voltages v e))
      as (r & e' & k & Hrun & Hframe & Hw & Hret).
    assert (Hvirtual : State.virtual e' = v).
    { destruct Hframe as (Hs & _). unfold State.virtual. by rewrite Hs. }
    pose proof (only_written_physical _ _ Hframe) as Hphys.
    exists r, e', k. split; [by erewrite bind_Return|].
    split; [by rewrite Hvirtual|]. rewrite Hphys.
    split; [exact Hw|]. split.
    { intros Hex. exfalso. apply Exists_exists in Hex as (cv & Hin & Hnone).
      rewrite Forall_forall in Hknown. destruct (Hknown cv Hin) as [? Hsome].
      unfold contacts in Hnone. rewrite Hnone in Hsome. discriminate. }
    intros Hr. destruct (Hret Hr) as [-> Hchannels].
    split; [rewrite Hvirtual; exact Hv|]. split; [exact Hchannels|]. split.
    { rewrite Hw. by rewrite firstn_all. }
    intros Hround. rewrite physical_eq. cbn -[np.matvec]. by rewrite Hround, Hvirtual.
  - exists (Raise x), (State.with_virtual_voltages v e), 0.
    split; [by erewrite bind_Raise|]. split; [apply only_written_refl|].
    split; [by rewrite app_nil_r|]. split; [done|done].
Qed.

Lemma set_virtual_voltages_atomic_witness :
  (let run := Arrangement_Context.set_virtual_voltages
                [("a", 1%float); ("b", 2%float)] Example.ab_corrected in
   run.1 = Return tt ∧
   State.virtual run.2 = [1; 2]%float ∧
   State.written run.2
     = [sour_volt_mode_fix 1; sour_volt 1 2; sour_volt_mode_fix 2; sour_volt 2 2]) ∧
  (let run := Arrangement_Context.set_virtual_voltages
                [("a", 1%float); ("c", 2%float)] Example.ab_corrected in
   run.1 ≠ Return tt ∧ State.written run.2 = []).
Proof.
  split.
  - destruct (set_virtual_voltages_atomic Example.ab_corrected
                [("a", 1%float); ("b", 2%float)])
      as (r & e' & k & Hrun & _ & _ & _ & Hret).
    intros run. subst run. rewrite Hrun. cbn [fst snd].
    assert (Hr : r = Return tt).
    { apply (f_equal fst) in Hrun. cbn [fst] in Hrun. rewrite <- Hrun. by vm_compute. }
    assert (He : e' = (Arrangement_Context.set_virtual_voltages
                         [("a", 1%float); ("b", 2%float)] Example.ab_corrected).2)
      by (by rewrite Hrun).
    destruct (Hret Hr) as (Hv & _ & Hw & _).
    split; [exact Hr|]. split.
    + rewrite Hv. by vm_compute.
    + rewrite Hw, He. by vm_compute.
  - destruct (set_virtual_voltages_atomic Example.ab_corrected
                [("a", 1%float); ("c", 2%float)])
      as (r & e' & k & Hrun & _ & _ & Hunknown & _).
    intros run. subst run. rewrite Hrun. cbn [fst snd].
    destruct Hunknown as [Hr Hw]; [|by split].
    apply Exists_cons_tl, Exists_cons_hd. by vm_compute.
Defined.

(** * The correction matrix *)

Section matrices.

Implicit Types (m a b : list (list float)) (v row : list float) (n r c : nat).

Lemma identity_length n : length (np.identity n) = n.
Proof. unfold np.identity. by rewrite length_map, length_seq. Qed.

Lemma identity_lookup n r :
  r < n →
  np.identity n !! r
    = Some (map (λ j, if Nat.eqb r j then 1%float else 0%float) (seq 0 n)).
Proof.
  intros Hr. unfold np.identity. rewrite list_lookup_fmap.
  by rewrite lookup_seq_lt.
Qed.

Lemma identity_rows n : Forall (λ row, length row = n) (np.identity n).
Proof.
  unfold np.identity. apply Forall_fmap, Forall_forall. intros i _. simpl.
  by rewrite length_map, length_seq.
Qed.

Lemma identity_entry n r c :
  r < n → c < n →
  np.entry (np.identity n) r c = Some (if decide (r = c) then 1%float else 0%float).
Proof.
  intros Hr Hc. unfold np.entry. rewrite identity_lookup by done.
  rewrite list_lookup_fmap, lookup_seq_lt by done. simpl.
  destruct (Nat.eqb_spec r c); by case_decide.
Qed.

Lemma fold_left_pointwise {A B} (f g : A → B → A) (l : list B) :
  (∀ acc x, x ∈ l → f acc x = g acc x) →
  ∀ acc, fold_left f l acc = fold_left g l acc.
Proof.
  induction l as [|x l IH]; intros Hfg acc; [done|].
  simpl. rewrite Hfg by set_solver. apply IH. intros. apply Hfg. set_solver.
Qed.

(** The inner product as a sum over the positions. *)
Lemma dot_sum (f g : nat → float) n :
  np.dot (map f (seq 0 n)) (map g (seq 0 n))
    = fold_left (λ acc j, (acc + f j * g j)%float) (seq 0 n) 0%float.
Proof.
  unfold np.dot. generalize 0%float as acc. generalize 0 as off.
  induction n as [|n IH]; intros off acc; [done|].
  simpl. apply IH.
Qed.

Lemma list_as_map {A} (d : A) (row : list A) n :
  length row = n → row = map (λ j, nth j row d) (seq 0 n).
Proof.
  intros <-. apply list_eq. intros i.
  rewrite list_lookup_fmap.
  destruct (decide (i < length row)) as [Hi|Hi].
  - rewrite lookup_seq_lt by done. simpl.
    destruct (lookup_lt_is_Some_2 _ _ Hi) as [x Hx]. rewrite Hx.
    f_equal. symmetry. by apply nth_lookup_Some with (d := d).
  - rewrite lookup_seq_ge by lia. apply lookup_ge_None_2. lia.
Qed.

Lemma column_as_map m n c :
  length m = n → np.column c m = map (λ j, nth c (nth j m []) 0%float) (seq 0 n).
Proof.
  intros Hn. unfold np.column.
  rewrite (list_as_map [] m n Hn) at 1. by rewrite map_map.
Qed.

Lemma entries_nth m r c :
  State.entries m r c = nth c (nth r m []) 0%float.
Proof.
  unfold State.entries, np.entry.
  destruct (m !! r) as [row|] eqn:Hr.
  - rewrite (nth_lookup_Some _ _ _ _ Hr).
    destruct (row !! c) as [x|] eqn:Hc.
    + by rewrite (nth_lookup_Some _ _ _ _ Hc).
    + simpl. symmetry. apply nth_overflow. by apply lookup_ge_None.
  - rewrite (nth_overflow m) by (by apply lookup_ge_None). simpl.
    by destruct c.
Qed.

Lemma matmul_length a b : length (np.matmul a b) = length a.
Proof. unfold np.matmul. by rewrite length_map. Qed.

Lemma matmul_rows a b : Forall (λ row, length row = np.ncols b) (np.matmul a b).
Proof.
  unfold np.matmul. apply Forall_fmap, Forall_forall. intros row _. simpl.
  by rewrite length_map, length_seq.
Qed.

Lemma ncols_square m n :
  length m = n → Forall (λ row, length row = n) m → np.ncols m = n.
Proof.
  intros Hlen Hrows. destruct m as [|row m]; [done|]. by inversion Hrows.
Qed.

(** An entry of [np.matmul a b] for [n] by [n] matrices. *)
Lemma matmul_entry n a b r c :
  length a = n → Forall (λ row, length row = n) a →
  length b = n → Forall (λ row, length row = n) b →
  r < n → c < n →
  np.entry (np.matmul a b) r c
    = Some (State.product_entry n (State.entries a) (State.entries b) r c).
Proof.
  intros Ha Hrows Hb Hcols Hr Hc.
  pose proof (ncols_square b n Hb Hcols) as Hncols.
  destruct (lookup_lt_is_Some_2 a r) as [row Hrow]; [lia|].
  unfold np.entry, np.matmul. rewrite list_lookup_fmap, Hrow. simpl.
  rewrite list_lookup_fmap, Hncols, lookup_seq_lt by done. simpl. f_equal.
  assert (Hlen : length row = n).
  { rewrite Forall_forall in Hrows. apply Hrows. by eapply list_elem_of_lookup_2. }
  rewrite (list_as_map 0%float row n Hlen), (column_as_map b n c Hb), dot_sum.
  unfold State.product_entry. apply fold_left_pointwise. intros acc j _.
  by rewrite !entries_nth, (nth_lookup_Some _ _ _ _ Hrow).
Qed.

End matrices.

(** ** Construction *)

Section construction.

Import Arrangement_Context State.

Implicit Types (e : env) (contacts : list (string * Z)).

(** The loop of [_fix_contact_order]. *)
Lemma fix_contact_order_loop contacts : ∀ names (cs : gmap string nat) chans index,
  NoDup contacts.*1 →
  (∀ contact, contact ∈ contacts.*1 → cs !! contact = None) →
  ∃ cs',
    fold_left (λ '(names, cs, chans, index) '(contact, channel),
                 (names ++ [contact], <[contact := index]> cs,
                  chans ++ [channel], S index))
              contacts (names, cs, chans, index)
      = (names ++ contacts.*1, cs', chans ++ contacts.*2, index + length contacts) ∧
    size cs' = size cs + length contacts ∧
    (∀ contact i, cs' !! contact = Some i →
       cs !! contact = Some i ∨ index ≤ i < index + length contacts).
Proof.
  induction contacts as [|[contact channel] contacts IH];
    intros names cs chans index Hnodup Hfresh.
  { exists cs. simpl. rewrite !app_nil_r, !Nat.add_0_r. split; [done|]. eauto. }
  apply NoDup_cons in Hnodup as [Hnotin Hnodup].
  destruct (IH (names ++ [contact]) (<[contact := index]> cs) (chans ++ [channel])
               (S index) Hnodup)
    as (cs' & Hfold & Hsize & Hindex).
  { intros c Hc. rewrite lookup_insert_ne; [|set_solver].
    apply Hfresh. set_solver. }
  exists cs'. simpl. rewrite Hfold, <- !app_assoc. simpl.
  split; [do 3 f_equal; lia|]. split.
  - rewrite Hsize, map_size_insert_None; [lia|]. apply Hfresh. set_solver.
  - intros c i Hci. destruct (Hindex c i Hci) as [Hold|Hnew]; [|right; lia].
    destruct (decide (contact = c)) as [->|Hne].
    + rewrite lookup_insert_eq in Hold. injection Hold as <-. right. lia.
    + rewrite lookup_insert_ne in Hold by done. by left.
Qed.

Lemma _allocate_triggers_contacts internal_triggers output_triggers picks :
  preserves (λ e, (_contact_names (self e), _contacts (self e), _channels (self e),
                   _virtual_voltages (self e)))
    (_allocate_triggers internal_triggers output_triggers picks).
Proof.
  unfold _allocate_triggers.
  apply preserves_bind; [by apply preserves_on_self|]. intros _.
  apply preserves_bind.
  { unfold _allocate_internal_triggers.
    destruct internal_triggers as [[|name names]|]; try apply preserves_ret.
    apply preserves_for_each. intros [n pick].
    apply preserves_bind; [by apply preserves_on_spdac|].
    intros trigger. by apply preserves_on_self. }
  intros _. unfold _allocate_external_triggers.
  apply preserves_bind; [by apply preserves_on_self|]. intros _.
  destruct output_triggers as [[|item items]|]; try apply preserves_ret.
  apply preserves_for_each. intros [[name port] pick].
  apply preserves_bind; [by apply preserves_on_self|]. intros _.
  apply preserves_bind; [by apply preserves_on_spdac|]. intros trigger.
  apply preserves_bind; [by apply preserves_on_spdac|]. intros _.
  by apply preserves_on_self.
Qed.

(** What [__init__] builds from a [contacts] dict: the names and channels
    in order, all virtual voltages [0.0], the identity as correction
    matrix. *)
Lemma init_Return contacts output_triggers internal_triggers outer picks d a d' :
  NoDup contacts.*1 →
  __init__ contacts output_triggers internal_triggers outer picks d = (Return a, d') →
  _contact_names a = contacts.*1 ∧
  _channels a = contacts.*2 ∧
  _virtual_voltages a = np.zeros (length contacts) ∧
  _correction a = np.identity (length contacts) ∧
  size (_contacts a) = length contacts ∧
  (∀ contact i, _contacts a !! contact = Some i → i < length contacts).
Proof.
  intros Hnodup. unfold __init__.
  destruct (fix_contact_order_loop contacts [] ∅ [] 0 Hnodup) as (cs & Hfold & Hsize & Hindex).
  { intros. apply lookup_empty. }
  rewrite map_size_empty in Hsize. simpl in Hsize, Hfold.
  set (e0 := {| self := blank; _spdac := d |}).
  unfold bind at 1. unfold _fix_contact_order. rewrite Hfold.
  unfold on_self at 1, modify.
  match goal with |- context [bind _ _ ?s] => set (e1 := s) end.
  pose proof (_allocate_triggers_contacts internal_triggers output_triggers picks e1)
    as Hkeep.
  unfold bind at 1.
  destruct (_allocate_triggers internal_triggers output_triggers picks e1)
    as [[[]|x] e2]; [|discriminate].
  simpl in Hkeep. injection Hkeep as Hn Hc Hch Hv.
  intros Hret. cbn in Hret. injection Hret as <- <-. cbn.
  rewrite Hn, Hc, Hch, Hv, Hsize.
  repeat split; try done.
  intros contact i Hci. destruct (Hindex contact i Hci) as [Hempty|Hi]; [|lia].
  by rewrite lookup_empty in Hempty.
Qed.

Lemma init_well_formed contacts output_triggers internal_triggers outer picks d a d' :
  NoDup contacts.*1 →
  __init__ contacts output_triggers internal_triggers outer picks d = (Return a, d') →
  well_formed a.
Proof.
  intros Hnodup Hinit.
  destruct (init_Return _ _ _ _ _ _ _ _ Hnodup Hinit)
    as (_ & Hch & Hv & Hc & Hsize & Hindex).
  unfold well_formed. rewrite Hsize, Hv, Hch, Hc.
  split; [apply repeat_length|]. split; [by rewrite length_fmap|].
  split; [apply identity_length|]. split; [apply identity_rows|done].
Qed.

End construction.

Section add_correction.

Import Arrangement_Context State.

Lemma perturbation_entry n index factors r c :
  index < n → length factors = n → r < n → c < n →
  np.entry (<[index := factors]> (np.identity n)) r c
    = Some (perturbation index factors r c).
Proof.
  intros Hi Hlen Hr Hc. unfold np.entry, perturbation.
  destruct (decide (r = index)) as [->|Hne].
  - rewrite list_lookup_insert_eq by (by rewrite identity_length).
    destruct (lookup_lt_is_Some_2 factors c) as [x Hx]; [lia|].
    rewrite Hx. f_equal. symmetry. by apply nth_lookup_Some with (d := 0%float).
  - rewrite list_lookup_insert_ne by done. by apply identity_entry.
Qed.

Lemma example_well_formed contacts output_triggers internal_triggers a d :
  NoDup contacts.*1 →
  __init__ contacts output_triggers internal_triggers None [] SPDac.init = (Return a, d) →
  well_formed (self (Example.arrange contacts output_triggers internal_triggers)).
Proof.
  intros Hnodup Hinit. unfold Example.arrange. rewrite Hinit.
  by eapply init_well_formed.
Qed.

Lemma ab_well_formed : well_formed (self Example.ab).
Proof.
  eapply example_well_formed; [|by vm_compute].
  apply NoDup_ListNoDup. repeat constructor; simpl; intuition discriminate.
Qed.

End add_correction.

(** C3.  For a contact of the arrangement and as many factors as there
    are contacts, [add_correction] returns and replaces the correction
    matrix [M] by [P · M], where [P] is the identity matrix with the row
    of the contact replaced by the factors; entry by entry the new matrix
    is the sum over [j] of [P r j * M j c].  Nothing else in the state
    changes, and the matrix keeps its shape. *)
Theorem add_correction_left_multiplies
    (e : Arrangement_Context.env) (contact : string) (index : nat)
    (factors : list float) :
  State.well_formed (Arrangement_Context.self e) →
  Arrangement_Context._contacts (Arrangement_Context.self e) !! contact = Some index →
  length factors = size (Arrangement_Context._contacts (Arrangement_Context.self e)) →
  let n := size (Arrangement_Context._contacts (Arrangement_Context.self e)) in
  let M := Arrangement_Context._correction (Arrangement_Context.self e) in
  let P := <[index := factors]> (np.identity n) in
  Arrangement_Context.add_correction contact factors e
    = (Return tt, State.with_correction (np.matmul P M) e) ∧
  (∀ r c, r < n → c < n →
     np.entry P r c = Some (State.perturbation index factors r c)) ∧
  (∀ r c, r < n → c < n →
     np.entry (np.matmul P M) r c
       = Some (State.product_entry n (State.perturbation index factors)
                                   (State.entries M) r c)) ∧
  State.well_formed (Arrangement_Context.self (State.with_correction (np.matmul P M) e)).
Proof.
  intros (Hv & Hch & Hm & Hrows & Hidx) Hc Hlen n M P.
  pose proof (Hidx _ _ Hc) as Hi. fold n in Hi, Hlen, Hm, Hrows.
  assert (HP : length P = n) by (unfold P; by rewrite length_insert, identity_length).
  assert (HProws : Forall (λ row, length row = n) P).
  { unfold P. apply Forall_insert; [apply identity_rows|done]. }
  split; [|split; [|split]].
  - unfold Arrangement_Context.add_correction.
    erewrite bind_Return; [|by apply _contact_index_Some].
    unfold bind, Arrangement_Context.shape, Arrangement_Context.attr, lift, np.setrow.
    fold n. rewrite identity_lookup by done.
    rewrite length_map, length_seq, decide_True by done. reflexivity.
  - intros r c Hr Hcn. by apply perturbation_entry.
  - intros r c Hr Hcn. rewrite (matmul_entry n) by done. f_equal.
    unfold State.product_entry. apply fold_left_pointwise. intros acc j Hj.
    apply elem_of_seq in Hj. unfold State.entries at 1.
    unfold P. rewrite perturbation_entry by (done || lia). reflexivity.
  - unfold State.well_formed. cbn -[np.matmul]. fold n.
    split; [done|]. split; [done|]. split; [by rewrite matmul_length|].
    split; [|done].
    eapply Forall_impl; [apply matmul_rows|].
    intros row Hrow. simpl in Hrow. rewrite Hrow. exact (ncols_square M n Hm Hrows).
Qed.

Lemma add_correction_left_multiplies_witness :
  State.well_formed (Arrangement_Context.self Example.ab) ∧
  Arrangement_Context._contacts (Arrangement_Context.self Example.ab) !! "a" = Some 0 ∧
  length [1; 0.5]%float
    = size (Arrangement_Context._contacts (Arrangement_Context.self Example.ab)) ∧
  (Arrangement_Context.add_correction "a" [1; 0.5]%float Example.ab).1 = Return tt ∧
  Arrangement_Context._correction
    (Arrangement_Context.self
       (Arrangement_Context.add_correction "a" [1; 0.5]%float Example.ab).2)
    = [[1; 0.5]; [0; 1]]%float.
Proof.
  assert (Hc : Arrangement_Context._contacts (Arrangement_Context.self Example.ab)
                 !! "a" = Some 0) by (by vm_compute).
  assert (Hlen : length [1; 0.5]%float
                 = size (Arrangement_Context._contacts (Arrangement_Context.self Example.ab)))
    by (by vm_compute).
  split; [exact ab_well_formed|]. split; [exact Hc|]. split; [exact Hlen|].
  destruct (add_correction_left_multiplies Example.ab "a" 0 [1; 0.5]%float
              ab_well_formed Hc Hlen) as (Hrun & _).
  rewrite Hrun. split; [done|]. by vm_compute.
Defined.

(** * Closing *)

Section teardown.

Import Arrangement_Context State.

Implicit Types (a : t) (e : env) (cmds : list scpi) (freed : gset Z).

Lemma emits_ret {A} (x : A) a : emits (ret x) a (Return x) [] ∅.
Proof.
  intros e He. exists e. unfold written, pool.
  rewrite app_nil_r, (right_id_L ∅ (∪)). repeat split; try done.
  by destruct (SPDac._record_commands (_spdac e)); rewrite app_nil_r.
Qed.

Lemma emits_attr {A} (f : t → A) a : emits (attr f) a (Return (f a)) [] ∅.
Proof.
  intros e He. exists e. unfold attr, written, pool.
  rewrite app_nil_r, (right_id_L ∅ (∪)), He. repeat split; try done.
  by destruct (SPDac._record_commands (_spdac e)); rewrite app_nil_r.
Qed.

Lemma emits_lift {A} (r : outcome A) a : emits (lift r) a r [] ∅.
Proof.
  intros e He. exists e. unfold written, pool.
  rewrite app_nil_r, (right_id_L ∅ (∪)). repeat split; try done.
  by destruct (SPDac._record_commands (_spdac e)); rewrite app_nil_r.
Qed.

Lemma emits_write cmd a : emits (on_spdac (SPDac.write cmd)) a (Return tt) [cmd] ∅.
Proof.
  intros e He. eexists. split; [reflexivity|]. unfold written, pool. simpl.
  rewrite (right_id_L ∅ (∪)). repeat split; try done.
  destruct (SPDac._record_commands (_spdac e)); by rewrite ?app_nil_r.
Qed.

Lemma emits_free_trigger trigger a :
  emits (on_spdac (SPDac.free_trigger trigger)) a (Return tt) [] {[value trigger]}.
Proof.
  intros e He. eexists. split; [reflexivity|]. unfold written, pool. simpl.
  rewrite app_nil_r. repeat split; try done.
  by destruct (SPDac._record_commands (_spdac e)); rewrite app_nil_r.
Qed.

Lemma emits_channel ch a :
  emits (on_spdac (SPDac.channel ch)) a
    (if decide (1 ≤ ch ≤ 4)%Z then Return ch else Raise AttributeError) [] ∅.
Proof.
  intros e He. exists e. unfold on_spdac, zoom, SPDac.channel, written, pool.
  rewrite app_nil_r, (right_id_L ∅ (∪)).
  split; [destruct e; by case_decide|]. repeat split; try done.
  by destruct (SPDac._record_commands (_spdac e)); rewrite app_nil_r.
Qed.

Lemma emits_bind_Return {A B} (m : M env A) (k : A → M env B) a x r c1 f1 c2 f2 :
  emits m a (Return x) c1 f1 → emits (k x) a r c2 f2 →
  emits (bind m k) a r (c1 ++ c2) (f1 ∪ f2).
Proof.
  intros Hm Hk e He.
  destruct (Hm e He) as (e1 & Hrun1 & Hs1 & Hw1 & Hp1 & Hr1 & Hrec1 & Hsent1).
  destruct (Hk e1 Hs1) as (e2 & Hrun2 & Hs2 & Hw2 & Hp2 & Hr2 & Hrec2 & Hsent2).
  exists e2. split; [by erewrite bind_Return|].
  rewrite Hsent2, Hsent1, Hw2, Hw1, Hp2, Hp1, Hr2, Hr1, Hrec2, Hrec1, <- !app_assoc.
  rewrite (assoc_L (∪)). repeat split; try done.
  destruct (SPDac._record_commands (_spdac e)); [done|]. by rewrite !app_nil_r.
Qed.

Lemma emits_bind_Raise {A B} (m : M env A) (k : A → M env B) a x c f :
  emits m a (Raise x) c f → emits (bind m k) a (Raise x) c f.
Proof.
  intros Hm e He. destruct (Hm e He) as (e1 & Hrun1 & Hrest).
  exists e1. split; [by erewrite bind_Raise|done].
Qed.

Lemma determined_bind {A B} (m : M env A) (k : A → M env B) a :
  determined m a → (∀ x, determined (k x) a) → determined (bind m k) a.
Proof.
  intros (r & c1 & f1 & Hm) Hk. destruct r as [x|x].
  - destruct (Hk x) as (r & c2 & f2 & Hkx).
    exists r, (c1 ++ c2), (f1 ∪ f2). by eapply emits_bind_Return.
  - exists (Raise x), c1, f1. by apply emits_bind_Raise.
Qed.

Lemma determined_for_each {A} (l : list A) (body : A → M env unit) a :
  (∀ x, determined (body x) a) → determined (for_each l body) a.
Proof.
  intros Hbody. induction l as [|x l IH]; simpl.
  - eexists _, _, _. apply emits_ret.
  - apply determined_bind; [apply Hbody|]. intros _. apply IH.
Qed.

Lemma emits_bind {A B} (m : M env A) (k : A → M env B) a x r c1 f1 c2 f2 cmds freed :
  emits m a (Return x) c1 f1 → emits (k x) a r c2 f2 →
  cmds = c1 ++ c2 → freed = f1 ∪ f2 →
  emits (bind m k) a r cmds freed.
Proof. intros Hm Hk -> ->. by eapply emits_bind_Return. Qed.

Lemma emits_holds ports a :
  emits (for_each ports (λ port, on_spdac (SPDac.write (outp_trig_sour_hold port))))
        a (Return tt) (map outp_trig_sour_hold ports) ∅.
Proof.
  induction ports as [|port ports IH]; simpl; [apply emits_ret|].
  eapply emits_bind; [apply emits_write|apply IH|done|set_solver].
Qed.

Lemma emits_frees (triggers : list SPDacTrigger_Context) a :
  emits (for_each triggers (λ trigger, on_spdac (SPDac.free_trigger trigger)))
        a (Return tt) [] (list_to_set (map value triggers)).
Proof.
  induction triggers as [|trigger triggers IH]; simpl; [apply emits_ret|].
  eapply emits_bind; [apply emits_free_trigger|apply IH|done|set_solver].
Qed.

(** What closing an arrangement does: one [hold] command per external
    trigger port, and every internal trigger back in the pool. *)
Lemma emits_close a :
  emits close a (Return tt)
    (map outp_trig_sour_hold (dict_values (_external_triggers a)))
    (list_to_set (map value (dict_values (_internal_triggers a)))).
Proof.
  unfold close, __exit__, _free_triggers.
  eapply emits_bind; [|apply emits_ret| |].
  - eapply emits_bind; [apply emits_attr| |reflexivity|reflexivity].
    eapply emits_bind; [|  |reflexivity|reflexivity].
    + instantiate (1 := ∅).
      instantiate (1 := map outp_trig_sour_hold (dict_values (_external_triggers a))).
      destruct (_external_triggers a) as [|p ports]; [apply emits_ret|apply emits_holds].
    + eapply emits_bind; [| apply emits_ret |reflexivity|reflexivity].
      eapply emits_bind; [apply emits_attr|apply emits_frees|reflexivity|reflexivity].
  - by rewrite !app_nil_r.
  - set_solver.
Qed.

Lemma determined_get_channel contact_index a :
  determined (Virtual_Sweep_Context._get_channel contact_index) a.
Proof.
  unfold Virtual_Sweep_Context._get_channel.
  apply determined_bind; [eexists _, _, _; apply emits_attr|]. intros chans.
  apply determined_bind; [eexists _, _, _; apply emits_lift|]. intros ch.
  eexists _, _, _. apply emits_channel.
Qed.

Lemma emits_get_channel contact_index a :
  emits (Virtual_Sweep_Context._get_channel contact_index) a
    (match _channels a !! contact_index with
     | Some ch => if decide (1 ≤ ch ≤ 4)%Z then Return ch else Raise AttributeError
     | None => Raise IndexError
     end) [] ∅.
Proof.
  unfold Virtual_Sweep_Context._get_channel.
  eapply emits_bind with (c2 := []) (f2 := ∅); [apply emits_attr| |done|set_solver].
  unfold getitem. destruct (_channels a !! contact_index) as [ch|].
  - eapply emits_bind; [apply emits_lift|apply emits_channel|done|set_solver].
  - replace (∅ : gset Z) with ((∅ : gset Z) ∪ ∅) by set_solver.
    apply emits_bind_Raise, emits_lift.
Qed.

(** Closing a sweep context: when it returns, the marker command is the
    first one written. *)
Lemma emits_sweep_close ctx a :
  ∃ r cmds freed,
    emits (Virtual_Sweep_Context.close ctx) a r cmds freed ∧
    (r = Return tt → ∃ ch rest, cmds = sour_dc_mark_sst ch 0 :: rest).
Proof.
  unfold Virtual_Sweep_Context.close, Virtual_Sweep_Context.__exit__.
  pose proof (emits_get_channel 0 a) as Hch.
  destruct (match _channels a !! 0 with
            | Some ch => if decide (1 ≤ ch ≤ 4)%Z then Return ch else Raise AttributeError
            | None => Raise IndexError
            end) as [ch|x].
  2:{ exists (Raise x), [], ∅. split; [|done].
      by apply emits_bind_Raise, emits_bind_Raise. }
  match goal with
  | |- context [bind (bind _ ?k) _] =>
      assert (Hrest : ∀ ch, ∃ r c f,
                emits (k ch) a r c f ∧ ∃ rest, c = sour_dc_mark_sst ch 0 :: rest)
  end.
  { intros ch'.
    match goal with
    | |- context [bind (on_spdac (SPDac.write ?cmd)) ?k] =>
        assert (Hk : determined (k tt) a)
    end.
    { apply determined_bind; [eexists _, _, _; apply emits_attr|]. intros n.
      apply determined_bind; [|intros; eexists _, _, _; apply emits_ret].
      apply determined_for_each. intros i.
      apply determined_bind; [apply determined_get_channel|]. intros ch''.
      apply determined_bind; [eexists _, _, _; apply emits_write|]. intros _.
      eexists _, _, _. apply emits_write. }
    destruct Hk as (r & c & f & Hk).
    exists r, ([sour_dc_mark_sst ch' 0] ++ c), (∅ ∪ f).
    split; [|by eexists].
    eapply emits_bind_Return; [apply emits_write|exact Hk]. }
  destruct (Hrest ch) as (r & c & f & Hk & rest & ->).
  destruct r as [b|x].
  - exists (Return tt), (([] ++ sour_dc_mark_sst ch 0 :: rest)
                         ++ map outp_trig_sour_hold (dict_values (_external_triggers a))),
      ((∅ ∪ f) ∪ list_to_set (map value (dict_values (_internal_triggers a)))).
    split; [|intros _; by eexists _, _].
    eapply emits_bind_Return; [|apply emits_close].
    eapply emits_bind_Return; [exact Hch|exact Hk].
  - exists (Raise x), ([] ++ sour_dc_mark_sst ch 0 :: rest), (∅ ∪ f).
    split; [|done]. apply emits_bind_Raise.
    eapply emits_bind_Return; [exact Hch|exact Hk].
Qed.

End teardown.

(** C9, as the code has it.  A second [close()] raises no error when the
    first did not and leaves the arrangement and the trigger pool as the
    first left them, but it is not silent: it writes again exactly the
    commands the first call wrote.  For an arrangement these are the
    [outp:trig:sour port,hold] commands of its external triggers, so
    without external triggers the second call does change nothing at all;
    for a sweep context they begin with the marker command
    [sour:dc:mark:sst ch 0]. *)
Theorem close_twice_repeats_commands :
  (∀ e : Arrangement_Context.env,
     let holds := map outp_trig_sour_hold
                    (dict_values (Arrangement_Context._external_triggers
                                    (Arrangement_Context.self e))) in
     ∃ e1 e2,
       Arrangement_Context.close e = (Return tt, e1) ∧
       Arrangement_Context.close e1 = (Return tt, e2) ∧
       Arrangement_Context.self e2 = Arrangement_Context.self e1 ∧
       State.pool e2 = State.pool e1 ∧
       State.written e1 = State.written e ++ holds ∧
       State.written e2 = State.written e1 ++ holds ∧
       (holds = [] → e2 = e1)) ∧
  (∀ (ctx : Virtual_Sweep_Context.t) (e e1 : Arrangement_Context.env),
     Virtual_Sweep_Context.close ctx e = (Return tt, e1) →
     ∃ e2 ch rest,
       Virtual_Sweep_Context.close ctx e1 = (Return tt, e2) ∧
       Arrangement_Context.self e2 = Arrangement_Context.self e1 ∧
       State.pool e2 = State.pool e1 ∧
       State.written e1 = State.written e ++ sour_dc_mark_sst ch 0 :: rest ∧
       State.written e2 = State.written e1 ++ sour_dc_mark_sst ch 0 :: rest).
Proof.
  split.
  - intros e holds.
    destruct (emits_close (Arrangement_Context.self e) e eq_refl)
      as (e1 & Hrun1 & Hs1 & Hw1 & Hp1 & Hr1 & Hrec1 & Hsent1).
    destruct (emits_close (Arrangement_Context.self e) e1 Hs1)
      as (e2 & Hrun2 & Hs2 & Hw2 & Hp2 & Hr2 & Hrec2 & Hsent2).
    exists e1, e2. fold holds in Hw1, Hw2, Hsent1, Hsent2.
    assert (Hpool : State.pool e2 = State.pool e1).
    { rewrite Hp2, Hp1. set_solver. }
    repeat split; try done; [congruence|].
    intros Hnil. rewrite Hnil, app_nil_r in Hw2.
    rewrite Hnil in Hsent2.
    assert (Hsent : SPDac._scpi_sent (Arrangement_Context._spdac e2)
                    = SPDac._scpi_sent (Arrangement_Context._spdac e1)).
    { rewrite Hsent2. destruct (SPDac._record_commands _); by rewrite app_nil_r. }
    unfold State.pool, State.written in *.
    destruct e1 as [a1 [p1 r1 c1 s1 v1]], e2 as [a2 [p2 r2 c2 s2 v2]].
    simpl in *. congruence.
  - intros ctx e e1 Hrun.
    destruct (emits_sweep_close ctx (Arrangement_Context.self e))
      as (r & cmds & freed & Hemits & Hfirst).
    destruct (Hemits e eq_refl) as (e1' & Hrun1 & Hs1 & Hw1 & Hp1 & _).
    rewrite Hrun in Hrun1. injection Hrun1 as <- <-.
    destruct (Hfirst eq_refl) as (ch & rest & ->).
    destruct (Hemits e1 Hs1) as (e2 & Hrun2 & Hs2 & Hw2 & Hp2 & _).
    exists e2, ch, rest. repeat split; try done; [congruence|].
    rewrite Hp2, Hp1. set_solver.
Qed.

Lemma close_twice_repeats_commands_witness :
  (let e := (Arrangement_Context.close Example.ab_out).2 in
   State.written (Arrangement_Context.close e).2
     = State.written e ++ [outp_trig_sour_hold 4]) ∧
  (let ctx := match Example.ab_sweep.1 with
              | Return ctx => ctx
              | Raise _ => {| Virtual_Sweep_Context._sweep := [];
                              Virtual_Sweep_Context._step_trigger := None;
                              Virtual_Sweep_Context._step_time_s := 0;
                              Virtual_Sweep_Context._repetitions := None;
                              Virtual_Sweep_Context._start_trigger_name := "";
                              Virtual_Sweep_Context._spdac_ready := false |}
              end in
   let e := Example.ab_sweep.2 in
   Virtual_Sweep_Context.close ctx e
     = (Return tt, (Virtual_Sweep_Context.close ctx e).2) ∧
   ∃ e2 ch rest,
     Virtual_Sweep_Context.close ctx (Virtual_Sweep_Context.close ctx e).2
       = (Return tt, e2) ∧
     State.written e2
       = State.written (Virtual_Sweep_Context.close ctx e).2
           ++ sour_dc_mark_sst ch 0 :: rest).
Proof.
  destruct close_twice_repeats_commands as [Harrangement Hsweep]. split.
  - intros e.
    destruct (Harrangement e) as (e1 & e2 & Hrun1 & _ & _ & _ & Hw1 & _).
    rewrite Hrun1. cbn [snd]. rewrite Hw1. by vm_compute.
  - intros ctx e.
    assert (Hrun : Virtual_Sweep_Context.close ctx e
                   = (Return tt, (Virtual_Sweep_Context.close ctx e).2))
      by (by vm_compute).
    split; [exact Hrun|].
    destruct (Hsweep ctx e _ Hrun) as (e2 & ch & rest & Hrun2 & _ & _ & _ & Hw2).
    by exists e2, ch, rest.
Defined.

(** C9 as stated fails: the second [close()] is not a no-op for the
    instrument.  An arrangement with an external trigger writes the
    [hold] command of its port once more, and a sweep context writes its
    marker, abort and trigger commands again. *)
Lemma close_twice_writes_again :
  (let e1 := (Arrangement_Context.close Example.ab_out).2 in
   (Arrangement_Context.close e1).1 = Return tt ∧
   State.written (Arrangement_Context.close e1).2 ≠ State.written e1) ∧
  (∃ ctx, Example.ab_sweep.1 = Return ctx ∧
     let e1 := (Virtual_Sweep_Context.close ctx Example.ab_sweep.2).2 in
     (Virtual_Sweep_Context.close ctx Example.ab_sweep.2).1 = Return tt ∧
     (Virtual_Sweep_Context.close ctx e1).1 = Return tt ∧
     State.written (Virtual_Sweep_Context.close ctx e1).2 ≠ State.written e1).
Proof.
  split.
  - split; [by vm_compute|]. vm_compute. intros H. discriminate H.
  - eexists. split; [by vm_compute|]. split; [by vm_compute|].
    split; [by vm_compute|]. vm_compute. intros H. discriminate H.
Qed.

(** * Detune sweeps *)

Section detune.

Import Arrangement_Context State.

Implicit Types (e : env) (v w : list float) (indices : list nat).

Lemma samples_length start stop n : length (np.samples start stop n) = n.
Proof.
  unfold np.samples.
  set (y := map _ (if (0 <? n - 1)%nat then _ else _)).
  assert (Hy : length y = n).
  { unfold y. rewrite length_map.
    repeat case_match; by rewrite !length_map, length_seq. }
  destruct (Nat.ltb_spec 1 n) as [Hn|Hn]; [|done].
  rewrite length_app, removelast_firstn_len, length_take, Hy. simpl. lia.
Qed.

(** Dropping both ends and reversing, in either order. *)
Lemma flip_interior {A} (l : list A) :
  removelast (tl (rev l)) = rev (removelast (tl l)).
Proof.
  destruct l as [|x l]; [done|].
  destruct l as [|y l _] using rev_ind; [done|].
  cbn [tl]. rewrite removelast_last.
  change (x :: l ++ [y]) with ([x] ++ l ++ [y]).
  rewrite !rev_app_distr. cbn [rev app tl].
  by rewrite removelast_last.
Qed.

Lemma forward_and_back_Return start end_ steps :
  (0 ≤ steps)%Z →
  forward_and_back start end_ steps = Return (there_and_back start end_ steps).
Proof.
  intros Hsteps. unfold forward_and_back, np.linspace, there_and_back.
  destruct (Z.ltb_spec steps 0) as [?|_]; [lia|].
  unfold np.flip. by rewrite flip_interior.
Qed.

Lemma there_and_back_length start end_ steps :
  length (there_and_back start end_ steps)
    = Z.to_nat steps + (Z.to_nat steps - 2).
Proof.
  unfold there_and_back.
  rewrite length_app, length_rev, removelast_firstn_len, length_take.
  pose proof (samples_length start end_ (Z.to_nat steps)) as Hlen.
  rewrite Hlen.
  destruct (np.samples start end_ (Z.to_nat steps)) as [|x l]; simpl in *; lia.
Qed.

(** ** [zip( *ls )] *)

Lemma zip_star_length {A} (ls : list (list A)) n :
  ls ≠ [] → Forall (λ l, length l = n) ls → length (zip_star ls) = n.
Proof.
  induction ls as [|l ls IH]; intros Hne Hall; [done|].
  apply Forall_cons in Hall as [Hl Hall].
  destruct ls as [|l' ls].
  - simpl. by rewrite length_map.
  - change (zip_star (l :: l' :: ls)) with (zip_with cons l (zip_star (l' :: ls))).
    rewrite length_zip_with, IH by done. lia.
Qed.

(** Row [t] holds, for each list, its element [t]. *)
Lemma zip_star_lookup {A} (ls : list (list A)) t row :
  zip_star ls !! t = Some row →
  length row = length ls ∧
  ∀ k l, ls !! k = Some l → row !! k = l !! t.
Proof.
  revert row. induction ls as [|l ls IH]; intros row Hrow; [done|].
  destruct ls as [|l' ls].
  - simpl in Hrow. rewrite list_lookup_fmap in Hrow.
    destruct (l !! t) as [x|] eqn:Hx; [|done]. injection Hrow as <-.
    split; [done|]. intros [|k] l0 Hk; [|done]. by injection Hk as <-.
  - change (zip_star (l :: l' :: ls)) with (zip_with cons l (zip_star (l' :: ls))) in Hrow.
    apply lookup_zip_with_Some in Hrow as (x & row' & -> & Hx & Hrow').
    destruct (IH row' Hrow') as [Hlen Hcols].
    split; [simpl; by rewrite Hlen|].
    intros [|k] l0 Hk.
    + by injection Hk as <-.
    + by apply Hcols.
Qed.

(** ** Storing at several indices *)

Lemma stored_length indices voltages v :
  length (stored indices voltages v) = length v.
Proof.
  unfold stored. generalize (zip indices voltages). intros pairs. revert v.
  induction pairs as [|[i x] pairs IH]; intros v; [done|].
  simpl. by rewrite IH, length_insert.
Qed.

(** Two vectors that agree outside of the indices stored to are equal
    after the stores. *)
Lemma stored_agree (pairs : list (nat * float)) : ∀ w v,
  length w = length v →
  (∀ j, j ∉ pairs.*1 → w !! j = v !! j) →
  fold_left (λ v iv, <[iv.1 := iv.2]> v) pairs w
    = fold_left (λ v iv, <[iv.1 := iv.2]> v) pairs v.
Proof.
  induction pairs as [|[i x] pairs IH]; intros w v Hlen Hagree.
  - simpl. apply list_eq. intros j. apply Hagree. set_solver.
  - simpl. apply IH; [by rewrite !length_insert|].
    intros j Hj. destruct (decide (j = i)) as [->|Hne].
    + destruct (decide (i < length w)) as [Hi|Hi].
      * rewrite !list_lookup_insert_eq by lia. done.
      * rewrite !list_insert_ge by lia.
        rewrite !lookup_ge_None_2 by lia. done.
    + rewrite !list_lookup_insert_ne by done. apply Hagree. set_solver.
Qed.

Lemma stored_outside indices voltages v j :
  j ∉ indices → stored indices voltages v !! j = v !! j.
Proof.
  unfold stored. revert voltages v.
  induction indices as [|i indices IH]; intros voltages v Hj; [done|].
  destruct voltages as [|x voltages]; [done|]. simpl.
  rewrite IH by set_solver. apply list_lookup_insert_ne. set_solver.
Qed.

(** Storing back the values the vector already has changes nothing. *)
Lemma stored_originals indices originals v :
  Forall2 (λ i x, v !! i = Some x) indices originals →
  stored indices originals v = v.
Proof.
  unfold stored. induction 1 as [|i x indices originals Hx _ IH]; [done|].
  simpl. by rewrite list_insert_id.
Qed.

(** ** The computation *)

Lemma comprehension_pure {S A B} (l : list A) (f : A → M S B) (h : A → B) s :
  (∀ x, x ∈ l → f x s = (Return (h x), s)) →
  comprehension l f s = (Return (map h l), s).
Proof.
  induction l as [|x l IH]; intros Hf; [done|].
  cbn [comprehension]. erewrite bind_Return; [|apply Hf; set_solver].
  erewrite bind_Return; [|apply IH; intros; apply Hf; set_solver]. done.
Qed.

Lemma store_all e indices voltages : ∀ w,
  Forall (λ i, i < length w) indices →
  for_each (zip indices voltages)
    (λ '(index, voltage), store_virtual_voltage index voltage)
    (with_virtual_voltages w e)
  = (Return tt, with_virtual_voltages (stored indices voltages w) e).
Proof.
  revert voltages. induction indices as [|i indices IH]; intros voltages w Hall; [done|].
  destruct voltages as [|x voltages]; [done|].
  apply Forall_cons in Hall as [Hi Hall].
  cbn [zip zip_with for_each].
  erewrite bind_Return; [|by apply store_virtual_voltage_lt].
  cbn [virtual with_virtual_voltages self set_virtual_voltages_attr _virtual_voltages].
  rewrite with_virtual_voltages_twice, IH.
  - reflexivity.
  - eapply Forall_impl; [exact Hall|]. intros j Hj. simpl. by rewrite length_insert.
Qed.

(** The loop of [_calculate_detune_values]: every row is computed with
    its voltages stored in the vector the loop started from. *)
Lemma detune_loop e indices v0 rows : ∀ w,
  Forall (λ i, i < length v0) indices →
  Forall (λ row, length row = length indices) rows →
  length w = length v0 →
  (∀ j, j ∉ indices → w !! j = v0 !! j) →
  ∃ w', length w' = length v0 ∧
        (∀ j, j ∉ indices → w' !! j = v0 !! j) ∧
        comprehension rows
          (λ voltages,
             do_ for_each (zip indices voltages)
                   (λ '(index, voltage), store_virtual_voltage index voltage);
             actual_voltages)
          (with_virtual_voltages w e)
        = (Return (map (λ row, physical (with_virtual_voltages (stored indices row v0) e))
                       rows),
           with_virtual_voltages w' e).
Proof.
  induction rows as [|row rows IH]; intros w Hidx Hrows Hlen Hagree.
  - exists w. by repeat split.
  - apply Forall_cons in Hrows as [Hrow Hrows].
    assert (Hstored : stored indices row w = stored indices row v0).
    { unfold stored. apply stored_agree; [done|].
      intros j Hj. apply Hagree. by rewrite fst_zip in Hj by lia. }
    destruct (IH (stored indices row v0)) as (w' & Hlen' & Hagree' & Hrun); try done.
    + apply stored_length.
    + intros j Hj. by apply stored_outside.
    + exists w'. repeat split; [done..|].
      cbn [comprehension].
      erewrite bind_Return; last first.
      { erewrite bind_Return; last first.
        { apply store_all. by rewrite Hlen. }
        rewrite Hstored. apply actual_voltages_eq. }
      erewrite bind_Return; [|exact Hrun]. reflexivity.
Qed.

Lemma zip_star_rows {A} (ls : list (list A)) :
  Forall (λ row, length row = length ls) (zip_star ls).
Proof.
  apply Forall_forall. intros row Hrow.
  apply list_elem_of_lookup in Hrow as [t Ht].
  by destruct (zip_star_lookup ls t row Ht).
Qed.

Lemma zip_with_as_map {A B C} (f : A → B → C) (a : A) (b : B) l k n :
  length l = n → length k = n →
  zip_with f l k = map (λ i, f (nth i l a) (nth i k b)) (seq 0 n).
Proof.
  intros Hl Hk. apply list_eq. intros i.
  rewrite lookup_zip_with, list_lookup_fmap.
  destruct (decide (i < n)) as [Hi|Hi].
  - rewrite lookup_seq_lt by done.
    destruct (lookup_lt_is_Some_2 l i) as [x Hx]; [lia|].
    destruct (lookup_lt_is_Some_2 k i) as [y Hy]; [lia|].
    rewrite Hx, Hy. simpl.
    by rewrite (nth_lookup_Some _ _ _ _ Hx), (nth_lookup_Some _ _ _ _ Hy).
  - rewrite lookup_seq_ge by lia. rewrite (lookup_ge_None_2 l) by lia. done.
Qed.

Lemma _calculate_detune_values_Return e contacts indices start_V end_V steps :
  Forall2 (λ contact index, _contacts (self e) !! contact = Some index ∧
                            index < length (virtual e)) contacts indices →
  length start_V = length contacts →
  length end_V = length contacts →
  (0 ≤ steps)%Z →
  _calculate_detune_values contacts start_V end_V steps e
    = (Return (map (λ row, physical (with_virtual_voltages
                                       (stored indices row (virtual e)) e))
                   (zip_star (zip_with (λ s f, there_and_back s f steps)
                                       start_V end_V))),
       e).
Proof.
  intros Hcontacts Hstart Hend Hsteps.
  unfold _calculate_detune_values.
  set (idx := λ contact, default 0 (_contacts (self e) !! contact)).
  assert (Hindices : indices = map idx contacts).
  { clear Hstart Hend. induction Hcontacts as [|c i cs is_ [Hc _] _ IH]; [done|].
    simpl. unfold idx at 1. by rewrite Hc, IH. }
  assert (Hknown : ∀ c, c ∈ contacts →
            _contacts (self e) !! c = Some (idx c) ∧ idx c < length (virtual e)).
  { intros c Hc. apply list_elem_of_lookup in Hc as [k Hk].
    destruct (Forall2_lookup_l _ _ _ _ _ Hcontacts Hk) as (i & _ & Hci & Hi).
    unfold idx. by rewrite Hci. }
  set (originals := map (λ c, nth (idx c) (virtual e) 0%float) contacts).
  assert (Horiginals : Forall2 (λ i x, virtual e !! i = Some x) indices originals).
  { rewrite Hindices. unfold originals.
    apply Forall2_fmap, Forall_Forall2_diag, Forall_forall. intros c Hc.
    destruct (Hknown c Hc) as [_ Hi].
    destruct (lookup_lt_is_Some_2 _ _ Hi) as [x Hx]. rewrite Hx.
    f_equal. symmetry. by apply nth_lookup_Some with (d := 0%float). }
  assert (Hlen : length indices = length contacts)
    by (by rewrite Hindices, length_map).
  erewrite bind_Return; last first.
  { apply (comprehension_pure contacts _ (λ c, nth (idx c) (virtual e) 0%float)).
    intros c Hc. destruct (Hknown c Hc) as [Hci Hi].
    destruct (lookup_lt_is_Some_2 _ _ Hi) as [x Hx].
    rewrite (nth_lookup_Some _ _ _ _ Hx). by eapply virtual_voltage_Some. }
  erewrite bind_Return; last first.
  { apply (comprehension_pure contacts _ idx).
    intros c Hc. destruct (Hknown c Hc) as [Hci _]. by apply _contact_index_Some. }
  erewrite bind_Return; last first.
  { apply (comprehension_pure _ _
             (λ i, there_and_back (nth i start_V 0%float) (nth i end_V 0%float) steps)).
    intros i Hi. apply elem_of_seq in Hi.
    destruct (lookup_lt_is_Some_2 start_V i) as [s Hs]; [lia|].
    destruct (lookup_lt_is_Some_2 end_V i) as [f Hf]; [lia|].
    unfold bind, lift, getitem. rewrite Hs, Hf.
    rewrite (nth_lookup_Some _ _ _ _ Hs), (nth_lookup_Some _ _ _ _ Hf).
    by rewrite forward_and_back_Return. }
  rewrite <- (zip_with_as_map (λ s f, there_and_back s f steps) 0%float 0%float
                start_V end_V (length contacts) Hstart Hend).
  rewrite <- Hindices. fold originals.
  set (forward_V := zip_with _ start_V end_V).
  assert (Hbound : Forall (λ i, i < length (virtual e)) indices).
  { rewrite Hindices. apply Forall_fmap, Forall_forall. intros c Hc.
    by destruct (Hknown c Hc). }
  destruct (detune_loop e indices (virtual e) (zip_star forward_V) (virtual e))
    as (w' & Hlen' & Hagree' & Hrun); try done.
  { eapply Forall_impl; [apply zip_star_rows|]. intros row Hrow. simpl in Hrow.
    rewrite Hrow, Hlen. unfold forward_V. rewrite length_zip_with. lia. }
  rewrite with_virtual_voltages_id in Hrun.
  erewrite bind_Return; [|exact Hrun].
  erewrite bind_Return; last first.
  { apply store_all. by rewrite Hlen'. }
  assert (Hback : stored indices originals w' = virtual e).
  { transitivity (stored indices originals (virtual e)).
    - unfold stored. apply stored_agree; [done|].
      intros j Hj. apply Hagree'. rewrite fst_zip in Hj; [done|].
      apply Forall2_length in Horiginals. lia.
    - by apply stored_originals. }
  by rewrite Hback, with_virtual_voltages_id.
Qed.

End detune.

(** C4.  For contacts of the arrangement, one start and one end value per
    contact and a step count, [forward_and_back] yields for each contact
    the [steps] evenly spaced points from its start to its end value
    followed by the reverse of those points with both endpoints excluded,
    and [_calculate_detune_values] returns one row per position of these
    sequences: the physical voltages with every listed contact, each
    independently of the others, at its point of that position.  The state
    is left as it was. *)
Theorem detune_sweep_program
    (e : Arrangement_Context.env) (contacts : list string) (indices : list nat)
    (start_V end_V : list float) (steps : Z) :
  Forall2 (λ contact index,
             Arrangement_Context._contacts (Arrangement_Context.self e) !! contact
               = Some index ∧
             index < length (State.virtual e)) contacts indices →
  length start_V = length contacts →
  length end_V = length contacts →
  (0 ≤ steps)%Z →
  let points := zip_with (λ s f, State.there_and_back s f steps) start_V end_V in
  let rows := zip_star points in
  (∀ s f, forward_and_back s f steps = Return (State.there_and_back s f steps)) ∧
  Arrangement_Context._calculate_detune_values contacts start_V end_V steps e
    = (Return (map (λ row, State.physical
                             (State.with_virtual_voltages
                                (State.stored indices row (State.virtual e)) e))
                   rows), e) ∧
  (∀ t row, rows !! t = Some row →
     length row = length contacts ∧
     ∀ k s f, start_V !! k = Some s → end_V !! k = Some f →
              row !! k = State.there_and_back s f steps !! t) ∧
  (contacts ≠ [] → length rows = Z.to_nat steps + (Z.to_nat steps - 2)).
Proof.
  intros Hcontacts Hstart Hend Hsteps points rows.
  assert (Hpoints : length points = length contacts).
  { unfold points. rewrite length_zip_with. lia. }
  split; [intros; by apply forward_and_back_Return|].
  split; [by apply _calculate_detune_values_Return|]. split.
  - intros t row Hrow.
    destruct (zip_star_lookup points t row Hrow) as [Hlen Hcols].
    split; [congruence|]. intros k s f Hs Hf. apply Hcols.
    unfold points. by rewrite lookup_zip_with, Hs, Hf.
  - intros Hne. apply zip_star_length.
    + intros Hnil. rewrite Hnil in Hpoints. by destruct contacts.
    + unfold points. apply Forall_forall. intros l Hl.
      apply list_elem_of_lookup in Hl as [k Hk].
      apply lookup_zip_with_Some in Hk as (s & f & -> & _ & _).
      apply there_and_back_length.
Qed.

Lemma detune_sweep_program_witness :
  Forall2 (λ contact index,
             Arrangement_Context._contacts (Arrangement_Context.self Example.a) !! contact
               = Some index ∧
             index < length (State.virtual Example.a)) ["a"] [0] ∧
  forward_and_back 0 1 3 = Return [0; 0.5; 1; 0.5]%float ∧
  Arrangement_Context._calculate_detune_values ["a"] [0%float] [1%float] 3 Example.a
    = (Return [[0]; [0.5]; [1]; [0.5]]%float, Example.a) ∧
  length (zip_star [State.there_and_back 0 1 3]) = 4.
Proof.
  assert (H : Forall2 (λ contact index,
             Arrangement_Context._contacts (Arrangement_Context.self Example.a) !! contact
               = Some index ∧
             index < length (State.virtual Example.a)) ["a"] [0]).
  { constructor; [|constructor]. split; [by vm_compute|]. vm_compute. lia. }
  destruct (detune_sweep_program Example.a ["a"] [0] [0%float] [1%float] 3 H
              eq_refl eq_refl ltac:(lia)) as (Hfab & Hrun & _ & Hcount).
  split; [exact H|]. split; [|split].
  - rewrite Hfab. by vm_compute.
  - rewrite Hrun. by vm_compute.
  - exact (Hcount ltac:(discriminate)).
Defined.

(** * Binary64 arithmetic with 0.0 and 1.0 *)

Section binary64.

Implicit Types (x y z : float) (s : bool) (m : positive) (e : Z).

Lemma Prim2SF_zero : Prim2SF 0%float = S754_zero false.
Proof. reflexivity. Qed.

Lemma Prim2SF_one : Prim2SF 1%float = S754_finite false 4503599627370496 (-52).
Proof. reflexivity. Qed.

(** A finite float is a zero or has a mantissa and an exponent. *)
Lemma is_finite_cases x :
  PrimFloat.is_finite x = true →
  (∃ s, Prim2SF x = S754_zero s) ∨ (∃ s m e, Prim2SF x = S754_finite s m e).
Proof.
  unfold PrimFloat.is_finite, PrimFloat.is_nan, PrimFloat.is_infinity.
  rewrite !FloatAxioms.eqb_spec, FloatAxioms.abs_spec.
  destruct (Prim2SF x) as [s|s| |s m e]; eauto; simpl.
  - change (Prim2SF infinity) with (S754_infinity false). simpl.
    rewrite orb_true_r. discriminate.
  - discriminate.
Qed.

Lemma mul_zero_finite x :
  PrimFloat.is_finite x = true → ∃ s, Prim2SF (0 * x)%float = S754_zero s.
Proof.
  intros Hx. rewrite FloatAxioms.mul_spec, Prim2SF_zero.
  destruct (is_finite_cases x Hx) as [[s ->]|(s & m & e & ->)]; simpl; eauto.
Qed.

Lemma digits_shift (n : nat) m :
  Zpos (digits2_pos (Nat.iter n xO m)) = (Zpos (digits2_pos m) + Z.of_nat n)%Z.
Proof.
  induction n as [|n IH]; [simpl; lia|].
  rewrite Nat.iter_succ. cbn [digits2_pos]. rewrite Pos2Z.inj_succ, IH. lia.
Qed.

Lemma shr_fexp_shifted m e :
  canonical_mantissa prec emax m e = true →
  shr_fexp prec emax (Zpos (Nat.iter 52 xO m)) (e - 52) loc_Exact
    = ({| shr_m := Zpos m; shr_r := false; shr_s := false |}, e).
Proof.
  unfold canonical_mantissa. intros Hcanonical%Z.eqb_eq.
  unfold shr_fexp. cbn [Zdigits2]. rewrite digits_shift.
  replace (Zpos (digits2_pos m) + Z.of_nat 52 + (e - 52))%Z
    with (Zpos (digits2_pos m) + e)%Z by lia.
  rewrite Hcanonical.
  replace (e - (e - 52))%Z with 52%Z by lia.
  unfold shr. cbn [shr_record_of_loc].
  replace (e - 52 + 52)%Z with e by lia. f_equal.
Qed.

Lemma shr_fexp_canonical m e :
  canonical_mantissa prec emax m e = true →
  shr_fexp prec emax (Zpos m) e loc_Exact
    = ({| shr_m := Zpos m; shr_r := false; shr_s := false |}, e).
Proof.
  unfold canonical_mantissa. intros Hcanonical%Z.eqb_eq.
  unfold shr_fexp. cbn [Zdigits2]. rewrite Hcanonical, Z.sub_diag. reflexivity.
Qed.

(** Multiplying by [1.0] is exact. *)
Lemma SFmul_one sf :
  valid_binary sf = true →
  SF64mul (S754_finite false 4503599627370496 (-52)) sf = sf.
Proof.
  destruct sf as [s|s| |s m e]; try reflexivity. intros Hvalid.
  cbn [valid_binary] in Hvalid. unfold bounded in Hvalid.
  apply andb_true_iff in Hvalid as [Hcanonical Hemax].
  unfold SF64mul, SFmul, binary_round_aux. cbn [xorb].
  change (Pos.mul 4503599627370496 m) with (Nat.iter 52 xO m).
  replace (-52 + e)%Z with (e - 52)%Z by lia.
  rewrite (shr_fexp_shifted m e Hcanonical).
  cbn [shr_m loc_of_shr_record round_nearest_even].
  rewrite (shr_fexp_canonical m e Hcanonical). cbn [shr_m].
  by rewrite Hemax.
Qed.

Lemma mul_one x : (1 * x)%float = x.
Proof.
  apply Prim2SF_inj. rewrite FloatAxioms.mul_spec, Prim2SF_one.
  apply SFmul_one, Prim2SF_valid.
Qed.

(** Adding to [0.0]: a zero gives [0.0], anything else is unchanged. *)
Lemma add_zero_l x :
  Prim2SF (0 + x)%float
    = match Prim2SF x with S754_zero _ => S754_zero false | sf => sf end.
Proof.
  rewrite FloatAxioms.add_spec, Prim2SF_zero.
  by destruct (Prim2SF x) as [[]|[]| |].
Qed.

(** Adding a zero to [0.0 + x] changes nothing. *)
Lemma add_zero_r x z s :
  Prim2SF z = S754_zero s → (0 + x + z)%float = (0 + x)%float.
Proof.
  intros Hz. apply Prim2SF_inj.
  rewrite (FloatAxioms.add_spec (0 + x)), Hz, add_zero_l.
  by destruct (Prim2SF x) as [[]|[]| |], s.
Qed.

(** [0.0 + x] and a finite [x] are equal as numbers. *)
Lemma add_zero_eqb x :
  PrimFloat.is_finite x = true → (0 + x =? x)%float = true.
Proof.
  intros Hx. rewrite FloatAxioms.eqb_spec, add_zero_l.
  destruct (is_finite_cases x Hx) as [[s ->]|(s & m & e & ->)].
  - by destruct s.
  - unfold SFeqb, SFcompare.
    destruct s; rewrite Z.compare_refl, ?Pos.compare_cont_refl; simpl;
      by rewrite ?Pos.compare_refl, ?Pos.compare_cont_refl.
Qed.

(** ** The rows of the identity matrix *)

Let unit_row (i off len : nat) : list float :=
  map (λ j, if Nat.eqb i j then 1%float else 0%float) (seq off len).

Lemma dot_step a b row v acc :
  fold_left (λ acc p, (acc + p.1 * p.2)%float) (combine (a :: row) (b :: v)) acc
  = fold_left (λ acc p, (acc + p.1 * p.2)%float) (combine row v) (acc + a * b)%float.
Proof. reflexivity. Qed.

(** Past the diagonal entry every term is a zero: the sum stays. *)
Lemma dot_unit_row_after i v : ∀ off x,
  i < off →
  Forall (λ y, PrimFloat.is_finite y = true) v →
  fold_left (λ acc p, (acc + p.1 * p.2)%float)
            (combine (unit_row i off (length v)) v) (0 + x)%float
  = (0 + x)%float.
Proof.
  induction v as [|y v IH]; intros off x Hi Hfinite; [done|].
  apply Forall_cons in Hfinite as [Hy Hfinite].
  unfold unit_row. cbn [length seq map]. rewrite dot_step.
  destruct (Nat.eqb_spec i off) as [?|_]; [lia|].
  destruct (mul_zero_finite y Hy) as [s Hs].
  rewrite (add_zero_r x _ s Hs). apply IH; [lia|done].
Qed.

(** Up to the diagonal entry the sum is [0.0]; there it becomes
    [0.0 + v[i]]. *)
Lemma dot_unit_row_before i v : ∀ off,
  off ≤ i → i < off + length v →
  Forall (λ y, PrimFloat.is_finite y = true) v →
  fold_left (λ acc p, (acc + p.1 * p.2)%float)
            (combine (unit_row i off (length v)) v) 0%float
  = (0 + nth (i - off) v 0)%float.
Proof.
  induction v as [|y v IH]; intros off Hoff Hi Hfinite; [simpl in Hi; lia|].
  apply Forall_cons in Hfinite as [Hy Hfinite].
  unfold unit_row. cbn [length seq map]. rewrite dot_step.
  destruct (Nat.eqb_spec i off) as [->|Hne].
  - rewrite mul_one, Nat.sub_diag. cbn [nth].
    apply dot_unit_row_after; [lia|done].
  - destruct (mul_zero_finite y Hy) as [s Hs].
    assert (Hzero : (0 + 0 * y)%float = 0%float).
    { apply Prim2SF_inj. by rewrite add_zero_l, Hs. }
    rewrite Hzero.
    replace (i - off) with (S (i - S off)) by lia. cbn [nth].
    apply IH; [lia|simpl in Hi; lia|done].
Qed.

(** The identity matrix maps a vector of finite floats to itself, a
    zero of either sign becoming [0.0]. *)
Lemma matvec_identity v :
  Forall (λ y, PrimFloat.is_finite y = true) v →
  np.matvec (np.identity (length v)) v = map (λ x, (0 + x)%float) v.
Proof.
  intros Hfinite. unfold np.matvec, np.identity. rewrite map_map.
  apply list_eq. intros i. rewrite !list_lookup_fmap.
  destruct (decide (i < length v)) as [Hi|Hi].
  - rewrite lookup_seq_lt by done. simpl.
    destruct (lookup_lt_is_Some_2 v i Hi) as [x Hx]. rewrite Hx. simpl. f_equal.
    pose proof (dot_unit_row_before i v 0 ltac:(lia) ltac:(lia) Hfinite) as Hdot.
    rewrite Nat.sub_0_r, (nth_lookup_Some _ _ _ _ Hx) in Hdot. exact Hdot.
  - rewrite lookup_seq_ge by lia. by rewrite lookup_ge_None_2 by lia.
Qed.

End binary64.

(** * Physical voltages *)

(** C7, on binary64.  With the identity as correction matrix, which is
    what [__init__] installs, and no rounding in force, [actual_voltages]
    returns, for every vector of finite virtual voltages, a vector equal
    to it entry by entry as numbers: each entry [x] comes back as
    [0.0 + x], which is [x] itself unless [x] is [-0.0]. *)
Theorem identity_correction_is_noop (e : Arrangement_Context.env) :
  Arrangement_Context._correction (Arrangement_Context.self e)
    = np.identity (length (State.virtual e)) →
  Arrangement_Context.truthy (SPDac._round_off (Arrangement_Context._spdac e)) = false →
  Forall (λ x, PrimFloat.is_finite x = true) (State.virtual e) →
  Arrangement_Context.actual_voltages e = (Return (State.physical e), e) ∧
  State.physical e = map (λ x, (0 + x)%float) (State.virtual e) ∧
  Forall2 State.same_voltage (State.physical e) (State.virtual e) ∧
  (∀ contacts output_triggers internal_triggers outer picks d a d',
     NoDup contacts.*1 →
     Arrangement_Context.__init__ contacts output_triggers internal_triggers outer picks d
       = (Return a, d') →
     Arrangement_Context._correction a
       = np.identity (length (Arrangement_Context._virtual_voltages a))).
Proof.
  intros Hidentity Hround Hfinite.
  assert (Hphysical : State.physical e = map (λ x, (0 + x)%float) (State.virtual e)).
  { rewrite physical_eq. cbn zeta. rewrite Hround, Hidentity.
    by apply matvec_identity. }
  split; [apply actual_voltages_eq|]. split; [exact Hphysical|]. split.
  - rewrite Hphysical. apply Forall2_fmap_l, Forall_Forall2_diag.
    eapply Forall_impl; [exact Hfinite|]. intros x Hx. by apply add_zero_eqb.
  - intros contacts output_triggers internal_triggers outer picks d a d' Hnodup Hinit.
    destruct (init_Return _ _ _ _ _ _ _ _ Hnodup Hinit) as (_ & _ & -> & -> & _).
    unfold np.zeros. by rewrite repeat_length.
Qed.

Lemma identity_correction_is_noop_witness :
  let e := (Arrangement_Context.set_virtual_voltages
              [("a", 1.5%float); ("b", (-0.25)%float)] Example.ab).2 in
  Arrangement_Context._correction (Arrangement_Context.self e)
    = np.identity (length (State.virtual e)) ∧
  Arrangement_Context.truthy (SPDac._round_off (Arrangement_Context._spdac e)) = false ∧
  Forall (λ x, PrimFloat.is_finite x = true) (State.virtual e) ∧
  State.virtual e = [1.5; -0.25]%float ∧
  Forall2 State.same_voltage (State.physical e) (State.virtual e).
Proof.
  intros e.
  assert (H1 : Arrangement_Context._correction (Arrangement_Context.self e)
               = np.identity (length (State.virtual e))) by (by vm_compute).
  assert (H2 : Arrangement_Context.truthy
                 (SPDac._round_off (Arrangement_Context._spdac e)) = false)
    by (by vm_compute).
  assert (H3 : Forall (λ x, PrimFloat.is_finite x = true) (State.virtual e)).
  { change (State.virtual e) with [1.5; -0.25]%float. repeat constructor. }
  split; [exact H1|]. split; [exact H2|]. split; [exact H3|]. split; [by vm_compute|].
  exact (proj1 (proj2 (proj2 (identity_correction_is_noop e H1 H2 H3)))).
Defined.

(** C7 as stated, for every vector, fails on binary64: with an infinite
    voltage on one contact the identity matrix yields NaN for the other
    contact, since [0.0 * inf] is NaN. *)
Lemma identity_correction_infinite_voltage :
  let e := (Arrangement_Context.set_virtual_voltages
              [("a", infinity); ("b", 1%float)] Example.ab).2 in
  Arrangement_Context._correction (Arrangement_Context.self e) = np.identity 2 ∧
  SPDac._round_off (Arrangement_Context._spdac e) = None ∧
  State.virtual e = [infinity; 1%float] ∧
  Arrangement_Context.actual_voltages e = (Return [infinity; nan], e) ∧
  ¬ Forall2 State.same_voltage [infinity; nan] (State.virtual e) ∧
  State.physical e ≠ State.virtual e.
Proof.
  intros e.
  split; [by vm_compute|]. split; [by vm_compute|]. split; [by vm_compute|].
  split; [by vm_compute|]. split.
  - change (State.virtual e) with [infinity; 1%float]. intros H.
    apply Forall2_cons in H as [_ H]. apply Forall2_cons in H as [H _].
    vm_compute in H. discriminate H.
  - change (State.physical e) with [infinity; nan].
    change (State.virtual e) with [infinity; 1%float]. intros H.
    apply (f_equal (λ l, match l with
                         | [_; y] => PrimFloat.is_nan y
                         | _ => false
                         end)) in H.
    vm_compute in H. discriminate H.
Qed.

(** C8, as the code has it.  [actual_voltages] returns the product of
    the correction matrix and the virtual-voltage vector, one inner
    product per row; [np.round] with the configured number of decimals is
    applied to every element when [_round_off] is an integer other than
    0, and the product is returned unrounded when it is [None] or 0.
    [np.round] rounds halves to the even neighbour. *)
Theorem actual_voltages_rounding (e : Arrangement_Context.env) :
  let product := np.matvec (Arrangement_Context._correction (Arrangement_Context.self e))
                           (State.virtual e) in
  Arrangement_Context.actual_voltages e = (Return (State.physical e), e) ∧
  (∀ i row,
     Arrangement_Context._correction (Arrangement_Context.self e) !! i = Some row →
     product !! i = Some (np.dot row (State.virtual e))) ∧
  match SPDac._round_off (Arrangement_Context._spdac e) with
  | None => State.physical e = product
  | Some decimals =>
      if decide (decimals = 0%Z) then State.physical e = product
      else State.physical e = np.round product decimals ∧
           ∀ i, State.physical e !! i = np.round1 decimals <$> product !! i
  end ∧
  np.round [0.5; 1.5; 2.5; -0.5; -1.5; -2.5]%float 0 = [0; 2; 2; -0; -2; -2]%float ∧
  np.round [0.125; 0.375; 0.625]%float 2 = [0.12; 0.38; 0.62]%float ∧
  np.round [5; 15; 25]%float (-1) = [0; 20; 20]%float.
Proof.
  intros product. split; [apply actual_voltages_eq|]. split.
  - intros i row Hrow. unfold product, np.matvec.
    by rewrite list_lookup_fmap, Hrow.
  - split; [|by vm_compute]. rewrite physical_eq. cbn zeta. fold product.
    destruct (SPDac._round_off _) as [decimals|]; [|done].
    unfold Arrangement_Context.truthy. case_decide as Hd.
    + by rewrite Hd.
    + destruct (Z.eqb_spec decimals 0) as [?|_]; [done|]. cbn [negb default].
      split; [done|]. intros i. unfold np.round. by rewrite list_lookup_fmap.
Qed.

(** C8 as stated fails for a precision of 0 decimals: [_round_off = 0] is
    a configured precision, but the test [if self._spdac._round_off:]
    takes it for none and the product is returned unrounded. *)
Lemma rounding_precision_zero_is_ignored :
  let e := State.with_round_off (Some 0%Z)
             (Arrangement_Context.set_virtual_voltages [("a", 0.5%float)] Example.a).2 in
  let product := np.matvec (Arrangement_Context._correction (Arrangement_Context.self e))
                           (State.virtual e) in
  SPDac._round_off (Arrangement_Context._spdac e) = Some 0%Z ∧
  Arrangement_Context.actual_voltages e = (Return [0.5%float], e) ∧
  np.round product 0 = [0%float] ∧
  State.physical e ≠ np.round product 0.
Proof.
  intros e product.
  split; [by vm_compute|]. split; [by vm_compute|]. split; [by vm_compute|].
  change (State.physical e) with [0.5%float].
  change (np.round product 0) with [0%float]. intros H.
  apply (f_equal (λ l, match l with
                       | [x] => PrimFloat.is_zero x
                       | _ => false
                       end)) in H.
  vm_compute in H. discriminate H.
Qed.

(** * Further properties: setting one virtual voltage *)

(** X1.  For a contact of the arrangement, [set_virtual_voltage] first
    stores the voltage at the contact's index and then writes the physical
    voltages of the new vector, channel by channel.  The vector holds the
    new voltage whatever the outcome, also when a channel rejects its
    voltage; what was written is a leading segment of the channels' mode
    and voltage commands, all of them on success. *)
Theorem set_virtual_voltage_stores_then_writes
    (e : Arrangement_Context.env) (contact : string) (index : nat) (voltage : float) :
  Arrangement_Context._contacts (Arrangement_Context.self e) !! contact = Some index →
  index < length (State.virtual e) →
  let channels := Arrangement_Context._channels (Arrangement_Context.self e) in
  ∃ r e' k,
    Arrangement_Context.set_virtual_voltage contact voltage e = (r, e') ∧
    State.virtual e' = <[index := voltage]> (State.virtual e) ∧
    State.only_written (State.with_virtual_voltages (State.virtual e') e) e' ∧
    State.written e'
      = State.written e ++ State.voltage_writes (take k channels) (State.physical e') ∧
    (r = Return tt →
       length channels ≤ length (State.physical e') ∧
       State.written e'
         = State.written e ++ State.voltage_writes channels (State.physical e')).
Proof.
  intros Hc Hi channels.
  unfold Arrangement_Context.set_virtual_voltage,
    Arrangement_Context._effectuate_virtual_voltage.
  set (e1 := State.with_virtual_voltages (<[index := voltage]> (State.virtual e)) e).
  destruct (_effectuate_virtual_voltages_written e1)
    as (r & e' & k & Hrun & Hframe & Hw & Hret).
  assert (Hvirtual : State.virtual e' = <[index := voltage]> (State.virtual e)).
  { destruct Hframe as (Hs & _). unfold State.virtual. by rewrite Hs. }
  pose proof (only_written_physical _ _ Hframe) as Hphys.
  exists r, e', k. split.
  { erewrite bind_Return; last first.
    { unfold try_except. by rewrite (_contact_index_Some _ _ _ Hc). }
    erewrite bind_Return; [|by apply store_virtual_voltage_lt]. exact Hrun. }
  split; [exact Hvirtual|]. split; [by rewrite Hvirtual|]. rewrite Hphys.
  split; [exact Hw|]. intros Hr. destruct (Hret Hr) as [-> Hlen].
  split; [exact Hlen|]. by rewrite Hw, firstn_all.
Qed.

Lemma set_virtual_voltage_stores_then_writes_witness :
  (let run := Arrangement_Context.set_virtual_voltage "b" 2.5 Example.ab_corrected in
   run.1 = Return tt ∧
   State.virtual run.2 = [0; 2.5]%float ∧
   State.written run.2
     = [sour_volt_mode_fix 1; sour_volt 1 1.25; sour_volt_mode_fix 2; sour_volt 2 2.5]) ∧
  (let run := Arrangement_Context.set_virtual_voltage "a" 11 Example.ab in
   run.1 = Raise ValueError ∧
   State.virtual run.2 = [11; 0]%float ∧
   State.written run.2 = []).
Proof.
  split.
  - assert (Hc : Arrangement_Context._contacts
                   (Arrangement_Context.self Example.ab_corrected) !! "b" = Some 1)
      by (by vm_compute).
    assert (Hi : 1 < length (State.virtual Example.ab_corrected)) by (vm_compute; lia).
    destruct (set_virtual_voltage_stores_then_writes Example.ab_corrected "b" 1 2.5 Hc Hi)
      as (r & e' & k & Hrun & Hv & _ & _ & Hret).
    intros run. subst run. rewrite Hrun. cbn [fst snd].
    assert (Hr : r = Return tt).
    { apply (f_equal fst) in Hrun. cbn [fst] in Hrun. rewrite <- Hrun. by vm_compute. }
    assert (He : e' = (Arrangement_Context.set_virtual_voltage "b" 2.5
                         Example.ab_corrected).2) by (by rewrite Hrun).
    destruct (Hret Hr) as [_ Hw].
    split; [exact Hr|]. split; [rewrite Hv; by vm_compute|].
    rewrite Hw, He. by vm_compute.
  - assert (Hc : Arrangement_Context._contacts
                   (Arrangement_Context.self Example.ab) !! "a" = Some 0)
      by (by vm_compute).
    assert (Hi : 0 < length (State.virtual Example.ab)) by (vm_compute; lia).
    destruct (set_virtual_voltage_stores_then_writes Example.ab "a" 0 11 Hc Hi)
      as (r & e' & k & Hrun & Hv & _ & _ & _).
    intros run. subst run. rewrite Hrun. cbn [fst snd].
    assert (He : e' = (Arrangement_Context.set_virtual_voltage "a" 11 Example.ab).2)
      by (by rewrite Hrun).
    split; [|split].
    + apply (f_equal fst) in Hrun. cbn [fst] in Hrun. rewrite <- Hrun. by vm_compute.
    + rewrite Hv. by vm_compute.
    + rewrite He. by vm_compute.
Defined.

(** * Further properties: two-dimensional sweeps *)

Section sweep_2d.

Import Arrangement_Context State.

Implicit Types (e : env) (v w : list float) (inner outer : nat).

(** Two assignments at [inner] and [outer] hide what a vector held
    there before. *)
Lemma insert_both_agree inner outer w v :
  (∀ x, <[inner := x]> w = <[inner := x]> v) →
  ∀ x y, <[inner := x]> (<[outer := y]> w) = <[inner := x]> (<[outer := y]> v).
Proof.
  intros H x y. destruct (decide (inner = outer)) as [->|Hne].
  - by rewrite !list_insert_insert_eq.
  - by rewrite !(list_insert_insert_ne _ inner outer), H.
Qed.

(** The nested loops of [_calculate_2d_values]: every row is computed
    with both swept entries set in the vector the loops started from. *)
Lemma sweep_2d_loop e inner outer v0 inner_voltages outer_voltages : ∀ w,
  inner < length v0 → outer < length v0 →
  length w = length v0 →
  (∀ x y, <[inner := x]> (<[outer := y]> w) = <[inner := x]> (<[outer := y]> v0)) →
  ∃ w', length w' = length v0 ∧
        (∀ x y, <[inner := x]> (<[outer := y]> w')
                = <[inner := x]> (<[outer := y]> v0)) ∧
        comprehension outer_voltages
          (λ slow_V,
             do_ store_virtual_voltage outer slow_V;
             comprehension inner_voltages
               (λ fast_V, do_ store_virtual_voltage inner fast_V; actual_voltages))
          (with_virtual_voltages w e)
        = (Return
             (map (λ slow_V,
                     map (λ fast_V,
                            physical (with_virtual_voltages
                                        (<[inner := fast_V]> (<[outer := slow_V]> v0)) e))
                         inner_voltages)
                  outer_voltages),
           with_virtual_voltages w' e).
Proof.
  induction outer_voltages as [|y outer_voltages IH]; intros w Hi Ho Hlen Hw.
  - exists w. by repeat split.
  - destruct (sweep_loop e inner (<[outer := y]> w) inner_voltages (<[outer := y]> w))
      as (w1 & Hlen1 & Hw1 & Hrun1); [by rewrite length_insert, Hlen|done..|].
    rewrite length_insert in Hlen1.
    destruct (IH w1) as (w' & Hlen' & Hw' & Hrun); [done|done|lia| |].
    { intros x y'. rewrite (insert_both_agree _ _ _ _ Hw1).
      destruct (decide (inner = outer)) as [->|Hne].
      - rewrite !list_insert_insert_eq.
        specialize (Hw x y). by rewrite !list_insert_insert_eq in Hw.
      - rewrite !(list_insert_insert_ne _ inner outer) by done.
        rewrite !list_insert_insert_eq.
        rewrite <- !(list_insert_insert_ne _ inner outer) by done.
        specialize (Hw x y').
        by rewrite !(list_insert_insert_ne _ inner outer) in * by done. }
    exists w'. repeat split; [done..|].
    cbn [comprehension].
    erewrite bind_Return; last first.
    { erewrite bind_Return; last first.
      { apply store_virtual_voltage_lt. cbn. lia. }
      cbn [virtual with_virtual_voltages self set_virtual_voltages_attr
           _virtual_voltages].
      rewrite with_virtual_voltages_twice. exact Hrun1. }
    erewrite bind_Return; [|exact Hrun]. unfold ret. cbn [map]. do 3 f_equal.
    apply map_ext. intros x. by rewrite Hw.
Qed.

Lemma _calculate_2d_values_Return e inner_contact outer_contact inner outer
    inner_voltages outer_voltages :
  _contacts (self e) !! inner_contact = Some inner →
  _contacts (self e) !! outer_contact = Some outer →
  inner < length (virtual e) → outer < length (virtual e) →
  Arrangement_2d._calculate_2d_values inner_contact inner_voltages
    outer_contact outer_voltages e
  = (Return
       (concat
          (map (λ slow_V,
                  map (λ fast_V,
                         physical (with_virtual_voltages
                                     (<[inner := fast_V]>
                                        (<[outer := slow_V]> (virtual e))) e))
                      inner_voltages)
               outer_voltages)), e).
Proof.
  intros Hci Hco Hi Ho.
  destruct (lookup_lt_is_Some_2 _ _ Hi) as [x0 Hx0].
  destruct (lookup_lt_is_Some_2 _ _ Ho) as [y0 Hy0].
  unfold Arrangement_2d._calculate_2d_values.
  erewrite bind_Return; [|by eapply virtual_voltage_Some].
  erewrite bind_Return; [|by eapply virtual_voltage_Some].
  erewrite bind_Return; [|by apply _contact_index_Some].
  erewrite bind_Return; [|by apply _contact_index_Some].
  destruct (sweep_2d_loop e inner outer (virtual e) inner_voltages outer_voltages
              (virtual e)) as (w' & Hlen' & Hw' & Hrun); [done..|].
  rewrite with_virtual_voltages_id in Hrun.
  erewrite bind_Return; [|exact Hrun].
  erewrite bind_Return; last first.
  { apply store_virtual_voltage_lt. cbn. lia. }
  erewrite bind_Return; last first.
  { apply store_virtual_voltage_lt. cbn. rewrite length_insert. lia. }
  cbn [virtual with_virtual_voltages self set_virtual_voltages_attr _virtual_voltages].
  rewrite !with_virtual_voltages_twice.
  replace (<[outer := y0]> (<[inner := x0]> w')) with (virtual e);
    [by rewrite with_virtual_voltages_id|].
  destruct (decide (inner = outer)) as [->|Hne].
  - assert (x0 = y0) as -> by congruence.
    specialize (Hw' y0 y0). rewrite !list_insert_insert_eq in *.
    rewrite Hw'. by rewrite list_insert_id.
  - rewrite list_insert_insert_ne by done. rewrite Hw'.
    by rewrite (list_insert_id _ outer y0), list_insert_id.
Qed.

End sweep_2d.

(** X2.  For two contacts of the arrangement, [_calculate_2d_values]
    returns one row of physical voltages for every pair of an outer and an
    inner voltage, the rows of one outer voltage next to each other and in
    the order of the inner voltages; each row is computed with the two
    contacts at that pair and all other virtual voltages as they were.  The
    arrangement ends in the state it started from, also when the inner and
    the outer contact are the same one. *)
Theorem calculate_2d_values_rows
    (e : Arrangement_Context.env) (inner_contact outer_contact : string)
    (inner outer : nat) (inner_voltages outer_voltages : list float) :
  Arrangement_Context._contacts (Arrangement_Context.self e) !! inner_contact = Some inner →
  Arrangement_Context._contacts (Arrangement_Context.self e) !! outer_contact = Some outer →
  inner < length (State.virtual e) →
  outer < length (State.virtual e) →
  ∃ rows,
    Arrangement_2d._calculate_2d_values inner_contact inner_voltages
      outer_contact outer_voltages e = (Return rows, e) ∧
    length rows = length outer_voltages * length inner_voltages ∧
    ∀ i j slow_V fast_V,
      outer_voltages !! i = Some slow_V →
      inner_voltages !! j = Some fast_V →
      rows !! (i * length inner_voltages + j)
        = Some (State.physical
                  (State.with_virtual_voltages
                     (<[inner := fast_V]> (<[outer := slow_V]> (State.virtual e))) e)).
Proof.
  intros Hci Hco Hi Ho. eexists. split.
  { by eapply _calculate_2d_values_Return. }
  set (row := λ slow_V fast_V,
         State.physical
           (State.with_virtual_voltages
              (<[inner := fast_V]> (<[outer := slow_V]> (State.virtual e))) e)).
  change (length (concat (map (λ slow_V, map (row slow_V) inner_voltages) outer_voltages))
          = length outer_voltages * length inner_voltages ∧
          ∀ i j slow_V fast_V,
            outer_voltages !! i = Some slow_V →
            inner_voltages !! j = Some fast_V →
            concat (map (λ slow_V, map (row slow_V) inner_voltages) outer_voltages)
              !! (i * length inner_voltages + j) = Some (row slow_V fast_V)).
  clearbody row. clear. split.
  - induction outer_voltages as [|y l IH]; [done|].
    cbn [map concat]. rewrite length_app, length_map, IH. simpl. lia.
  - induction outer_voltages as [|y l IH]; intros i j slow_V fast_V Hslow Hfast; [done|].
    cbn [map concat]. destruct i as [|i].
    + injection Hslow as ->. simpl.
      rewrite lookup_app_l by (rewrite length_map; by eapply lookup_lt_Some).
      by rewrite list_lookup_fmap, Hfast.
    + rewrite lookup_app_r by (rewrite length_map; simpl; lia).
      rewrite length_map.
      replace (S i * length inner_voltages + j - length inner_voltages)
        with (i * length inner_voltages + j) by (simpl; lia).
      by apply IH.
Qed.

Lemma calculate_2d_values_rows_witness :
  Arrangement_2d._calculate_2d_values "b" [1; 2]%float "a" [0; 4]%float
    Example.ab_corrected
  = (Return [[0.5; 1]; [1; 2]; [4.5; 1]; [5; 2]]%float, Example.ab_corrected).
Proof.
  assert (Hci : Arrangement_Context._contacts
                  (Arrangement_Context.self Example.ab_corrected) !! "b" = Some 1)
    by (by vm_compute).
  assert (Hco : Arrangement_Context._contacts
                  (Arrangement_Context.self Example.ab_corrected) !! "a" = Some 0)
    by (by vm_compute).
  assert (Hi : 1 < length (State.virtual Example.ab_corrected)) by (vm_compute; lia).
  assert (Ho : 0 < length (State.virtual Example.ab_corrected)) by (vm_compute; lia).
  destruct (calculate_2d_values_rows Example.ab_corrected "b" "a" 1 0
              [1; 2]%float [0; 4]%float Hci Hco Hi Ho) as (rows & Hrun & _ & _).
  rewrite Hrun. f_equal.
  apply (f_equal fst) in Hrun. cbn [fst] in Hrun. rewrite <- Hrun. by vm_compute.
Defined.

(** * Further properties: rows of the correction matrix *)

Section correction_rows.

Import Arrangement_Context State.

Implicit Types (e : env) (factors row : list float) (index : nat).

(** [m[index] = factors] on a matrix with rows of length [n]. *)
Lemma setrow_cases index factors (m : list (list float)) n :
  index < length m →
  Forall (λ row, length row = n) m →
  np.setrow index factors m =
    if decide (length factors = n) then Return (<[index := factors]> m)
    else match factors with
         | [x] => Return (<[index := repeat x n]> m)
         | _ => Raise ValueError
         end.
Proof.
  intros Hi Hrows. unfold np.setrow.
  destruct (lookup_lt_is_Some_2 m index Hi) as [row Hrow]. rewrite Hrow.
  rewrite Forall_lookup in Hrows. by rewrite (Hrows _ _ Hrow).
Qed.

(** Replacing a row of the matrix replaces one physical voltage. *)
Lemma physical_with_row index row e :
  physical (with_correction (<[index := row]> (_correction (self e))) e)
  = <[index := let x := np.dot row (virtual e) in
               if truthy (SPDac._round_off (_spdac e))
               then np.round1 (default 0%Z (SPDac._round_off (_spdac e))) x
               else x]> (physical e).
Proof.
  rewrite !physical_eq. cbn [with_correction self _spdac set_correction_attr _correction
                             virtual _virtual_voltages].
  fold (virtual e). cbn zeta. unfold np.matvec, np.round.
  destruct (truthy _); by rewrite ?list_fmap_insert.
Qed.

End correction_rows.

(** X3.  On a well-formed arrangement [initiate_correction] overwrites the
    row of the contact in the correction matrix and nothing else: with as
    many factors as contacts the row becomes the factors, a single factor
    is repeated over the row.  From then on only the physical voltage of
    that contact is computed differently, as the inner product of the row
    and the virtual voltages (rounded when a rounding precision is in
    force).  Any other number of factors raises [ValueError], an unknown
    contact raises [KeyError], and both leave the state as it was. *)
Theorem initiate_correction_replaces_row
    (e : Arrangement_Context.env) (contact : string) (factors : list float) :
  State.well_formed (Arrangement_Context.self e) →
  let n := size (Arrangement_Context._contacts (Arrangement_Context.self e)) in
  let M := Arrangement_Context._correction (Arrangement_Context.self e) in
  let round_off := SPDac._round_off (Arrangement_Context._spdac e) in
  let rounded x := if Arrangement_Context.truthy round_off
                   then np.round1 (default 0%Z round_off) x else x in
  let replaced index row :=
    Arrangement_Context.initiate_correction contact factors e
      = (Return tt, State.with_correction (<[index := row]> M) e) ∧
    State.physical (State.with_correction (<[index := row]> M) e)
      = <[index := rounded (np.dot row (State.virtual e))]> (State.physical e) ∧
    State.well_formed
      (Arrangement_Context.self (State.with_correction (<[index := row]> M) e)) in
  (Arrangement_Context._contacts (Arrangement_Context.self e) !! contact = None →
     Arrangement_Context.initiate_correction contact factors e = (Raise KeyError, e)) ∧
  (∀ index,
     Arrangement_Context._contacts (Arrangement_Context.self e) !! contact = Some index →
     (length factors = n → replaced index factors) ∧
     (∀ x, factors = [x] → replaced index (repeat x n)) ∧
     (length factors ≠ n → length factors ≠ 1 →
        Arrangement_Context.initiate_correction contact factors e
          = (Raise ValueError, e))).
Proof.
  intros (Hv & Hch & Hm & Hrows & Hidx) n M round_off rounded replaced.
  fold n in Hv, Hch, Hm, Hrows. split.
  { intros Hc. unfold Arrangement_Context.initiate_correction.
    erewrite bind_Raise; [done|]. by apply _contact_index_None. }
  intros index Hc. pose proof (Hidx _ _ Hc) as Hi. fold n in Hi.
  assert (Hrun : Arrangement_Context.initiate_correction contact factors e
                 = match np.setrow index factors M with
                   | Return c' => (Return tt, State.with_correction c' e)
                   | Raise x => (Raise x, e)
                   end).
  { unfold Arrangement_Context.initiate_correction.
    erewrite bind_Return; [|by apply _contact_index_Some].
    unfold bind, Arrangement_Context.attr, lift. fold M.
    by destruct (np.setrow index factors M). }
  assert (HiM : index < length M) by (unfold M; rewrite Hm; exact Hi).
  rewrite (setrow_cases index factors M n HiM Hrows) in Hrun.
  assert (Hreplaced : ∀ row, length row = n →
            Arrangement_Context.initiate_correction contact factors e
              = (Return tt, State.with_correction (<[index := row]> M) e) →
            replaced index row).
  { intros row Hrow Heq. split; [exact Heq|]. split.
    - apply physical_with_row.
    - unfold State.well_formed. cbn. fold n M.
      split; [done|]. split; [done|]. split; [by rewrite length_insert|].
      split; [|done]. by apply Forall_insert. }
  split; [|split].
  - intros Hlen. apply Hreplaced; [done|]. by rewrite decide_True in Hrun.
  - intros x ->. apply Hreplaced; [by rewrite repeat_length|].
    destruct (decide (length [x] = n)) as [Hone|Hne]; [|done].
    rewrite Hrun. simpl in Hone. by rewrite <- Hone.
  - intros Hne Hne1. rewrite decide_False in Hrun by done.
    destruct factors as [|x [|y factors]]; done.
Qed.

Lemma initiate_correction_replaces_row_witness :
  State.well_formed (Arrangement_Context.self Example.ab) ∧
  (let e' := (Arrangement_Context.initiate_correction "b" [0.25; 1]%float Example.ab).2 in
   Arrangement_Context._correction (Arrangement_Context.self e') = [[1; 0]; [0.25; 1]]%float) ∧
  (let e' := (Arrangement_Context.initiate_correction "b" [0.5]%float Example.ab).2 in
   Arrangement_Context._correction (Arrangement_Context.self e')
     = [[1; 0]; [0.5; 0.5]]%float) ∧
  Arrangement_Context.initiate_correction "b" [1; 2; 3]%float Example.ab
    = (Raise ValueError, Example.ab) ∧
  Arrangement_Context.initiate_correction "c" [1; 2]%float Example.ab
    = (Raise KeyError, Example.ab).
Proof.
  pose proof (initiate_correction_replaces_row Example.ab "b" [0.25; 1]%float
                ab_well_formed) as [_ H1].
  pose proof (initiate_correction_replaces_row Example.ab "b" [0.5]%float
                ab_well_formed) as [_ H2].
  pose proof (initiate_correction_replaces_row Example.ab "b" [1; 2; 3]%float
                ab_well_formed) as [_ H3].
  pose proof (initiate_correction_replaces_row Example.ab "c" [1; 2]%float
                ab_well_formed) as [H4 _].
  assert (Hb : Arrangement_Context._contacts (Arrangement_Context.self Example.ab)
                 !! "b" = Some 1) by (by vm_compute).
  split; [exact ab_well_formed|]. split; [|split; [|split]].
  - destruct (H1 1 Hb) as ((Hrun & _) & _); [by vm_compute|].
    intros e'. subst e'. rewrite Hrun. by vm_compute.
  - destruct (H2 1 Hb) as (_ & Hone & _).
    destruct (Hone 0.5%float eq_refl) as (Hrun & _).
    intros e'. subst e'. rewrite Hrun. by vm_compute.
  - destruct (H3 1 Hb) as (_ & _ & Hbad). apply Hbad; by vm_compute.
  - apply H4. by vm_compute.
Defined.

(** X4.  [add_correction] checks its arguments before it touches the
    correction matrix: a name that is no contact raises [KeyError] (not
    the [ValueError] of [set_virtual_voltage]), and a number of factors
    that is neither the number of contacts nor one raises [ValueError];
    in both cases the state is as before.  A single factor stands for a
    row of that factor in every column. *)
Theorem add_correction_rejects_or_broadcasts
    (e : Arrangement_Context.env) (contact : string) (factors : list float) :
  State.well_formed (Arrangement_Context.self e) →
  let n := size (Arrangement_Context._contacts (Arrangement_Context.self e)) in
  (Arrangement_Context._contacts (Arrangement_Context.self e) !! contact = None →
     Arrangement_Context.add_correction contact factors e = (Raise KeyError, e)) ∧
  (∀ index,
     Arrangement_Context._contacts (Arrangement_Context.self e) !! contact = Some index →
     (length factors ≠ n → length factors ≠ 1 →
        Arrangement_Context.add_correction contact factors e = (Raise ValueError, e)) ∧
     (∀ x, factors = [x] →
        Arrangement_Context.add_correction contact [x] e
          = Arrangement_Context.add_correction contact (repeat x n) e)).
Proof.
  intros (Hv & Hch & Hm & Hrows & Hidx) n. split.
  { intros Hc. unfold Arrangement_Context.add_correction.
    erewrite bind_Raise; [done|]. by apply _contact_index_None. }
  intros index Hc. pose proof (Hidx _ _ Hc) as Hi. fold n in Hi.
  assert (Hrun : ∀ fs, Arrangement_Context.add_correction contact fs e
                 = match np.setrow index fs (np.identity n) with
                   | Return multiplier =>
                       (Return tt,
                        State.with_correction
                          (np.matmul multiplier
                             (Arrangement_Context._correction (Arrangement_Context.self e))) e)
                   | Raise x => (Raise x, e)
                   end).
  { intros fs. unfold Arrangement_Context.add_correction.
    erewrite bind_Return; [|by apply _contact_index_Some].
    unfold bind, Arrangement_Context.shape, Arrangement_Context.attr, lift. fold n.
    by destruct (np.setrow index fs (np.identity n)). }
  assert (Hset : ∀ fs, np.setrow index fs (np.identity n) = _) by
    (intros fs; apply (setrow_cases index fs (np.identity n) n);
     [by rewrite identity_length|apply identity_rows]).
  split.
  - intros Hne Hne1. rewrite Hrun, Hset, decide_False by done.
    destruct factors as [|x [|y factors]]; done.
  - intros x _. rewrite !Hrun, !Hset. rewrite (decide_True (P := length (repeat x n) = n))
      by apply repeat_length.
    destruct (decide (length [x] = n)) as [Hone|Hne]; [|done].
    simpl in Hone. by rewrite <- Hone.
Qed.

Lemma add_correction_rejects_or_broadcasts_witness :
  State.well_formed (Arrangement_Context.self Example.ab) ∧
  Arrangement_Context.add_correction "c" [1; 2]%float Example.ab
    = (Raise KeyError, Example.ab) ∧
  Arrangement_Context.add_correction "a" []%float Example.ab
    = (Raise ValueError, Example.ab) ∧
  Arrangement_Context._correction
    (Arrangement_Context.self
       (Arrangement_Context.add_correction "a" [0.5]%float Example.ab).2)
    = [[0.5; 0.5]; [0; 1]]%float.
Proof.
  pose proof (add_correction_rejects_or_broadcasts Example.ab "c" [1; 2]%float
                ab_well_formed) as [H1 _].
  pose proof (add_correction_rejects_or_broadcasts Example.ab "a" []%float
                ab_well_formed) as [_ H2].
  pose proof (add_correction_rejects_or_broadcasts Example.ab "a" [0.5]%float
                ab_well_formed) as [_ H3].
  assert (Ha : Arrangement_Context._contacts (Arrangement_Context.self Example.ab)
                 !! "a" = Some 0) by (by vm_compute).
  split; [exact ab_well_formed|]. split; [|split].
  - apply H1. by vm_compute.
  - destruct (H2 0 Ha) as [Hbad _]. apply Hbad; by vm_compute.
  - destruct (H3 0 Ha) as [_ Hone]. rewrite (Hone 0.5%float eq_refl). by vm_compute.
Defined.

(** * Further properties: the triggers of an arrangement *)

Section dicts.

Context {V : Type}.

Implicit Types (d : list (string * V)) (k : string) (v : V).

Lemma dict_set_fresh k v d : k ∉ d.*1 → dict_set k v d = d ++ [(k, v)].
Proof.
  induction d as [|[k' v'] d IH]; intros Hk; [done|].
  cbn [dict_set]. rewrite decide_False by set_solver.
  cbn [app]. f_equal. apply IH. set_solver.
Qed.

Lemma dict_get_zip (ks : list string) (vs : list V) i k v :
  NoDup ks → ks !! i = Some k → vs !! i = Some v →
  dict_get k (zip ks vs) = Some v.
Proof.
  revert vs i. induction ks as [|k' ks IH]; intros vs i Hnodup Hk Hv; [done|].
  apply NoDup_cons in Hnodup as [Hnotin Hnodup].
  destruct vs as [|v' vs]; [done|]. destruct i as [|i]; simpl in *.
  - injection Hk as ->. injection Hv as ->. by rewrite decide_True.
  - rewrite decide_False; [by eapply IH|].
    intros ->. apply Hnotin. by eapply list_elem_of_lookup_2.
Qed.

End dicts.

Section allocation_loops.

Import Arrangement_Context State Allocation.

Implicit Types (e : env) (n : Z) (ns : list Z).

Lemma pool_non_empty (s : gset Z) : s ≠ ∅ ↔ 0 < size s.
Proof.
  rewrite <- Nat.neq_0_lt_0. split; intros H E; apply H.
  - by apply size_empty_iff, leibniz_equiv in E.
  - by rewrite E, size_empty.
Qed.

Lemma size_pool_remove (s : gset Z) n : n ∈ s → size (s ∖ {[n]}) = size s - 1.
Proof. intros Hn. rewrite size_difference by set_solver. by rewrite size_singleton. Qed.

Section loop.

Context {A : Type} (body : A → M env unit) (step : A → Z → env → env).

Hypothesis body_empty : ∀ x e,
  pool e = ∅ → ∃ e', body x e = (Raise ValueError, e') ∧ pool e' = ∅.
Hypothesis body_member : ∀ x e,
  pool e ≠ ∅ → ∃ n, n ∈ pool e ∧ body x e = (Return tt, step x n e).
Hypothesis step_pool : ∀ x n e, pool (step x n e) = pool e ∖ {[n]}.

(** A loop that allocates once per round fails when it runs out of
    triggers, and has taken them all by then. *)
Lemma allocation_loop_fails (l : list A) : ∀ e,
  size (pool e) < length l →
  ∃ e', for_each l body e = (Raise ValueError, e') ∧ pool e' = ∅.
Proof.
  induction l as [|x l IH]; intros e Hlt; [simpl in Hlt; lia|].
  destruct (decide (pool e = ∅)) as [Hempty|Hne].
  - destruct (body_empty x e Hempty) as (e' & Hbody & Hpool).
    exists e'. split; [|done]. cbn [for_each]. by erewrite bind_Raise.
  - destruct (body_member x e Hne) as (n & Hn & Hbody).
    destruct (IH (step x n e)) as (e' & Hrun & Hpool).
    { rewrite step_pool, size_pool_remove by done.
      apply pool_non_empty in Hne. simpl in Hlt. lia. }
    exists e'. split; [|done]. cbn [for_each]. by erewrite bind_Return.
Qed.

(** With enough free triggers it returns, having taken one id per
    round, all different. *)
Lemma allocation_loop_succeeds (l : list A) : ∀ e,
  length l ≤ size (pool e) →
  ∃ ns, length ns = length l ∧ NoDup ns ∧ (∀ n, n ∈ ns → n ∈ pool e) ∧
        let e' := fold_left (λ e xn, step xn.1 xn.2 e) (zip l ns) e in
        for_each l body e = (Return tt, e') ∧
        pool e' = pool e ∖ list_to_set ns.
Proof.
  induction l as [|x l IH]; intros e Hle.
  { exists []. repeat split; [constructor|set_solver|]. simpl. set_solver. }
  assert (Hne : pool e ≠ ∅) by (apply pool_non_empty; simpl in Hle; lia).
  destruct (body_member x e Hne) as (n & Hn & Hbody).
  destruct (IH (step x n e)) as (ns & Hlen & Hnodup & Hin & Hrun & Hpool).
  { rewrite step_pool, size_pool_remove by done. simpl in Hle. lia. }
  exists (n :: ns). split; [simpl; lia|]. split.
  { apply NoDup_cons. split; [|done]. intros Hmem.
    apply Hin in Hmem. rewrite step_pool in Hmem. set_solver. }
  split.
  { intros m Hm. apply elem_of_cons in Hm as [->|Hm]; [done|].
    apply Hin in Hm. rewrite step_pool in Hm. set_solver. }
  cbn [zip zip_with fold_left fst snd for_each]. split.
  - by erewrite bind_Return.
  - rewrite Hpool, step_pool. set_solver.
Qed.

End loop.

(** *** One round of each loop *)

(** The bodies of the loops of [_allocate_internal_triggers] and of
    [_allocate_external_triggers]. *)
Local Abbreviation internal_body :=
  (λ '(name, pick),
     do trigger <- on_spdac (SPDac.allocate_trigger pick);
     on_self (λ a, set_internal_triggers_attr
                     (dict_set name trigger (_internal_triggers a)) a)).

Local Abbreviation external_body :=
  (λ '((name, port), pick),
     do_ on_self (λ a, set_external_triggers_attr
                         (dict_set name port (_external_triggers a)) a);
     do trigger <- on_spdac (SPDac.allocate_trigger pick);
     do_ on_spdac (SPDac.connect_external_trigger port trigger width_s_default);
     on_self (λ a, set_internal_triggers_attr
                     (dict_set name trigger (_internal_triggers a)) a)).

Lemma on_spdac_allocate_empty pick e :
  pool e = ∅ →
  on_spdac (SPDac.allocate_trigger pick) e = (Raise ValueError, e).
Proof.
  intros Hempty. unfold on_spdac, zoom.
  rewrite (allocate_trigger_empty pick (_spdac e) Hempty). by destruct e.
Qed.

Lemma on_spdac_allocate_member pick e :
  pool e ≠ ∅ →
  ∃ n, n ∈ pool e ∧
       on_spdac (SPDac.allocate_trigger pick) e
       = (Return {| value := n |},
          {| self := self e;
             _spdac := SPDac.set_internal_triggers (pool e ∖ {[n]}) (_spdac e) |}).
Proof.
  intros Hne. destruct (allocate_trigger_member pick (_spdac e) Hne) as (n & Hn & Hrun).
  exists n. split; [done|]. unfold on_spdac, zoom. by rewrite Hrun.
Qed.

Lemma internal_body_empty
    (x : string * nat) e :
  pool e = ∅ → ∃ e', internal_body x e = (Raise ValueError, e') ∧ pool e' = ∅.
Proof.
  intros Hempty. destruct x as [name pick]. exists e. split; [|done].
  erewrite bind_Raise; [done|]. by apply on_spdac_allocate_empty.
Qed.

Lemma internal_body_member
    (x : string * nat) e :
  pool e ≠ ∅ → ∃ n, n ∈ pool e ∧ internal_body x e = (Return tt, internal_step x.1 n e).
Proof.
  intros Hne. destruct x as [name pick].
  destruct (on_spdac_allocate_member pick e Hne) as (n & Hn & Hrun).
  exists n. split; [done|]. erewrite bind_Return; [|exact Hrun]. reflexivity.
Qed.

Lemma external_body_empty
    (x : string * Z * nat) e :
  pool e = ∅ → ∃ e', external_body x e = (Raise ValueError, e') ∧ pool e' = ∅.
Proof.
  intros Hempty. destruct x as [[name port] pick]. eexists. split.
  - erewrite bind_Return; [|reflexivity].
    erewrite bind_Raise; [done|]. by apply on_spdac_allocate_empty.
  - done.
Qed.

Lemma external_body_member
    (x : string * Z * nat) e :
  pool e ≠ ∅ →
  ∃ n, n ∈ pool e ∧ external_body x e = (Return tt, external_step x.1.1 x.1.2 n e).
Proof.
  intros Hne. destruct x as [[name port] pick].
  set (e1 := {| self := set_external_triggers_attr
                          (dict_set name port (_external_triggers (self e))) (self e);
                _spdac := _spdac e |}).
  destruct (on_spdac_allocate_member pick e1 Hne) as (n & Hn & Hrun).
  exists n. split; [done|]. erewrite bind_Return; [|reflexivity]. fold e1.
  erewrite bind_Return; [|exact Hrun]. reflexivity.
Qed.

(** *** What the rounds add up to *)

Lemma with_picks_length {X} (l : list X) : ∀ picks, length (with_picks l picks) = length l.
Proof. induction l as [|x l IH]; intros picks; simpl; [done|]. by rewrite IH. Qed.

Lemma internal_steps (names : list string) : ∀ picks ns e,
  NoDup names →
  (∀ name, name ∈ names → name ∉ (_internal_triggers (self e)).*1) →
  length ns = length names →
  let e' := fold_left (λ e (xn : string * nat * Z), internal_step xn.1.1 xn.2 e)
                      (zip (with_picks names picks) ns) e in
  _internal_triggers (self e')
    = _internal_triggers (self e) ++ zip names (map Build_SPDacTrigger_Context ns) ∧
  _external_triggers (self e') = _external_triggers (self e) ∧
  written e' = written e.
Proof.
  induction names as [|name names IH]; intros picks ns e Hnodup Hfresh Hlen.
  { simpl. by rewrite app_nil_r. }
  destruct ns as [|n ns]; [done|].
  apply NoDup_cons in Hnodup as [Hnotin Hnodup].
  cbn [with_picks zip zip_with fold_left fst snd].
  assert (Hdict : _internal_triggers (self (internal_step name n e))
                  = _internal_triggers (self e) ++ [(name, {| value := n |})]).
  { cbn. apply dict_set_fresh, Hfresh. set_solver. }
  destruct (IH (tl picks) ns (internal_step name n e)) as (Hint & Hext & Hw).
  - done.
  - intros k Hk. rewrite Hdict, fmap_app. cbn.
    rewrite elem_of_app, list_elem_of_singleton. intros [Hold| ->]; [|done].
    revert Hold. apply Hfresh. set_solver.
  - simpl in Hlen. lia.
  - cbn zeta in *. rewrite Hint, Hext, Hw, Hdict, <- app_assoc. done.
Qed.

Lemma external_steps (items : list (string * Z)) : ∀ picks ns e,
  NoDup items.*1 →
  (∀ name, name ∈ items.*1 → name ∉ (_internal_triggers (self e)).*1) →
  (∀ name, name ∈ items.*1 → name ∉ (_external_triggers (self e)).*1) →
  length ns = length items →
  let e' := fold_left (λ e (xn : string * Z * nat * Z),
                         external_step xn.1.1.1 xn.1.1.2 xn.2 e)
                      (zip (with_picks items picks) ns) e in
  _internal_triggers (self e')
    = _internal_triggers (self e)
        ++ zip items.*1 (map Build_SPDacTrigger_Context ns) ∧
  _external_triggers (self e') = _external_triggers (self e) ++ items ∧
  written e'
    = written e ++ flat_map (λ pn, connects pn.1 pn.2) (zip items.*2 ns).
Proof.
  induction items as [|[name port] items IH]; intros picks ns e Hnodup Hfresh Hfresh' Hlen.
  { simpl. by rewrite !app_nil_r. }
  destruct ns as [|n ns]; [done|].
  apply NoDup_cons in Hnodup as [Hnotin Hnodup].
  cbn [with_picks zip zip_with fold_left fst snd fmap list_fmap flat_map].
  assert (Hdict : _internal_triggers (self (external_step name port n e))
                  = _internal_triggers (self e) ++ [(name, {| value := n |})]).
  { cbn. apply dict_set_fresh, Hfresh. set_solver. }
  assert (Hports : _external_triggers (self (external_step name port n e))
                   = _external_triggers (self e) ++ [(name, port)]).
  { cbn. apply dict_set_fresh, Hfresh'. set_solver. }
  assert (Hwritten : written (external_step name port n e)
                     = written e ++ connects port n).
  { unfold written. cbn. by rewrite <- app_assoc. }
  destruct (IH (tl picks) ns (external_step name port n e)) as (Hint & Hext & Hw).
  - done.
  - intros k Hk. rewrite Hdict, fmap_app. cbn.
    rewrite elem_of_app, list_elem_of_singleton. intros [Hold| ->]; [|done].
    revert Hold. apply Hfresh. set_solver.
  - intros k Hk. rewrite Hports, fmap_app. cbn.
    rewrite elem_of_app, list_elem_of_singleton. intros [Hold| ->]; [|done].
    revert Hold. apply Hfresh'. set_solver.
  - simpl in Hlen. lia.
  - cbn zeta in *. rewrite Hint, Hext, Hw, Hdict, Hports, Hwritten, <- !app_assoc. done.
Qed.

(** *** The two loops one after the other *)

Lemma _allocate_internal_triggers_loop internal_triggers picks e :
  _allocate_internal_triggers internal_triggers picks e
  = for_each (with_picks (default [] internal_triggers) picks)
      (λ '(name, pick),
         do trigger <- on_spdac (SPDac.allocate_trigger pick);
         on_self (λ a, set_internal_triggers_attr
                         (dict_set name trigger (_internal_triggers a)) a)) e.
Proof. by destruct internal_triggers as [[|name names]|]. Qed.

Lemma _allocate_external_triggers_loop output_triggers picks e :
  _allocate_external_triggers output_triggers picks e
  = for_each (with_picks (default [] output_triggers) picks)
      (λ '((name, port), pick),
         do_ on_self (λ a, set_external_triggers_attr
                             (dict_set name port (_external_triggers a)) a);
         do trigger <- on_spdac (SPDac.allocate_trigger pick);
         do_ on_spdac (SPDac.connect_external_trigger port trigger width_s_default);
         on_self (λ a, set_internal_triggers_attr
                         (dict_set name trigger (_internal_triggers a)) a))
      {| self := set_external_triggers_attr [] (self e); _spdac := _spdac e |}.
Proof. by destruct output_triggers as [[|item items]|]. Qed.

Lemma size_pool_taken (s : gset Z) ns :
  NoDup ns → (∀ n, n ∈ ns → n ∈ s) → size (s ∖ list_to_set ns) = size s - length ns.
Proof.
  intros Hnodup Hin. rewrite size_difference.
  - by rewrite size_list_to_set.
  - intros n Hn. apply Hin. by apply elem_of_list_to_set in Hn.
Qed.

Lemma _allocate_triggers_succeeds internal_triggers output_triggers picks e :
  NoDup (names internal_triggers output_triggers) →
  length (names internal_triggers output_triggers) ≤ size (pool e) →
  ∃ ns e',
    _allocate_triggers internal_triggers output_triggers picks e = (Return tt, e') ∧
    length ns = length (names internal_triggers output_triggers) ∧
    NoDup ns ∧ (∀ n, n ∈ ns → n ∈ pool e) ∧
    pool e' = pool e ∖ list_to_set ns ∧
    _internal_triggers (self e')
      = zip (names internal_triggers output_triggers)
            (map Build_SPDacTrigger_Context ns) ∧
    _external_triggers (self e') = default [] output_triggers ∧
    written e'
      = written e
          ++ flat_map (λ pn, connects pn.1 pn.2)
               (zip (ports output_triggers)
                    (drop (length (default [] internal_triggers)) ns)).
Proof.
  unfold names, ports.
  set (inames := default [] internal_triggers).
  set (items := default [] output_triggers).
  intros Hnodup Hsize. rewrite length_app, length_fmap in Hsize.
  apply NoDup_app in Hnodup as (Hnodup1 & Hdisjoint & Hnodup2).
  set (e0 := {| self := set_internal_triggers_attr [] (self e); _spdac := _spdac e |}).
  destruct (allocation_loop_succeeds _ (λ x n, internal_step x.1 n)
              internal_body_empty internal_body_member ltac:(done) (with_picks inames picks) e0)
    as (ns1 & Hlen1 & Hnd1 & Hin1 & Hrun1 & Hpool1).
  { rewrite with_picks_length. change (pool e0) with (pool e). lia. }
  rewrite with_picks_length in Hlen1.
  destruct (internal_steps inames picks ns1 e0 Hnodup1) as (Hint1 & Hext1 & Hw1);
    [set_solver|done|].
  cbn zeta in Hrun1, Hpool1, Hint1, Hext1, Hw1.
  set (e1 := fold_left _ _ e0) in *.
  set (e1' := {| self := set_external_triggers_attr [] (self e1); _spdac := _spdac e1 |}).
  assert (Hsize1 : size (pool e1) = size (pool e) - length inames).
  { rewrite Hpool1. change (pool e0) with (pool e).
    by rewrite size_pool_taken, Hlen1. }
  destruct (allocation_loop_succeeds _ (λ x n, external_step x.1.1 x.1.2 n)
              external_body_empty external_body_member ltac:(done)
              (with_picks items (drop (length inames) picks)) e1')
    as (ns2 & Hlen2 & Hnd2 & Hin2 & Hrun2 & Hpool2).
  { rewrite with_picks_length. change (pool e1') with (pool e1). lia. }
  rewrite with_picks_length in Hlen2.
  destruct (external_steps items (drop (length inames) picks) ns2 e1' Hnodup2)
    as (Hint2 & Hext2 & Hw2).
  { intros name Hname. change (self e1') with (set_external_triggers_attr [] (self e1)).
    cbn [_internal_triggers set_external_triggers_attr]. rewrite Hint1. cbn.
    rewrite fst_zip by (rewrite length_map; lia).
    intros Hold. by apply (Hdisjoint name). }
  { intros name _. cbn. set_solver. }
  { done. }
  cbn zeta in Hrun2, Hpool2, Hint2, Hext2, Hw2.
  set (e2 := fold_left _ _ e1') in *.
  exists (ns1 ++ ns2), e2. split; [|split; [|split; [|split; [|split; [|split; [|split]]]]]].
  - unfold _allocate_triggers.
    erewrite bind_Return; [|reflexivity]. fold e0.
    erewrite bind_Return; [|rewrite _allocate_internal_triggers_loop; exact Hrun1].
    rewrite _allocate_external_triggers_loop. exact Hrun2.
  - rewrite !length_app, length_fmap. lia.
  - apply NoDup_app. split; [done|]. split; [|done].
    intros n Hn1 Hn2. apply Hin2 in Hn2. change (pool e1') with (pool e1) in Hn2.
    rewrite Hpool1 in Hn2. set_solver.
  - intros n Hn. apply elem_of_app in Hn as [Hn|Hn]; [by apply Hin1|].
    apply Hin2 in Hn. change (pool e1') with (pool e1) in Hn.
    rewrite Hpool1 in Hn. set_solver.
  - rewrite Hpool2. change (pool e1') with (pool e1). rewrite Hpool1.
    change (pool e0) with (pool e). rewrite list_to_set_app_L. set_solver.
  - rewrite Hint2. change (self e1') with (set_external_triggers_attr [] (self e1)).
    cbn [_internal_triggers set_external_triggers_attr]. rewrite Hint1. cbn [app].
    rewrite map_app, zip_with_app by (rewrite length_map; lia). done.
  - rewrite Hext2. done.
  - rewrite Hw2. change (written e1') with (written e1). rewrite Hw1.
    change (written e0) with (written e).
    by rewrite <- Hlen1, drop_app_length.
Qed.

Lemma _allocate_triggers_fails internal_triggers output_triggers picks e :
  size (pool e) < length (names internal_triggers output_triggers) →
  ∃ e', _allocate_triggers internal_triggers output_triggers picks e
          = (Raise ValueError, e') ∧
        pool e' = ∅.
Proof.
  unfold names.
  set (inames := default [] internal_triggers).
  set (items := default [] output_triggers).
  intros Hsize. rewrite length_app, length_fmap in Hsize.
  set (e0 := {| self := set_internal_triggers_attr [] (self e); _spdac := _spdac e |}).
  unfold _allocate_triggers.
  erewrite bind_Return; [|reflexivity]. fold e0.
  destruct (decide (size (pool e) < length inames)) as [Hlt|Hge].
  - destruct (allocation_loop_fails _ (λ x n, internal_step x.1 n)
                internal_body_empty internal_body_member ltac:(done) (with_picks inames picks) e0)
      as (e' & Hrun & Hpool).
    { rewrite with_picks_length. by change (pool e0) with (pool e). }
    exists e'. split; [|done].
    erewrite bind_Raise; [done|]. rewrite _allocate_internal_triggers_loop. exact Hrun.
  - destruct (allocation_loop_succeeds _ (λ x n, internal_step x.1 n)
                internal_body_empty internal_body_member ltac:(done) (with_picks inames picks) e0)
      as (ns1 & Hlen1 & Hnd1 & Hin1 & Hrun1 & Hpool1).
    { rewrite with_picks_length. change (pool e0) with (pool e). lia. }
    rewrite with_picks_length in Hlen1. cbn zeta in Hrun1, Hpool1.
    set (e1 := fold_left _ _ e0) in *.
    set (e1' := {| self := set_external_triggers_attr [] (self e1);
                   _spdac := _spdac e1 |}).
    destruct (allocation_loop_fails _ (λ x n, external_step x.1.1 x.1.2 n)
                external_body_empty external_body_member ltac:(done)
                (with_picks items (drop (length inames) picks)) e1')
      as (e' & Hrun & Hpool).
    { rewrite with_picks_length. change (pool e1') with (pool e1).
      rewrite Hpool1. change (pool e0) with (pool e).
      rewrite size_pool_taken by done. lia. }
    exists e'. split; [|done].
    erewrite bind_Return; [|rewrite _allocate_internal_triggers_loop; exact Hrun1].
    rewrite _allocate_external_triggers_loop. exact Hrun.
Qed.

(** [__init__] returns what [_allocate_triggers] left in place. *)
Lemma init_allocates contacts output_triggers internal_triggers outer picks d :
  ∃ e1, _spdac e1 = d ∧
    ∀ r e2, _allocate_triggers internal_triggers output_triggers picks e1 = (r, e2) →
      match r with
      | Return _ =>
          ∃ a, __init__ contacts output_triggers internal_triggers outer picks d
                 = (Return a, _spdac e2) ∧
               _internal_triggers a = _internal_triggers (self e2) ∧
               _external_triggers a = _external_triggers (self e2)
      | Raise x =>
          __init__ contacts output_triggers internal_triggers outer picks d
            = (Raise x, _spdac e2)
      end.
Proof.
  exists (_fix_contact_order contacts {| self := blank; _spdac := d |}).2.
  assert (Hfix : _fix_contact_order contacts {| self := blank; _spdac := d |}
                 = (Return tt, (_fix_contact_order contacts
                                  {| self := blank; _spdac := d |}).2)).
  { unfold _fix_contact_order.
    by destruct (fold_left _ contacts _) as [[[cnames cs] chans] index]. }
  split.
  { unfold _fix_contact_order.
    by destruct (fold_left _ contacts _) as [[[cnames cs] chans] index]. }
  intros r e2 Hrun. unfold __init__.
  erewrite bind_Return; [|exact Hfix].
  destruct r as [[]|x].
  - erewrite bind_Return; [|exact Hrun].
    eexists. split; [reflexivity|]. by split.
  - by erewrite bind_Raise; [|exact Hrun].
Qed.

End allocation_loops.

(** X5.  With distinct trigger names and at least as many free triggers
    as names, constructing an arrangement returns, whatever [set.pop()]
    picks: every name, the internal ones first and then the output
    triggers in order, holds a trigger id of its own that was free before
    and is no longer; [get_trigger_by_name] returns the trigger of a name;
    and for every output trigger the port has been routed to the trigger
    of its name, by the two commands of [connect_external_trigger], and to
    no other. *)
Theorem arrange_allocates_named_triggers
    (contacts : list (string * Z)) (output_triggers : option (list (string * Z)))
    (internal_triggers : option (list string)) (outer_trigger_channel : option Z)
    (picks : list nat) (d : SPDac.t) :
  NoDup (Allocation.names internal_triggers output_triggers) →
  length (Allocation.names internal_triggers output_triggers)
    ≤ size (SPDac._internal_triggers d) →
  ∃ a d1 ids,
    Arrangement_Context.__init__ contacts output_triggers internal_triggers
      outer_trigger_channel picks d = (Return a, d1) ∧
    length ids = length (Allocation.names internal_triggers output_triggers) ∧
    NoDup ids ∧
    (∀ n, n ∈ ids → n ∈ SPDac._internal_triggers d) ∧
    SPDac._internal_triggers d1 = SPDac._internal_triggers d ∖ list_to_set ids ∧
    (∀ i name n,
       Allocation.names internal_triggers output_triggers !! i = Some name →
       ids !! i = Some n →
       Arrangement_Context.get_trigger_by_name name
         {| Arrangement_Context.self := a; Arrangement_Context._spdac := d1 |}
       = (Return {| value := n |},
          {| Arrangement_Context.self := a; Arrangement_Context._spdac := d1 |})) ∧
    SPDac.visa d1
      = SPDac.visa d
          ++ flat_map (λ pn, Allocation.connects pn.1 pn.2)
               (zip (Allocation.ports output_triggers)
                    (drop (length (default [] internal_triggers)) ids)).
Proof.
  intros Hnodup Hsize.
  destruct (init_allocates contacts output_triggers internal_triggers
              outer_trigger_channel picks d) as (e1 & Hd & Hinit).
  destruct (_allocate_triggers_succeeds internal_triggers output_triggers picks e1 Hnodup)
    as (ns & e2 & Hrun & Hlen & Hnd & Hin & Hpool & Hint & Hext & Hw).
  { unfold State.pool. by rewrite Hd. }
  destruct (Hinit _ _ Hrun) as (a & Ha & Haint & Haext).
  unfold State.pool, State.written in *. rewrite Hd in *.
  exists a, (Arrangement_Context._spdac e2), ns.
  repeat split; try done.
  intros i name n Hname Hn. unfold Arrangement_Context.get_trigger_by_name.
  unfold bind, Arrangement_Context.attr. cbn [Arrangement_Context.self].
  rewrite Haint, Hint.
  by rewrite (dict_get_zip _ _ i name {| value := n |} Hnodup Hname)
    by (by rewrite list_lookup_fmap, Hn).
Qed.

Lemma arrange_allocates_named_triggers_witness :
  let internal_triggers := Some ["t1"; "t2"] in
  let output_triggers := Some [("out", 4%Z)] in
  NoDup (Allocation.names internal_triggers output_triggers) ∧
  length (Allocation.names internal_triggers output_triggers)
    ≤ size (SPDac._internal_triggers SPDac.init) ∧
  ∃ a d1,
    Arrangement_Context.__init__ [("a", 1%Z)] output_triggers internal_triggers None
      [] SPDac.init = (Return a, d1) ∧
    size (SPDac._internal_triggers d1) = 11.
Proof.
  intros internal_triggers output_triggers.
  assert (Hnodup : NoDup (Allocation.names internal_triggers output_triggers)).
  { apply NoDup_ListNoDup. repeat constructor; simpl; intuition discriminate. }
  assert (Hsize : length (Allocation.names internal_triggers output_triggers)
                  ≤ size (SPDac._internal_triggers SPDac.init)).
  { change (SPDac._internal_triggers SPDac.init) with SPDac.all_triggers.
    rewrite size_all_triggers. simpl. lia. }
  split; [exact Hnodup|]. split; [exact Hsize|].
  destruct (arrange_allocates_named_triggers [("a", 1%Z)] output_triggers
              internal_triggers None [] SPDac.init Hnodup Hsize)
    as (a & d1 & ids & Hrun & Hlen & Hnd & Hin & Hpool & _).
  exists a, d1. split; [exact Hrun|].
  rewrite Hpool, size_pool_taken by done.
  change (SPDac._internal_triggers SPDac.init) with SPDac.all_triggers.
  rewrite size_all_triggers, Hlen. reflexivity.
Defined.

(** X6.  An arrangement that was constructed with distinct trigger names
    gives all its triggers back when it is closed: the pool is again what
    it was before the arrangement was made.  Closing also puts every
    output trigger port on hold, in the order of [output_triggers], and
    writes nothing else. *)
Theorem arrange_then_close_restores_pool
    (contacts : list (string * Z)) (output_triggers : option (list (string * Z)))
    (internal_triggers : option (list string)) (outer_trigger_channel : option Z)
    (picks : list nat) (d d1 : SPDac.t) (a : Arrangement_Context.t) :
  NoDup (Allocation.names internal_triggers output_triggers) →
  Arrangement_Context.__init__ contacts output_triggers internal_triggers
    outer_trigger_channel picks d = (Return a, d1) →
  size (Allocation.held a) = length (Allocation.names internal_triggers output_triggers) ∧
  Allocation.held a ## SPDac._internal_triggers d1 ∧
  ∃ e2,
    Arrangement_Context.close
      {| Arrangement_Context.self := a; Arrangement_Context._spdac := d1 |}
    = (Return tt, e2) ∧
    Arrangement_Context.self e2 = a ∧
    State.pool e2 = SPDac._internal_triggers d ∧
    State.written e2
      = SPDac.visa d1 ++ map outp_trig_sour_hold (Allocation.ports output_triggers).
Proof.
  intros Hnodup Ha.
  destruct (init_allocates contacts output_triggers internal_triggers
              outer_trigger_channel picks d) as (e1 & Hd & Hinit).
  destruct (decide (length (Allocation.names internal_triggers output_triggers)
                    ≤ size (State.pool e1))) as [Hsize|Hsize].
  2: { destruct (_allocate_triggers_fails internal_triggers output_triggers picks e1)
         as (e' & Hrun & _); [lia|].
       specialize (Hinit _ _ Hrun). cbn in Hinit. congruence. }
  destruct (_allocate_triggers_succeeds internal_triggers output_triggers picks e1
              Hnodup Hsize)
    as (ns & e2 & Hrun & Hlen & Hnd & Hin & Hpool & Hint & Hext & Hw).
  destruct (Hinit _ _ Hrun) as (a' & Ha' & Haint & Haext).
  rewrite Ha in Ha'. injection Ha' as <- ->.
  assert (Hheld : Allocation.held a = list_to_set ns).
  { unfold Allocation.held, dict_values. rewrite Haint, Hint.
    change (map snd ?l) with (l.*2).
    rewrite snd_zip by (rewrite length_map; lia).
    rewrite map_map. cbn [value]. by rewrite map_id. }
  split; [by rewrite Hheld, size_list_to_set|].
  split.
  { rewrite Hheld. change (SPDac._internal_triggers _) with (State.pool e2).
    rewrite Hpool. set_solver. }
  destruct (emits_close a {| Arrangement_Context.self := a;
                             Arrangement_Context._spdac := Arrangement_Context._spdac e2 |}
              eq_refl)
    as (e3 & Hclose & Hs3 & Hw3 & Hp3 & _).
  exists e3. split; [exact Hclose|]. split; [exact Hs3|]. split.
  - rewrite Hp3. fold (Allocation.held a). rewrite Hheld.
    change (State.pool {| Arrangement_Context.self := a;
                          Arrangement_Context._spdac := _ |}) with (State.pool e2).
    rewrite Hpool.
    assert (Hsub : ∀ n, n ∈ ns → n ∈ SPDac._internal_triggers d).
    { intros n Hn. apply Hin in Hn. unfold State.pool in Hn. by rewrite Hd in Hn. }
    unfold State.pool. rewrite Hd.
    apply set_eq. intros n. rewrite elem_of_union, elem_of_difference, elem_of_list_to_set.
    split; [intros [[? _]|Hn]; [done|by apply Hsub]|intros Hn].
    destruct (decide (n ∈ ns)); [by right|by left].
  - rewrite Hw3. by rewrite Haext, Hext.
Qed.

Lemma arrange_then_close_restores_pool_witness :
  let internal_triggers := Some ["t1"; "t2"] in
  let output_triggers := Some [("out", 4%Z)] in
  NoDup (Allocation.names internal_triggers output_triggers) ∧
  ∃ a d1 e2,
    Arrangement_Context.__init__ [("a", 1%Z)] output_triggers internal_triggers None
      [] SPDac.init = (Return a, d1) ∧
    Arrangement_Context.close
      {| Arrangement_Context.self := a; Arrangement_Context._spdac := d1 |}
    = (Return tt, e2) ∧
    State.pool e2 = SPDac.all_triggers.
Proof.
  intros internal_triggers output_triggers.
  assert (Hnodup : NoDup (Allocation.names internal_triggers output_triggers)).
  { apply NoDup_ListNoDup. repeat constructor; simpl; intuition discriminate. }
  split; [exact Hnodup|].
  destruct (Arrangement_Context.__init__ [("a", 1%Z)] output_triggers internal_triggers
              None [] SPDac.init) as [[a|x] d1] eqn:Hinit; [|by vm_compute in Hinit].
  destruct (arrange_then_close_restores_pool _ _ _ _ _ _ _ _ Hnodup Hinit)
    as (_ & _ & e2 & Hclose & _ & Hpool & _).
  by exists a, d1, e2.
Defined.

(** X7.  Asked for more triggers than are free, the construction of an
    arrangement raises [ValueError], and it has taken every free trigger
    by then: the pool is left empty and nothing hands the triggers
    back. *)
Theorem arrange_without_enough_triggers
    (contacts : list (string * Z)) (output_triggers : option (list (string * Z)))
    (internal_triggers : option (list string)) (outer_trigger_channel : option Z)
    (picks : list nat) (d : SPDac.t) :
  size (SPDac._internal_triggers d)
    < length (Allocation.names internal_triggers output_triggers) →
  ∃ d1,
    Arrangement_Context.__init__ contacts output_triggers internal_triggers
      outer_trigger_channel picks d = (Raise ValueError, d1) ∧
    SPDac._internal_triggers d1 = ∅ ∧
    ∀ pick, SPDac.allocate_trigger pick d1 = (Raise ValueError, d1).
Proof.
  intros Hsize.
  destruct (init_allocates contacts output_triggers internal_triggers
              outer_trigger_channel picks d) as (e1 & Hd & Hinit).
  destruct (_allocate_triggers_fails internal_triggers output_triggers picks e1)
    as (e' & Hrun & Hpool).
  { unfold State.pool. by rewrite Hd. }
  specialize (Hinit _ _ Hrun). cbn in Hinit.
  exists (Arrangement_Context._spdac e'). split; [exact Hinit|]. split; [exact Hpool|].
  intros pick. by apply allocate_trigger_empty.
Qed.

Lemma arrange_without_enough_triggers_witness :
  let d := SPDac.set_internal_triggers {[3%Z; 7%Z]} SPDac.init in
  let internal_triggers := Some ["t1"; "t2"] in
  let output_triggers := Some [("out", 4%Z)] in
  size (SPDac._internal_triggers d)
    < length (Allocation.names internal_triggers output_triggers) ∧
  ∃ d1,
    Arrangement_Context.__init__ [("a", 1%Z)] output_triggers internal_triggers None [] d
      = (Raise ValueError, d1) ∧
    SPDac._internal_triggers d1 = ∅.
Proof.
  intros d internal_triggers output_triggers.
  assert (Hsize : size (SPDac._internal_triggers d)
                  < length (Allocation.names internal_triggers output_triggers)).
  { vm_compute. lia. }
  split; [exact Hsize|].
  destruct (arrange_without_enough_triggers [("a", 1%Z)] output_triggers
              internal_triggers None [] d Hsize) as (d1 & Hrun & Hpool & _).
  by exists d1.
Defined.

(** * Further properties: the start trigger of a sweep *)

Section start_trigger.

Import Arrangement_Context State Allocation.

Implicit Types (e : env).

Lemma dict_get_set {V} k (v : V) d : dict_get k (dict_set k v d) = Some v.
Proof.
  induction d as [|[k' v'] d IH]; simpl.
  - by rewrite decide_True.
  - destruct (decide (k' = k)) as [->|Hne]; simpl.
    + by rewrite decide_True.
    + by rewrite decide_False.
Qed.

Lemma get_trigger_by_name_step name n e :
  get_trigger_by_name name (internal_step name n e)
  = (Return {| value := n |}, internal_step name n e).
Proof.
  unfold get_trigger_by_name, bind, attr. cbn [self internal_step _internal_triggers
    set_internal_triggers_attr]. by rewrite dict_get_set.
Qed.

(** The constructor of [Virtual_Sweep_Context]: one trigger is taken
    and registered under the name of the start trigger. *)
Lemma sweep_context_init sweep start_trigger step_time_s step_trigger repetitions
    fresh pick e :
  let name := match start_trigger with
              | None | Some EmptyString => fresh
              | Some name => name
              end in
  (pool e = ∅ →
     Virtual_Sweep_Context.__init__ sweep start_trigger step_time_s step_trigger
       repetitions fresh pick e = (Raise ValueError, e)) ∧
  (pool e ≠ ∅ →
     ∃ n, n ∈ pool e ∧
       Virtual_Sweep_Context.__init__ sweep start_trigger step_time_s step_trigger
         repetitions fresh pick e
       = (Return {| Virtual_Sweep_Context._sweep := sweep;
                    Virtual_Sweep_Context._step_trigger := step_trigger;
                    Virtual_Sweep_Context._step_time_s := step_time_s;
                    Virtual_Sweep_Context._repetitions := repetitions;
                    Virtual_Sweep_Context._start_trigger_name := name;
                    Virtual_Sweep_Context._spdac_ready := false |},
          internal_step name n e)).
Proof.
  intros name.
  unfold Virtual_Sweep_Context.__init__, Virtual_Sweep_Context._allocate_triggers.
  fold name. cbn [_allocate_internal_triggers with_picks for_each hd]. split.
  - intros Hempty.
    erewrite bind_Raise; [done|]. erewrite bind_Raise; [done|].
    erewrite bind_Raise; [done|]. erewrite bind_Raise; [done|].
    by apply on_spdac_allocate_empty.
  - intros Hne. destruct (on_spdac_allocate_member pick e Hne) as (n & Hn & Hrun).
    exists n. split; [done|].
    erewrite bind_Return; [reflexivity|].
    erewrite bind_Return; [reflexivity|].
    erewrite bind_Return; [reflexivity|].
    erewrite bind_Return; [|exact Hrun]. reflexivity.
Qed.

End start_trigger.

(** X8.  [virtual_sweep] on a contact of the arrangement computes the
    rows of the sweep and then takes one trigger for starting it.  With
    no free trigger it raises [ValueError] and the state is as before.
    Otherwise it returns a context that is not yet set up, with the rows
    as its sweep, and registers the trigger in the arrangement under the
    given name, or under the fresh name when the name is [None] or empty;
    a trigger registered under that name before is replaced.  Nothing is
    written to the instrument. *)
Theorem virtual_sweep_takes_start_trigger
    (e : Arrangement_Context.env) (contact : string) (index : nat)
    (voltages : list float) (start_sweep_trigger : option string)
    (step_time_s : float) (step_trigger : option string) (repetitions : option Z)
    (fresh : string) (pick : nat) :
  Arrangement_Context._contacts (Arrangement_Context.self e) !! contact = Some index →
  index < length (State.virtual e) →
  let name := match start_sweep_trigger with
              | None | Some EmptyString => fresh
              | Some name => name
              end in
  let rows := map (λ x, State.physical
                          (State.with_virtual_voltages
                             (<[index := x]> (State.virtual e)) e)) voltages in
  let run := Arrangement_Sweeps.virtual_sweep contact voltages start_sweep_trigger
               step_time_s step_trigger repetitions fresh pick e in
  (State.pool e = ∅ → run = (Raise ValueError, e)) ∧
  (State.pool e ≠ ∅ →
     ∃ n ctx e',
       n ∈ State.pool e ∧ run = (Return ctx, e') ∧
       Virtual_Sweep_Context._sweep ctx = rows ∧
       Virtual_Sweep_Context._start_trigger_name ctx = name ∧
       Virtual_Sweep_Context._spdac_ready ctx = false ∧
       e' = Allocation.internal_step name n e ∧
       State.pool e' = State.pool e ∖ {[n]} ∧
       State.written e' = State.written e ∧
       Arrangement_Context.get_trigger_by_name name e' = (Return {| value := n |}, e')).
Proof.
  intros Hc Hi name rows run. subst run.
  unfold Arrangement_Sweeps.virtual_sweep.
  erewrite bind_Return; [|by apply _calculate_1d_values_Return].
  fold rows.
  destruct (sweep_context_init rows start_sweep_trigger step_time_s step_trigger
              repetitions fresh pick e) as [Hempty Hmember].
  split; [exact Hempty|]. intros Hne.
  destruct (Hmember Hne) as (n & Hn & Hrun).
  eexists n, _, _. split; [exact Hn|]. split; [exact Hrun|].
  repeat split. apply get_trigger_by_name_step.
Qed.

Lemma virtual_sweep_takes_start_trigger_witness :
  Arrangement_Context._contacts (Arrangement_Context.self Example.ab) !! "a" = Some 0 ∧
  0 < length (State.virtual Example.ab) ∧
  State.pool Example.ab ≠ ∅ ∧
  ∃ n ctx e',
    Arrangement_Sweeps.virtual_sweep "a" [0; 1]%float (Some "") 1 None (Some 1%Z)
      "fresh" 0 Example.ab = (Return ctx, e') ∧
    Virtual_Sweep_Context._start_trigger_name ctx = "fresh" ∧
    Virtual_Sweep_Context._sweep ctx = [[0; 0]; [1; 0]]%float ∧
    Arrangement_Context.get_trigger_by_name "fresh" e' = (Return {| value := n |}, e').
Proof.
  assert (Hc : Arrangement_Context._contacts (Arrangement_Context.self Example.ab)
                 !! "a" = Some 0) by (by vm_compute).
  assert (Hi : 0 < length (State.virtual Example.ab)) by (vm_compute; lia).
  assert (Hne : State.pool Example.ab ≠ ∅).
  { apply pool_non_empty. change (State.pool Example.ab) with SPDac.all_triggers.
    rewrite size_all_triggers. lia. }
  split; [exact Hc|]. split; [exact Hi|]. split; [exact Hne|].
  destruct (virtual_sweep_takes_start_trigger Example.ab "a" 0 [0; 1]%float (Some "")
              1 None (Some 1%Z) "fresh" 0 Hc Hi) as [_ Hmember].
  destruct (Hmember Hne) as (n & ctx & e' & _ & Hrun & Hsweep & Hname & _ & _ & _ & _ & Hget).
  exists n, ctx, e'. split; [exact Hrun|]. split; [exact Hname|].
  split; [|exact Hget]. rewrite Hsweep. by vm_compute.
Defined.

(** X9.  [virtual_detune] compares the lengths of its three sequences
    before anything else: when they differ it raises [ValueError] with the
    state as it was, whatever the contacts and the step count are.  With
    consistent arguments it builds the rows of the detune sweep and then
    takes the start trigger like [virtual_sweep]: [ValueError] and an
    unchanged state when no trigger is free, otherwise a context with the
    rows and the trigger registered under the start trigger's name. *)
Theorem virtual_detune_checks_then_allocates
    (e : Arrangement_Context.env) (contacts : list string)
    (start_V end_V : list float) (steps : Z) (start_trigger : option string)
    (step_time_s : float) (step_trigger : option string) (repetitions : option Z)
    (fresh : string) (pick : nat) :
  let name := match start_trigger with
              | None | Some EmptyString => fresh
              | Some name => name
              end in
  let run := Arrangement_Sweeps.virtual_detune contacts start_V end_V steps
               start_trigger step_time_s step_trigger repetitions fresh pick e in
  (length contacts ≠ length start_V ∨ length contacts ≠ length end_V →
     run = (Raise ValueError, e)) ∧
  (∀ indices,
     Forall2 (λ contact index,
                Arrangement_Context._contacts (Arrangement_Context.self e) !! contact
                  = Some index ∧
                index < length (State.virtual e)) contacts indices →
     length start_V = length contacts →
     length end_V = length contacts →
     (0 ≤ steps)%Z →
     let rows := map (λ row, State.physical
                               (State.with_virtual_voltages
                                  (State.stored indices row (State.virtual e)) e))
                     (zip_star (zip_with (λ s f, State.there_and_back s f steps)
                                         start_V end_V)) in
     (State.pool e = ∅ → run = (Raise ValueError, e)) ∧
     (State.pool e ≠ ∅ →
        ∃ n ctx,
          n ∈ State.pool e ∧
          run = (Return ctx, Allocation.internal_step name n e) ∧
          Virtual_Sweep_Context._sweep ctx = rows ∧
          Virtual_Sweep_Context._start_trigger_name ctx = name ∧
          Arrangement_Context.get_trigger_by_name name (Allocation.internal_step name n e)
            = (Return {| value := n |}, Allocation.internal_step name n e))).
Proof.
  intros name run. subst run. unfold Arrangement_Sweeps.virtual_detune. split.
  - intros Hlen. erewrite bind_Raise; [done|].
    unfold Arrangement_Context._check_same_lengths.
    destruct (decide (length contacts ≠ length start_V)); [done|].
    destruct (decide (length contacts ≠ length end_V)); [done|]. tauto.
  - intros indices Hcontacts Hstart Hend Hsteps.
    set (rows := map _ (zip_star _)).
    erewrite bind_Return; last first.
    { unfold Arrangement_Context._check_same_lengths.
      rewrite !decide_False by (intros ?; congruence). reflexivity. }
    erewrite bind_Return; [|by apply _calculate_detune_values_Return].
    fold rows.
    destruct (sweep_context_init rows start_trigger step_time_s step_trigger
                repetitions fresh pick e) as [Hempty Hmember].
    split; [exact Hempty|]. intros Hne.
    destruct (Hmember Hne) as (n & Hn & Hrun).
    eexists n, _. split; [exact Hn|]. split; [exact Hrun|].
    repeat split. apply get_trigger_by_name_step.
Qed.

Lemma virtual_detune_checks_then_allocates_witness :
  Arrangement_Sweeps.virtual_detune ["a"; "b"] [0; 0]%float [1]%float 3 None 1 None None
    "fresh" 0 Example.ab = (Raise ValueError, Example.ab) ∧
  Forall2 (λ contact index,
             Arrangement_Context._contacts (Arrangement_Context.self Example.ab) !! contact
               = Some index ∧
             index < length (State.virtual Example.ab)) ["a"; "b"] [0; 1] ∧
  State.pool Example.ab ≠ ∅ ∧
  ∃ n ctx,
    Arrangement_Sweeps.virtual_detune ["a"; "b"] [0; 0]%float [1; 2]%float 2
      (Some "go") 1 None None "fresh" 0 Example.ab
    = (Return ctx, Allocation.internal_step "go" n Example.ab) ∧
    Virtual_Sweep_Context._sweep ctx = [[0; 0]; [1; 2]]%float.
Proof.
  assert (H : Forall2 (λ contact index,
             Arrangement_Context._contacts (Arrangement_Context.self Example.ab) !! contact
               = Some index ∧
             index < length (State.virtual Example.ab)) ["a"; "b"] [0; 1]).
  { constructor; [|constructor; [|constructor]]; (split; [by vm_compute|vm_compute; lia]). }
  assert (Hne : State.pool Example.ab ≠ ∅).
  { apply pool_non_empty. change (State.pool Example.ab) with SPDac.all_triggers.
    rewrite size_all_triggers. lia. }
  split; [|split; [exact H|split; [exact Hne|]]].
  - destruct (virtual_detune_checks_then_allocates Example.ab ["a"; "b"] [0; 0]%float
                [1]%float 3 None 1 None None "fresh" 0) as [Hbad _].
    apply Hbad. right. simpl. lia.
  - destruct (virtual_detune_checks_then_allocates Example.ab ["a"; "b"] [0; 0]%float
                [1; 2]%float 2 (Some "go") 1 None None "fresh" 0) as [_ Hgood].
    destruct (Hgood [0; 1] H eq_refl eq_refl ltac:(lia)) as [_ Hmember].
    destruct (Hmember Hne) as (n & ctx & _ & Hrun & Hsweep & _).
    exists n, ctx. split; [exact Hrun|]. rewrite Hsweep. by vm_compute.
Defined.

Section sweep_values.

Import Arrangement_Context State.

Lemma matvec_length c v : length (np.matvec c v) = length c.
Proof. unfold np.matvec. by rewrite length_map. Qed.

Lemma physical_length (e : env) : length (physical e) = length (_correction (self e)).
Proof.
  rewrite physical_eq. cbn zeta. unfold np.round.
  destruct (truthy _); by rewrite ?length_map, matvec_length.
Qed.

End sweep_values.

(** X16.  [actual_values_V] of the context of a one-dimensional sweep
    gives, for any contact of a well-formed arrangement, the physical
    voltage that contact gets at each step: one value per swept voltage,
    the entry of the contact in the row of that step.  A sweep over no
    voltages has no columns: [actual_values_V] then raises [IndexError].
    A name that is no contact raises [KeyError].  The state is not
    changed. *)
Theorem sweep_values_of_contact
    (e e' : Arrangement_Context.env) (ctx : Virtual_Sweep_Context.t)
    (contact : string) (index : nat) (voltages : list float)
    (start_sweep_trigger : option string) (step_time_s : float)
    (step_trigger : option string) (repetitions : option Z)
    (fresh : string) (pick : nat) :
  State.well_formed (Arrangement_Context.self e) →
  Arrangement_Context._contacts (Arrangement_Context.self e) !! contact = Some index →
  Arrangement_Sweeps.virtual_sweep contact voltages start_sweep_trigger step_time_s
    step_trigger repetitions fresh pick e = (Return ctx, e') →
  let row x := State.physical
                 (State.with_virtual_voltages (<[index := x]> (State.virtual e)) e) in
  (∀ other,
     Arrangement_Context._contacts (Arrangement_Context.self e) !! other = None →
     Virtual_Sweep_Values.actual_values_V ctx other e' = (Raise KeyError, e')) ∧
  (∀ other k,
     Arrangement_Context._contacts (Arrangement_Context.self e) !! other = Some k →
     (voltages = [] →
        Virtual_Sweep_Values.actual_values_V ctx other e' = (Raise IndexError, e')) ∧
     (voltages ≠ [] →
        ∃ values,
          Virtual_Sweep_Values.actual_values_V ctx other e' = (Return values, e') ∧
          length values = length voltages ∧
          ∀ t x, voltages !! t = Some x → row x !! k = values !! t)).
Proof.
  intros (Hv & Hch & Hm & Hrows & Hidx) Hc Hrun row.
  pose proof (Hidx _ _ Hc) as Hi. rewrite <- Hv in Hi.
  destruct (decide (State.pool e = ∅)) as [Hempty|Hne].
  { destruct (virtual_sweep_takes_start_trigger e contact index voltages
                start_sweep_trigger step_time_s step_trigger repetitions fresh pick Hc Hi)
      as [Hraise _]. rewrite (Hraise Hempty) in Hrun. discriminate. }
  unfold Arrangement_Sweeps.virtual_sweep in Hrun.
  erewrite bind_Return in Hrun; [|by apply _calculate_1d_values_Return].
  destruct (sweep_context_init (map row voltages) start_sweep_trigger step_time_s
              step_trigger repetitions fresh pick e) as [_ Hmember].
  destruct (Hmember Hne) as (n & _ & Hinit).
  fold row in Hrun. rewrite Hinit in Hrun. injection Hrun as <- <-.
  split.
  - intros other Hother. unfold Virtual_Sweep_Values.actual_values_V.
    erewrite bind_Raise; [done|]. by apply _contact_index_None.
  - intros other k Hother. pose proof (Hidx _ _ Hother) as Hk.
    assert (Hrow : ∀ x, k < length (row x)).
    { intros x. unfold row. rewrite physical_length. cbn. by rewrite Hm. }
    unfold Virtual_Sweep_Values.actual_values_V.
    erewrite bind_Return; [|by apply _contact_index_Some].
    cbn [Virtual_Sweep_Context._sweep]. unfold lift. split.
    + by intros ->.
    + intros Hvoltages. destruct voltages as [|x0 voltages]; [done|].
      assert (Hcolumn : ndarray.column (map row (x0 :: voltages)) k
                        = Return ((λ x, nth k (row x) 0%float) <$> (x0 :: voltages))).
      { cbn [map ndarray.column]. rewrite decide_True by apply Hrow.
        cbn [fmap list_fmap]. do 2 f_equal. by rewrite map_map. }
      rewrite Hcolumn.
      eexists. split; [reflexivity|]. split; [by rewrite length_fmap|].
      intros t x Ht. rewrite list_lookup_fmap, Ht. cbn.
      destruct (lookup_lt_is_Some_2 (row x) k (Hrow x)) as [y Hy].
      transitivity (Some y); [exact Hy|]. f_equal. symmetry.
      exact (nth_lookup_Some _ _ 0%float _ Hy).
Qed.

Lemma sweep_values_of_contact_witness :
  State.well_formed (Arrangement_Context.self Example.ab_corrected) ∧
  ∃ ctx e',
    Arrangement_Sweeps.virtual_sweep "b" [1; 2]%float None 1 None None "fresh" 0
      Example.ab_corrected = (Return ctx, e') ∧
    Virtual_Sweep_Values.actual_values_V ctx "a" e' = (Return [0.5; 1]%float, e') ∧
    Virtual_Sweep_Values.actual_values_V ctx "b" e' = (Return [1; 2]%float, e').
Proof.
  assert (Hwf : State.well_formed (Arrangement_Context.self Example.ab_corrected)).
  { pose proof ab_well_formed as (Hv & Hch & Hm & Hrows & Hidx).
    unfold State.well_formed.
    change (size (Arrangement_Context._contacts
                    (Arrangement_Context.self Example.ab_corrected)))
      with (size (Arrangement_Context._contacts (Arrangement_Context.self Example.ab))).
    split; [exact Hv|]. split; [exact Hch|]. split; [by vm_compute|].
    split; [|exact Hidx].
    change (size _) with 2.
    repeat first [apply List.Forall_nil | apply List.Forall_cons; [reflexivity|]]. }
  split; [exact Hwf|].
  destruct (Arrangement_Sweeps.virtual_sweep "b" [1; 2]%float None 1 None None "fresh" 0
              Example.ab_corrected) as [[ctx|x] e'] eqn:Hrun; [|by vm_compute in Hrun].
  exists ctx, e'. split; [reflexivity|].
  destruct (sweep_values_of_contact Example.ab_corrected e' ctx "b" 1 [1; 2]%float
              None 1 None None "fresh" 0 Hwf ltac:(by vm_compute) Hrun) as [_ Hvalues].
  assert (Hcolumn : ∀ other k expected,
            Arrangement_Context._contacts
              (Arrangement_Context.self Example.ab_corrected) !! other = Some k →
            (∀ t x, [1; 2]%float !! t = Some x →
                    State.physical
                      (State.with_virtual_voltages
                         (<[1 := x]> (State.virtual Example.ab_corrected))
                         Example.ab_corrected) !! k = expected !! t) →
            length expected = 2 →
            Virtual_Sweep_Values.actual_values_V ctx other e' = (Return expected, e')).
  { intros other k expected Hother Hexpected Hlen.
    destruct (Hvalues other k Hother) as [_ Hsome].
    destruct (Hsome ltac:(discriminate)) as (values & Hrun' & Hlen' & Hlookup).
    rewrite Hrun'. do 2 f_equal. apply list_eq. intros t.
    destruct (decide (t < 2)) as [Ht|Ht].
    - destruct (lookup_lt_is_Some_2 [1; 2]%float t Ht) as [x Hx].
      by rewrite <- (Hlookup t x Hx), (Hexpected t x Hx).
    - rewrite !lookup_ge_None_2; [done|lia|simpl in Hlen'; lia]. }
  split.
  - apply (Hcolumn "a" 0); [by vm_compute| |done].
    intros [|[|t]] x Hx; [| |done]; apply (f_equal (default 0%float)) in Hx;
      vm_compute in Hx; subst x; by vm_compute.
  - apply (Hcolumn "b" 1); [by vm_compute| |done].
    intros [|[|t]] x Hx; [| |done]; apply (f_equal (default 0%float)) in Hx;
      vm_compute in Hx; subst x; by vm_compute.
Defined.

(** * Further properties: the driver *)

Section recording.

Implicit Types (d : SPDac.t) (cmds : list scpi).

Lemma writes_recorded cmds : ∀ d,
  for_each cmds SPDac.write d
  = (Return tt,
     {| SPDac._internal_triggers := SPDac._internal_triggers d;
        SPDac._round_off := SPDac._round_off d;
        SPDac._record_commands := SPDac._record_commands d;
        SPDac._scpi_sent := if SPDac._record_commands d
                            then SPDac._scpi_sent d ++ cmds else SPDac._scpi_sent d;
        SPDac.visa := SPDac.visa d ++ cmds |}).
Proof.
  induction cmds as [|cmd cmds IH]; intros d.
  - destruct d as [p r [] s v]; cbn; by rewrite !app_nil_r.
  - cbn [for_each]. erewrite bind_Return; [|reflexivity]. rewrite IH. cbn.
    destruct (SPDac._record_commands d); by rewrite <- !app_assoc.
Qed.

End recording.

(** X10.  Recording is a faithful log.  After [start_recording_scpi],
    whatever was recorded or written before, [get_recorded_scpi_commands]
    returns exactly the commands written since, in the order they were
    written, and empties the log without ending the recording: a second
    run of commands is returned by the next call, and a call right after
    that returns the empty list.  Recording changes neither what is sent
    to the instrument nor the trigger pool. *)
Theorem recorded_commands_round_trip (first second : list scpi) (d : SPDac.t) :
  let session : M SPDac.t (list scpi * list scpi * list scpi) :=
    do_ Recording.start_recording_scpi;
    do_ for_each first SPDac.write;
    do recorded1 <- Recording.get_recorded_scpi_commands;
    do_ for_each second SPDac.write;
    do recorded2 <- Recording.get_recorded_scpi_commands;
    do recorded3 <- Recording.get_recorded_scpi_commands;
    ret (recorded1, recorded2, recorded3) in
  ∃ d',
    session d = (Return (first, second, []), d') ∧
    SPDac.visa d' = SPDac.visa d ++ first ++ second ∧
    SPDac._internal_triggers d' = SPDac._internal_triggers d ∧
    SPDac._record_commands d' = true ∧
    SPDac._scpi_sent d' = [].
Proof.
  intros session. subst session. eexists. split.
  - erewrite bind_Return; [|reflexivity].
    erewrite bind_Return; [|apply writes_recorded].
    erewrite bind_Return; [|reflexivity].
    erewrite bind_Return; [|apply writes_recorded].
    erewrite bind_Return; [|reflexivity].
    erewrite bind_Return; [|reflexivity].
    reflexivity.
  - cbn. by rewrite <- app_assoc.
Qed.

(** X11.  A trigger taken from the pool and closed again leaves the
    driver exactly as it was: [allocate_trigger] followed by the
    [close()] of the context it returned is the identity on the state,
    whichever trigger [set.pop()] picked.  [__exit__] returns [False], so
    an exception raised inside a [with] block is not swallowed. *)
Theorem allocate_then_close_restores_state (pick : nat) (d : SPDac.t) :
  SPDac._internal_triggers d ≠ ∅ →
  ∃ trigger d1,
    SPDac.allocate_trigger pick d = (Return trigger, d1) ∧
    value trigger ∈ SPDac._internal_triggers d ∧
    (value trigger ∉ SPDac._internal_triggers d1) ∧
    Trigger_Context.close trigger d1 = (Return tt, d) ∧
    Trigger_Context.__exit__ trigger d1 = (Return false, d).
Proof.
  intros Hne. destruct (allocate_trigger_member pick d Hne) as (n & Hn & Hrun).
  eexists _, _. split; [exact Hrun|]. split; [exact Hn|]. split.
  { cbn. set_solver. }
  assert (Hback : SPDac.free_trigger {| value := n |}
                    (SPDac.set_internal_triggers
                       (SPDac._internal_triggers d ∖ {[n]}) d) = (Return tt, d)).
  { rewrite free_trigger_eq. f_equal. destruct d as [s r c l v].
    unfold SPDac.set_internal_triggers. cbn. f_equal.
    apply set_eq. intros m. rewrite elem_of_union, elem_of_difference, elem_of_singleton.
    cbn in Hn. destruct (decide (m = n)) as [->|]; tauto. }
  split.
  - unfold Trigger_Context.close, Trigger_Context.__exit__.
    erewrite bind_Return; [reflexivity|]. erewrite bind_Return; [reflexivity|exact Hback].
  - unfold Trigger_Context.__exit__. erewrite bind_Return; [reflexivity|exact Hback].
Qed.

Lemma allocate_then_close_restores_state_witness :
  SPDac._internal_triggers SPDac.init ≠ ∅ ∧
  ∃ trigger d1,
    SPDac.allocate_trigger 5 SPDac.init = (Return trigger, d1) ∧
    Trigger_Context.close trigger d1 = (Return tt, SPDac.init).
Proof.
  assert (Hne : SPDac._internal_triggers SPDac.init ≠ ∅).
  { apply pool_non_empty. change (SPDac._internal_triggers SPDac.init)
      with SPDac.all_triggers. rewrite size_all_triggers. lia. }
  split; [exact Hne|].
  destruct (allocate_then_close_restores_state 5 SPDac.init Hne)
    as (trigger & d1 & Hrun & _ & _ & Hclose & _).
  by exists trigger, d1.
Defined.

Section capacity.

Implicit Types (d : SPDac.t) (picks : list nat).

(** Allocations on a pool that is large enough are all served, with
    ids that differ from one another. *)
Lemma allocations_issued picks : ∀ d,
  length picks ≤ size (SPDac._internal_triggers d) →
  ∃ ids, Pool.events (map Pool.allocate picks) d = map Pool.issued ids ∧
         length ids = length picks ∧ NoDup ids ∧
         (∀ n, n ∈ ids → n ∈ SPDac._internal_triggers d) ∧
         SPDac._internal_triggers (Pool.final (map Pool.allocate picks) d)
           = SPDac._internal_triggers d ∖ list_to_set ids.
Proof.
  induction picks as [|pick picks IH]; intros d Hle.
  { exists []. repeat split; [constructor|set_solver|]. cbn. set_solver. }
  assert (Hne : SPDac._internal_triggers d ≠ ∅)
    by (apply pool_non_empty; simpl in Hle; lia).
  destruct (allocate_trigger_member pick d Hne) as (n & Hn & Hrun).
  set (d1 := SPDac.set_internal_triggers (SPDac._internal_triggers d ∖ {[n]}) d) in *.
  destruct (IH d1) as (ids & Hev & Hlen & Hnodup & Hin & Hpool).
  { unfold d1. cbn. rewrite size_pool_remove by done. simpl in Hle. lia. }
  assert (Hstep : Pool.step (Pool.allocate pick) d = (Pool.issued n, d1))
    by (cbn [Pool.step]; by rewrite Hrun).
  exists (n :: ids). cbn [map]. rewrite events_cons, final_cons, Hstep. cbn [fst snd].
  split; [by rewrite Hev|]. split; [simpl; lia|]. split.
  { apply NoDup_cons. split; [|done]. intros Hmem. apply Hin in Hmem.
    unfold d1 in Hmem. cbn in Hmem. set_solver. }
  split.
  { intros m Hm. apply elem_of_cons in Hm as [->|Hm]; [done|].
    apply Hin in Hm. unfold d1 in Hm. cbn in Hm. set_solver. }
  rewrite Hpool. unfold d1. cbn. set_solver.
Qed.

End capacity.

(** X12.  [free_all_triggers] restores the full capacity of the driver,
    whatever was allocated or freed before: the next 14 calls of
    [allocate_trigger] all return, with 14 different ids that are exactly
    the ids 1 to 14, in an order that depends on [set.pop()]; after them
    the pool is empty and a further call raises [ValueError]. *)
Theorem free_all_triggers_restores_capacity (picks : list nat) (d : SPDac.t) :
  length picks = 14 →
  let d0 := (SPDac.free_all_triggers d).2 in
  let ops := map Pool.allocate picks in
  SPDac.free_all_triggers d = (Return tt, d0) ∧
  ∃ ids,
    Pool.events ops d0 = map Pool.issued ids ∧
    NoDup ids ∧
    (∀ n, n ∈ ids ↔ (1 ≤ n ≤ 14)%Z) ∧
    SPDac._internal_triggers (Pool.final ops d0) = ∅ ∧
    ∀ pick, SPDac.allocate_trigger pick (Pool.final ops d0)
            = (Raise ValueError, Pool.final ops d0).
Proof.
  intros Hlen d0 ops. split; [reflexivity|].
  assert (Hfull : SPDac._internal_triggers d0 = SPDac.all_triggers) by reflexivity.
  destruct (allocations_issued picks d0) as (ids & Hev & Hlen' & Hnodup & Hin & Hpool).
  { rewrite Hfull, size_all_triggers. lia. }
  rewrite Hfull in Hin, Hpool.
  assert (Hall : list_to_set ids = SPDac.all_triggers).
  { apply leibniz_equiv, set_subseteq_size_equiv.
    - intros n Hn. apply Hin. by apply elem_of_list_to_set in Hn.
    - rewrite size_list_to_set, size_all_triggers by done. lia. }
  assert (Hempty : SPDac._internal_triggers (Pool.final ops d0) = ∅).
  { unfold ops. rewrite Hpool, Hall. set_solver. }
  exists ids. split; [exact Hev|]. split; [exact Hnodup|]. split; [|split; [exact Hempty|]].
  - intros n. rewrite <- (elem_of_list_to_set (C := gset Z)), Hall.
    apply all_triggers_range.
  - intros pick. by apply allocate_trigger_empty.
Qed.

Lemma free_all_triggers_restores_capacity_witness :
  let picks := [0; 1; 2; 3; 4; 5; 6; 7; 8; 9; 10; 11; 12; 13] in
  let d := SPDac.set_internal_triggers {[99%Z]} SPDac.init in
  length picks = 14 ∧
  ∃ ids,
    Pool.events (map Pool.allocate picks) (SPDac.free_all_triggers d).2
      = map Pool.issued ids ∧
    NoDup ids ∧ length ids = 14.
Proof.
  intros picks d.
  split; [reflexivity|].
  destruct (free_all_triggers_restores_capacity picks d eq_refl)
    as (_ & ids & Hev & Hnodup & _).
  exists ids. split; [exact Hev|]. split; [exact Hnodup|].
  apply (f_equal length) in Hev. rewrite length_map in Hev. rewrite <- Hev.
  by vm_compute.
Defined.

(** * Further properties: contacts and their channels *)

Section contact_order.

Import Arrangement_Context State.

Implicit Types (e : env) (contacts : list (string * Z)).

(** The dict [_fix_contact_order] builds maps every contact to its
    position in [contacts]. *)
Lemma fix_contact_order_contents contacts : ∀ names (cs : gmap string nat) chans index,
  NoDup contacts.*1 →
  ∃ cs' index',
    fold_left (λ '(names, cs, chans, index) '(contact, channel),
                 (names ++ [contact], <[contact := index]> cs,
                  chans ++ [channel], S index))
              contacts (names, cs, chans, index)
      = (names ++ contacts.*1, cs', chans ++ contacts.*2, index') ∧
    (∀ i contact channel, contacts !! i = Some (contact, channel) →
       cs' !! contact = Some (index + i)) ∧
    (∀ contact, contact ∉ contacts.*1 → cs' !! contact = cs !! contact).
Proof.
  induction contacts as [|[contact channel] contacts IH];
    intros names cs chans index Hnodup.
  { exists cs, index. simpl. by rewrite !app_nil_r. }
  apply NoDup_cons in Hnodup as [Hnotin Hnodup].
  destruct (IH (names ++ [contact]) (<[contact := index]> cs) (chans ++ [channel])
               (S index) Hnodup)
    as (cs' & index' & Hfold & Hin & Hout).
  exists cs', index'. simpl. rewrite Hfold, <- !app_assoc. split; [done|]. split.
  - intros i c ch Hi. destruct i as [|i]; simpl in Hi.
    + injection Hi as -> ->. rewrite Hout by done.
      by rewrite lookup_insert_eq, Nat.add_0_r.
    + rewrite (Hin _ _ _ Hi). f_equal. lia.
  - intros c Hc. rewrite Hout by set_solver.
    apply lookup_insert_ne. set_solver.
Qed.

(** The contacts of a constructed arrangement. *)
Lemma init_contacts contacts output_triggers internal_triggers outer picks d a d' :
  NoDup contacts.*1 →
  __init__ contacts output_triggers internal_triggers outer picks d = (Return a, d') →
  _contact_names a = contacts.*1 ∧
  _channels a = contacts.*2 ∧
  (∀ i contact channel, contacts !! i = Some (contact, channel) →
     _contacts a !! contact = Some i) ∧
  (∀ contact, contact ∉ contacts.*1 → _contacts a !! contact = None).
Proof.
  intros Hnodup. unfold __init__.
  destruct (fix_contact_order_contents contacts [] ∅ [] 0 Hnodup)
    as (cs & index' & Hfold & Hin & Hout).
  simpl in Hfold.
  set (e0 := {| self := blank; _spdac := d |}).
  unfold bind at 1. unfold _fix_contact_order. rewrite Hfold.
  unfold on_self at 1, modify.
  match goal with |- context [bind _ _ ?s] => set (e1 := s) end.
  pose proof (_allocate_triggers_contacts internal_triggers output_triggers picks e1)
    as Hkeep.
  unfold bind at 1.
  destruct (_allocate_triggers internal_triggers output_triggers picks e1)
    as [[[]|x] e2]; [|discriminate].
  simpl in Hkeep. injection Hkeep as Hn Hc Hch Hv.
  intros Hret. cbn in Hret. injection Hret as <- <-. cbn.
  rewrite Hn, Hc, Hch. split; [done|]. split; [done|]. split.
  - intros i contact channel Hi. by rewrite (Hin _ _ _ Hi).
  - intros contact Hcontact. by rewrite Hout, lookup_empty.
Qed.

End contact_order.

(** X13.  A constructed arrangement refers to its contacts by name as the
    [contacts] dict gave them: [contact_names] and [channel_numbers] are
    the keys and the values of the dict in its order, the index of a
    contact is its position, and [channel(name)] is the driver's channel
    with the number given for that name.  Channel numbers are not checked
    at construction: for a number outside 1 to 4 the arrangement is built
    all the same and [channel(name)] raises [AttributeError].  A name that
    is no contact raises [KeyError]. *)
Theorem arrangement_resolves_contact_names
    (contacts : list (string * Z)) (output_triggers : option (list (string * Z)))
    (internal_triggers : option (list string)) (outer_trigger_channel : option Z)
    (picks : list nat) (d d' : SPDac.t) (a : Arrangement_Context.t) :
  NoDup contacts.*1 →
  Arrangement_Context.__init__ contacts output_triggers internal_triggers
    outer_trigger_channel picks d = (Return a, d') →
  let e := {| Arrangement_Context.self := a; Arrangement_Context._spdac := d' |} in
  Arrangement_Channels.contact_names e = (Return contacts.*1, e) ∧
  Arrangement_Channels.channel_numbers e = (Return contacts.*2, e) ∧
  (∀ i name channel_number,
     contacts !! i = Some (name, channel_number) →
     Arrangement_Context._contact_index name e = (Return i, e) ∧
     Arrangement_Channels.channel name e
       = (if decide (1 ≤ channel_number ≤ 4)%Z
          then Return channel_number else Raise AttributeError, e)) ∧
  (∀ name, name ∉ contacts.*1 →
     Arrangement_Channels.channel name e = (Raise KeyError, e)).
Proof.
  intros Hnodup Hinit e.
  destruct (init_contacts _ _ _ _ _ _ _ _ Hnodup Hinit) as (Hnames & Hchans & Hin & Hout).
  split; [|split; [|split]].
  - unfold Arrangement_Channels.contact_names, Arrangement_Context.attr. cbn.
    by rewrite Hnames.
  - unfold Arrangement_Channels.channel_numbers, Arrangement_Context.attr. cbn.
    by rewrite Hchans.
  - intros i name channel_number Hi. split.
    { apply _contact_index_Some. cbn. by eapply Hin. }
    unfold Arrangement_Channels.channel, bind, Arrangement_Context.attr. cbn.
    rewrite (Hin _ _ _ Hi), Hchans. cbn. unfold lift, getitem.
    rewrite list_lookup_fmap, Hi. cbn.
    unfold Arrangement_Context.on_spdac, zoom, SPDac.channel.
    by destruct (decide (1 ≤ channel_number ≤ 4)%Z).
  - intros name Hname.
    unfold Arrangement_Channels.channel, bind, Arrangement_Context.attr. cbn.
    by rewrite (Hout _ Hname).
Qed.

Lemma arrangement_resolves_contact_names_witness :
  let contacts := [("plunger", 3%Z); ("barrier", 7%Z)] in
  NoDup contacts.*1 ∧
  ∃ a d',
    Arrangement_Context.__init__ contacts None None None [] SPDac.init = (Return a, d') ∧
    let e := {| Arrangement_Context.self := a; Arrangement_Context._spdac := d' |} in
    Arrangement_Channels.channel "plunger" e = (Return 3%Z, e) ∧
    Arrangement_Channels.channel "barrier" e = (Raise AttributeError, e) ∧
    Arrangement_Channels.channel "gate" e = (Raise KeyError, e).
Proof.
  intros contacts.
  assert (Hnodup : NoDup contacts.*1).
  { apply NoDup_ListNoDup. repeat constructor; simpl; intuition discriminate. }
  split; [exact Hnodup|].
  destruct (Arrangement_Context.__init__ contacts None None None [] SPDac.init)
    as [[a|x] d'] eqn:Hinit; [|by vm_compute in Hinit].
  exists a, d'. split; [reflexivity|].
  destruct (arrangement_resolves_contact_names _ _ _ _ _ _ _ _ Hnodup Hinit)
    as (_ & _ & Hin & Hout).
  intros e. split; [|split].
  - exact (proj2 (Hin 0 "plunger" 3%Z eq_refl)).
  - exact (proj2 (Hin 1 "barrier" 7%Z eq_refl)).
  - apply Hout. cbn. rewrite !elem_of_cons, elem_of_nil.
    intros [?|[?|[]]]; discriminate.
Defined.

(** * Further properties: where setting the voltages stops *)

Section effectuate.

Import Arrangement_Context State Validation.

Implicit Types (e : env) (channels : list Z).

Local Abbreviation effectuate_body :=
  (λ '(index, channel_number),
     do vs <- actual_voltages;
     do actual_V <- lift (getitem index vs);
     do ch <- on_spdac (SPDac.channel channel_number);
     on_spdac (SPDacChannel.dc_constant_V ch actual_V)).

(** One round of the loop of [_effectuate_virtual_voltages]. *)
Lemma effectuate_round index c x e :
  physical e !! index = Some x →
  match rejection c x with
  | None =>
      ∃ e', effectuate_body (index, c) e = (Return tt, e') ∧
            only_written e e' ∧
            written e' = written e ++ [sour_volt_mode_fix c; sour_volt c x]
  | Some exn => effectuate_body (index, c) e = (Raise exn, e)
  end.
Proof.
  intros Hx. unfold rejection.
  assert (Hget : ∀ B (k : float → M env B),
            (do vs <- actual_voltages; do actual_V <- lift (getitem index vs); k actual_V) e
            = k x e).
  { intros B k. erewrite bind_Return; [|apply actual_voltages_eq].
    unfold bind at 1, lift, getitem. by rewrite Hx. }
  rewrite Hget. clear Hget.
  destruct (decide (1 ≤ c ≤ 4)%Z) as [Hc|Hc]; last first.
  { unfold bind, on_spdac, zoom, SPDac.channel. rewrite decide_False by done.
    unfold raise. by destruct e. }
  assert (Hch : on_spdac (SPDac.channel c) e = (Return c, e)).
  { unfold on_spdac, zoom, SPDac.channel. rewrite decide_True by done.
    unfold ret. by destruct e. }
  erewrite bind_Return by exact Hch.
  unfold SPDacChannel.dc_constant_V.
  destruct (_ && _).
  - eexists. split; [reflexivity|]. split; [by repeat split|].
    unfold written. simpl. by rewrite <- app_assoc.
  - by destruct e.
Qed.

(** The loop, from the channel at position [off] on: it runs through
    the channels that accept their voltage and stops at the first one
    that does not. *)
Lemma effectuate_loop_exact channels : ∀ off e,
  off + length channels ≤ length (physical e) →
  ((∀ k c x, channels !! k = Some c → physical e !! (off + k) = Some x →
             rejection c x = None) →
     ∃ e', for_each (imap (λ index channel_number, (off + index, channel_number))
                          channels) effectuate_body e = (Return tt, e') ∧
           only_written e e' ∧
           written e'
             = written e ++ voltage_writes channels (drop off (physical e))) ∧
  (∀ k c x exn,
     channels !! k = Some c → physical e !! (off + k) = Some x →
     rejection c x = Some exn →
     (∀ j c' x', j < k → channels !! j = Some c' → physical e !! (off + j) = Some x' →
                 rejection c' x' = None) →
     ∃ e', for_each (imap (λ index channel_number, (off + index, channel_number))
                          channels) effectuate_body e = (Raise exn, e') ∧
           only_written e e' ∧
           written e'
             = written e ++ voltage_writes (take k channels) (drop off (physical e))).
Proof.
  induction channels as [|c channels IH]; intros off e Hlen.
  { split.
    - intros _. exists e. split; [done|]. split; [apply only_written_refl|].
      by rewrite app_nil_r.
    - intros k c x exn Hc. done. }
  simpl in Hlen.
  destruct (lookup_lt_is_Some_2 (physical e) off) as [x Hx]; [lia|].
  pose proof (effectuate_round off c x e Hx) as Hround.
  assert (Hshift :
    imap (λ index channel_number, (off + index, channel_number)) (c :: channels)
    = (off, c) :: imap (λ index channel_number, (S off + index, channel_number))
                       channels).
  { cbn [imap]. rewrite Nat.add_0_r. f_equal.
    apply imap_ext. intros i y _. simpl. f_equal. lia. }
  rewrite Hshift. cbn [for_each].
  split.
  - intros Hall.
    rewrite (Hall 0 c x eq_refl) in Hround by (by rewrite Nat.add_0_r).
    destruct Hround as (e1 & Hrun1 & Hframe1 & Hw1).
    pose proof (only_written_physical _ _ Hframe1) as Hphys.
    destruct (IH (S off) e1) as [Hreturn _]; [rewrite Hphys; lia|].
    destruct Hreturn as (e' & Hrun & Hframe & Hw).
    { intros k c' x' Hc' Hx'. rewrite Hphys in Hx'.
      apply (Hall (S k) c' x'); [done|].
      by replace (off + S k) with (S off + k) by lia. }
    exists e'. split; [|split].
    + by erewrite bind_Return.
    + by eapply only_written_trans.
    + rewrite Hw, Hw1, Hphys, <- app_assoc. f_equal.
      by rewrite (drop_S _ _ _ Hx).
  - intros k c' x' exn Hc' Hx' Hrej Hbefore.
    destruct k as [|k].
    + simpl in Hc'. injection Hc' as <-.
      rewrite Nat.add_0_r, Hx in Hx'. injection Hx' as <-.
      rewrite Hrej in Hround.
      exists e. split; [|split].
      * by erewrite bind_Raise.
      * apply only_written_refl.
      * by rewrite app_nil_r.
    + rewrite (Hbefore 0 c x) in Hround; [|lia|done|by rewrite Nat.add_0_r].
      destruct Hround as (e1 & Hrun1 & Hframe1 & Hw1).
      pose proof (only_written_physical _ _ Hframe1) as Hphys.
      destruct (IH (S off) e1) as [_ Hraise]; [rewrite Hphys; lia|].
      destruct (Hraise k c' x' exn) as (e' & Hrun & Hframe & Hw).
      { done. }
      { rewrite Hphys. by replace (S off + k) with (off + S k) by lia. }
      { done. }
      { intros j c'' x'' Hj Hc'' Hx''. rewrite Hphys in Hx''.
        apply (Hbefore (S j) c'' x''); [lia|done|].
        by replace (off + S j) with (S off + j) by lia. }
      exists e'. split; [|split].
      * by erewrite bind_Return.
      * by eapply only_written_trans.
      * rewrite Hw, Hw1, Hphys, <- app_assoc. f_equal.
        by rewrite (drop_S _ _ _ Hx).
Qed.

End effectuate.

(** X14.  [_effectuate_virtual_voltages] goes through the channels in
    order and stops at the first one that does not take its physical
    voltage: with [AttributeError] when the channel number is not one of
    the driver's channels, with [ValueError] when the voltage is outside
    -10 V to 10 V (or is not a number).  The channels before that one have
    been set by then and stay set, the others are not touched.  When no
    channel refuses, the call returns with every channel set.  Only the
    commands written change the state. *)
Theorem effectuate_stops_at_first_rejection (e : Arrangement_Context.env) :
  let channels := Arrangement_Context._channels (Arrangement_Context.self e) in
  let vs := State.physical e in
  length channels ≤ length vs →
  ((∀ k c x, channels !! k = Some c → vs !! k = Some x → Validation.rejection c x = None) →
     ∃ e', Arrangement_Context._effectuate_virtual_voltages e = (Return tt, e') ∧
           State.only_written e e' ∧
           State.written e' = State.written e ++ State.voltage_writes channels vs) ∧
  (∀ k c x exn,
     channels !! k = Some c → vs !! k = Some x →
     Validation.rejection c x = Some exn →
     (∀ j c' x', j < k → channels !! j = Some c' → vs !! j = Some x' →
                 Validation.rejection c' x' = None) →
     ∃ e', Arrangement_Context._effectuate_virtual_voltages e = (Raise exn, e') ∧
           State.only_written e e' ∧
           State.written e'
             = State.written e ++ State.voltage_writes (take k channels) vs).
Proof.
  intros channels vs Hlen.
  exact (effectuate_loop_exact channels 0 e Hlen).
Qed.

Lemma effectuate_stops_at_first_rejection_witness :
  let e := State.with_virtual_voltages [1; 11]%float Example.ab in
  length (Arrangement_Context._channels (Arrangement_Context.self e))
    ≤ length (State.physical e) ∧
  ∃ e', Arrangement_Context._effectuate_virtual_voltages e = (Raise ValueError, e') ∧
        State.written e' = [sour_volt_mode_fix 1; sour_volt 1 1].
Proof.
  intros e.
  assert (Hlen : length (Arrangement_Context._channels (Arrangement_Context.self e))
                 ≤ length (State.physical e)) by (vm_compute; lia).
  split; [exact Hlen|].
  destruct (effectuate_stops_at_first_rejection e Hlen) as [_ Hstop].
  destruct (Hstop 1 2%Z 11%float ValueError) as (e' & Hrun & _ & Hw).
  - by vm_compute.
  - by vm_compute.
  - by vm_compute.
  - intros [|j] c x Hj Hc Hx; [|lia].
    apply (f_equal (default 0%Z)) in Hc. vm_compute in Hc. subst c.
    apply (f_equal (default 0%float)) in Hx. vm_compute in Hx. subst x.
    by vm_compute.
  - exists e'. split; [exact Hrun|]. rewrite Hw. by vm_compute.
Defined.

(** * Further properties: the first voltage on a new arrangement *)

Section in_range.

Implicit Types (x a : float).

(** Comparisons do not tell [0.0 + x] from [x]. *)
Lemma leb_add_zero_r a x : (a <=? 0 + x)%float = (a <=? x)%float.
Proof.
  rewrite !FloatAxioms.leb_spec, add_zero_l.
  by destruct (Prim2SF a) as [[]|[]| |[]], (Prim2SF x) as [[]|[]| |[]].
Qed.

Lemma leb_add_zero_l a x : (0 + x <=? a)%float = (x <=? a)%float.
Proof.
  rewrite !FloatAxioms.leb_spec, add_zero_l.
  by destruct (Prim2SF a) as [[]|[]| |[]], (Prim2SF x) as [[]|[]| |[]].
Qed.

Lemma rejection_add_zero c x :
  Validation.rejection c (0 + x) = Validation.rejection c x.
Proof. unfold Validation.rejection. by rewrite leb_add_zero_r, leb_add_zero_l. Qed.

(** A voltage the validator accepts is a finite number. *)
Lemma in_range_finite x :
  ((-10 <=? x) && (x <=? 10))%float = true → PrimFloat.is_finite x = true.
Proof.
  intros [Hlow Hhigh]%andb_true_iff.
  rewrite FloatAxioms.leb_spec in Hlow, Hhigh.
  unfold PrimFloat.is_finite, PrimFloat.is_nan, PrimFloat.is_infinity.
  rewrite !FloatAxioms.eqb_spec, FloatAxioms.abs_spec.
  change (Prim2SF infinity) with (S754_infinity false).
  change (Prim2SF 10) with (S754_finite false 5629499534213120 (-49)) in Hhigh.
  change (Prim2SF (-10)) with (S754_finite true 5629499534213120 (-49)) in Hlow.
  destruct (Prim2SF x) as [s|[]| |s m e]; try discriminate; try reflexivity.
  unfold SFeqb, SFcompare, SFabs. cbn.
  rewrite Z.compare_refl, Pos.compare_cont_refl. by destruct s.
Qed.

End in_range.

(** X15.  The first voltage on a new arrangement.  When the channel
    numbers of the contacts are channels of the driver and no rounding is
    in force, [set_virtual_voltage(name, v)] on the arrangement as it was
    constructed returns for every voltage the validator accepts; the
    vector of virtual voltages is then zero everywhere but at the contact,
    and every channel has been written once, in the order of the contacts:
    the channel of the contact with [0.0 + v], which equals [v] as a
    number, all other channels with [0.0]. *)
Theorem new_arrangement_sets_one_contact
    (contacts : list (string * Z)) (output_triggers : option (list (string * Z)))
    (internal_triggers : option (list string)) (outer_trigger_channel : option Z)
    (picks : list nat) (d d' : SPDac.t) (a : Arrangement_Context.t)
    (i : nat) (name : string) (channel_number : Z) (v : float) :
  NoDup contacts.*1 →
  Arrangement_Context.__init__ contacts output_triggers internal_triggers
    outer_trigger_channel picks d = (Return a, d') →
  Arrangement_Context.truthy (SPDac._round_off d') = false →
  Forall (λ c, 1 ≤ c ≤ 4)%Z contacts.*2 →
  contacts !! i = Some (name, channel_number) →
  ((-10 <=? v) && (v <=? 10))%float = true →
  let e := {| Arrangement_Context.self := a; Arrangement_Context._spdac := d' |} in
  let zeros := np.zeros (length contacts) in
  ∃ e',
    Arrangement_Context.set_virtual_voltage name v e = (Return tt, e') ∧
    State.virtual e' = <[i := v]> zeros ∧
    State.physical e' = <[i := (0 + v)%float]> zeros ∧
    State.same_voltage (0 + v) v ∧
    State.written e'
      = SPDac.visa d' ++ State.voltage_writes contacts.*2 (<[i := (0 + v)%float]> zeros).
Proof.
  intros Hnodup Hinit Hround Hchannels Hi Hrange e zeros.
  destruct (init_Return _ _ _ _ _ _ _ _ Hnodup Hinit)
    as (_ & Hch & Hv & Hc & Hsize & _).
  destruct (init_contacts _ _ _ _ _ _ _ _ Hnodup Hinit) as (_ & _ & Hin & _).
  pose proof (lookup_lt_Some _ _ _ Hi) as Hbound.
  pose proof (in_range_finite v Hrange) as Hfinite.
  set (e1 := State.with_virtual_voltages (<[i := v]> zeros) e).
  assert (Hphysical : State.physical e1 = <[i := (0 + v)%float]> zeros).
  { rewrite physical_eq. cbn zeta.
    change (SPDac._round_off (Arrangement_Context._spdac e1)) with (SPDac._round_off d').
    rewrite Hround.
    change (Arrangement_Context._correction (Arrangement_Context.self e1))
      with (Arrangement_Context._correction a).
    change (State.virtual e1) with (<[i := v]> zeros).
    rewrite Hc.
    replace (length contacts) with (length (<[i := v]> zeros))
      by (unfold zeros, np.zeros; by rewrite length_insert, repeat_length).
    rewrite matvec_identity.
    - rewrite list_fmap_insert. f_equal. unfold zeros, np.zeros.
      clear. induction (length contacts) as [|n IH]; [done|]. simpl. by f_equal.
    - apply Forall_insert; [|done]. unfold zeros, np.zeros.
      apply Forall_forall. intros x Hx. apply list_elem_of_In, repeat_spec in Hx.
      by subst x. }
  destruct (effectuate_loop_exact (Arrangement_Context._channels a) 0 e1)
    as [Hreturn _].
  { rewrite Hphysical, Hch, length_insert, length_fmap. unfold zeros, np.zeros.
    rewrite repeat_length. cbn. lia. }
  destruct Hreturn as (e' & Hrun & Hframe & Hw).
  { intros k c x Hk Hx. cbn [Nat.add] in Hx. rewrite Hphysical in Hx. rewrite Hch in Hk.
    assert (Hc14 : (1 ≤ c ≤ 4)%Z).
    { rewrite Forall_forall in Hchannels. apply Hchannels.
      by eapply list_elem_of_lookup_2. }
    destruct (decide (k = i)) as [->|Hne].
    - rewrite list_lookup_insert_eq in Hx
        by (unfold zeros, np.zeros; by rewrite repeat_length).
      injection Hx as <-. rewrite rejection_add_zero.
      unfold Validation.rejection. by rewrite decide_True, Hrange.
    - rewrite list_lookup_insert_ne in Hx by done.
      apply list_elem_of_lookup_2, list_elem_of_In, repeat_spec in Hx. subst x.
      unfold Validation.rejection. by rewrite decide_True. }
  exists e'. split; [|split; [|split; [|split]]].
  - unfold Arrangement_Context.set_virtual_voltage,
      Arrangement_Context._effectuate_virtual_voltage.
    erewrite bind_Return; last first.
    { unfold try_except. rewrite (_contact_index_Some name i e); [done|].
      cbn. by eapply Hin. }
    erewrite bind_Return; last first.
    { apply store_virtual_voltage_lt. unfold State.virtual. cbn.
      rewrite Hv. unfold np.zeros. by rewrite repeat_length. }
    unfold State.virtual. cbn [Arrangement_Context.self e]. rewrite Hv. exact Hrun.
  - destruct Hframe as (Hs & _). unfold State.virtual. by rewrite Hs.
  - by rewrite (only_written_physical _ _ Hframe).
  - by apply add_zero_eqb.
  - rewrite Hw, Hphysical. by rewrite Hch.
Qed.

Lemma new_arrangement_sets_one_contact_witness :
  let contacts := [("a", 1%Z); ("b", 2%Z); ("c", 4%Z)] in
  NoDup contacts.*1 ∧
  Forall (λ c, 1 ≤ c ≤ 4)%Z contacts.*2 ∧
  ((-10 <=? 2.5) && (2.5 <=? 10))%float = true ∧
  ∃ a d' e',
    Arrangement_Context.__init__ contacts None None None [] SPDac.init = (Return a, d') ∧
    Arrangement_Context.set_virtual_voltage "b" 2.5
      {| Arrangement_Context.self := a; Arrangement_Context._spdac := d' |}
    = (Return tt, e') ∧
    State.written e'
      = [sour_volt_mode_fix 1; sour_volt 1 0; sour_volt_mode_fix 2; sour_volt 2 2.5;
         sour_volt_mode_fix 4; sour_volt 4 0].
Proof.
  intros contacts.
  assert (Hnodup : NoDup contacts.*1).
  { apply NoDup_ListNoDup. repeat constructor; simpl; intuition discriminate. }
  assert (Hchannels : Forall (λ c, 1 ≤ c ≤ 4)%Z contacts.*2).
  { cbn. repeat first [apply List.Forall_nil | apply List.Forall_cons; [lia|]]. }
  assert (Hrange : ((-10 <=? 2.5) && (2.5 <=? 10))%float = true) by (by vm_compute).
  split; [exact Hnodup|]. split; [exact Hchannels|]. split; [exact Hrange|].
  destruct (Arrangement_Context.__init__ contacts None None None [] SPDac.init)
    as [[a|x] d'] eqn:Hinit; [|by vm_compute in Hinit].
  assert (Hround : Arrangement_Context.truthy (SPDac._round_off d') = false).
  { apply (f_equal (λ r, Arrangement_Context.truthy (SPDac._round_off r.2))) in Hinit.
    cbn [snd] in Hinit. rewrite <- Hinit. by vm_compute. }
  assert (Hvisa : SPDac.visa d' = []).
  { apply (f_equal (λ r, SPDac.visa r.2)) in Hinit.
    cbn [snd] in Hinit. rewrite <- Hinit. by vm_compute. }
  destruct (new_arrangement_sets_one_contact contacts None None None [] SPDac.init d' a
              1 "b" 2%Z 2.5 Hnodup Hinit Hround Hchannels eq_refl Hrange)
    as (e' & Hrun & _ & _ & _ & Hw).
  exists a, d', e'. split; [reflexivity|]. split; [exact Hrun|].
  rewrite Hw, Hvisa. by vm_compute.
Defined.

(** * Further properties: DC generator contexts *)

Section generator_steps.

Import Generator.

Implicit Types (d : driver) (e : env) (c : t) (cmds : list command) (p : gset Z).

Lemma wrote_nil d : wrote [] d = d.
Proof.
  destruct d as [s r l]. unfold wrote. cbn.
  destruct (SPDac._record_commands s); by rewrite !app_nil_r.
Qed.

Lemma wrote_wrote cmds1 cmds2 d : wrote cmds2 (wrote cmds1 d) = wrote (cmds1 ++ cmds2) d.
Proof.
  unfold wrote. cbn. destruct (SPDac._record_commands (spdac d));
    by rewrite <- !app_assoc.
Qed.

(** *** States in normal form *)

Lemma after_id e : after (self e) [] (pool e) e = e.
Proof.
  destruct e as [c [[s ro rc ss v] r l]]. unfold after, pool. cbn.
  by rewrite wrote_nil.
Qed.

Lemma after_after c1 c2 cmds1 cmds2 p1 p2 e :
  after c2 cmds2 p2 (after c1 cmds1 p1 e) = after c2 (cmds1 ++ cmds2) p2 e.
Proof.
  unfold after, wrote. cbn.
  destruct (SPDac._record_commands (spdac (_parent e))); by rewrite <- !app_assoc.
Qed.

Lemma self_after c cmds p e : self (after c cmds p e) = c.
Proof. reflexivity. Qed.

Lemma pool_after c cmds p e : pool (after c cmds p e) = p.
Proof. reflexivity. Qed.

Lemma sent_after c cmds p e :
  sent (_parent (after c cmds p e)) = sent (_parent e) ++ cmds.
Proof. reflexivity. Qed.

(** *** The effect of the primitive steps *)

Lemma _write_channel_after (cmd : Z → command) e :
  _write_channel cmd e = (Return tt, after (self e) [cmd (_channel (self e))] (pool e) e).
Proof.
  unfold _write_channel, bind, attr, on_parent, zoom, write, modify, after.
  do 3 f_equal. destruct e as [c [[s ro rc ss v] r l]]. reflexivity.
Qed.

Lemma on_self_after (f : t → t) e :
  on_self f e = (Return tt, after (f (self e)) [] (pool e) e).
Proof.
  unfold on_self, modify, after. rewrite wrote_nil.
  by destruct e as [c [[s ro rc ss v] r l]].
Qed.

Lemma attr_after {A} (f : t → A) e : attr f e = (Return (f (self e)), e).
Proof. reflexivity. Qed.

Lemma free_after trigger e :
  on_parent (on_spdac (SPDac.free_trigger trigger)) e
  = (Return tt, after (self e) [] (pool e ∪ {[value trigger]}) e).
Proof.
  unfold on_parent, on_spdac, zoom. rewrite free_trigger_eq. unfold after.
  rewrite wrote_nil. reflexivity.
Qed.

Lemma allocate_after_empty pick e :
  pool e = ∅ → allocate_trigger pick e = (Raise ValueError, e).
Proof.
  intros Hempty. unfold allocate_trigger, on_parent, on_spdac, zoom.
  rewrite (allocate_trigger_empty pick _ Hempty). by destruct e as [c [s r l]].
Qed.

Lemma allocate_after_member pick e :
  pool e ≠ ∅ →
  ∃ n, n ∈ pool e ∧
       allocate_trigger pick e
       = (Return {| value := n |}, after (self e) [] (pool e ∖ {[n]}) e).
Proof.
  intros Hne. destruct (allocate_trigger_member pick _ Hne) as (n & Hn & Hrun).
  exists n. split; [done|].
  unfold allocate_trigger, on_parent, on_spdac, zoom. rewrite Hrun. unfold after.
  rewrite wrote_nil. reflexivity.
Qed.

(** *** The methods that only write *)

Lemma ret_after {A} (x : A) e : ret x e = (Return x, e).
Proof. reflexivity. Qed.

Lemma _make_ready_to_start_after e :
  _make_ready_to_start e
  = (Return tt, after (self e) [sour_dc_init_cont (_channel (self e)) true] (pool e) e).
Proof. apply _write_channel_after. Qed.

Lemma _make_ready_to_start_once_after e :
  _make_ready_to_start_once e
  = (Return tt, after (self e) [sour_dc_init_cont (_channel (self e)) false] (pool e) e).
Proof. apply _write_channel_after. Qed.

Lemma abort_after e :
  abort e = (Return tt, after (self e) [plain (sour_dc_abor (_channel (self e)))] (pool e) e).
Proof. apply _write_channel_after. Qed.

Lemma _set_delay_after delay_s e :
  _set_delay delay_s e
  = (Return tt, after (self e) [sour_dc_del (_channel (self e)) delay_s] (pool e) e).
Proof. apply _write_channel_after. Qed.

End generator_steps.

(** Symbolic execution of a method body: one [bind] at a time, the state
    kept in normal form. *)
Ltac generator_normalize :=
  rewrite ?self_after, ?pool_after, ?after_after; cbn [app].

Ltac generator_step :=
  lazymatch goal with
  | |- bind ?m ?k ?e = _ =>
      erewrite (bind_Return m k);
      [|first [ apply _write_channel_after | apply on_self_after | apply attr_after
              | apply free_after | apply ret_after
              | apply _make_ready_to_start_after | apply _make_ready_to_start_once_after
              | apply abort_after | apply _set_delay_after ]];
      generator_normalize
  end.

Ltac generator_finish :=
  first [ rewrite _write_channel_after | rewrite on_self_after | rewrite attr_after
        | rewrite free_after | rewrite ret_after
        | rewrite _make_ready_to_start_after | rewrite _make_ready_to_start_once_after
        | rewrite abort_after | rewrite _set_delay_after ];
  generator_normalize; try reflexivity.

Section generator_methods.

Import Generator.

Implicit Types (d : driver) (e : env) (c : t) (cmds : list command) (p : gset Z).

Lemma _switch_to_immediate_trigger_after e :
  _switch_to_immediate_trigger e
  = (Return tt, after (self e)
                  [sour_dc_init_cont (_channel (self e)) false;
                   sour_dc_trig_sour (_channel (self e)) imm] (pool e) e).
Proof. unfold _switch_to_immediate_trigger. generator_step. generator_finish. Qed.

Lemma _set_triggering_after e :
  _set_triggering e
  = (Return tt, after (self e)
                  [sour_dc_trig_sour (_channel (self e)) bus;
                   sour_dc_init_cont (_channel (self e)) true] (pool e) e).
Proof. unfold _set_triggering. generator_step. generator_finish. Qed.

Lemma start_on_after trigger e :
  start_on trigger e
  = (Return tt, after (set_trigger (Some trigger) (self e))
                  [sour_dc_trig_sour (_channel (self e)) (int (value trigger));
                   sour_dc_init_cont (_channel (self e)) true] (pool e) e).
Proof. unfold start_on. do 2 generator_step. generator_finish. Qed.

Lemma start_once_on_after trigger e :
  start_once_on trigger e
  = (Return tt, after (set_trigger (Some trigger) (self e))
                  [sour_dc_trig_sour (_channel (self e)) (int (value trigger));
                   sour_dc_init_cont (_channel (self e)) false] (pool e) e).
Proof. unfold start_once_on. do 2 generator_step. generator_finish. Qed.

Lemma start_on_external_after trigger e :
  start_on_external trigger e
  = (Return tt, after (set_trigger None (self e))
                  [sour_dc_trig_sour (_channel (self e)) (ext trigger);
                   sour_dc_init_cont (_channel (self e)) true] (pool e) e).
Proof. unfold start_on_external. do 2 generator_step. generator_finish. Qed.

Lemma start_once_on_external_after trigger e :
  start_once_on_external trigger e
  = (Return tt, after (set_trigger None (self e))
                  [sour_dc_trig_sour (_channel (self e)) (ext trigger);
                   sour_dc_init_cont (_channel (self e)) false] (pool e) e).
Proof. unfold start_once_on_external. do 2 generator_step. generator_finish. Qed.

Lemma start_after e :
  start e
  = (Return tt,
     after (self e)
       match _trigger (self e) with
       | Some trigger => [sour_dc_init_cont (_channel (self e)) true; tint (value trigger)]
       | None => [sour_dc_init_cont (_channel (self e)) false;
                  sour_dc_trig_sour (_channel (self e)) imm;
                  sour_dc_init (_channel (self e))]
       end (pool e) e).
Proof.
  unfold start, _start. generator_step. destruct (_trigger (self e)) as [trigger|].
  - generator_step. generator_finish.
  - erewrite bind_Return by apply _switch_to_immediate_trigger_after.
    generator_normalize. generator_finish.
Qed.

(** *** Markers *)

Lemma marker_method_present get set m pick e trigger :
  get (self e) = Some trigger →
  marker_method get set m pick e
  = (Return trigger,
     after (self e) [sour_dc_mark m (_channel (self e)) (value trigger)] (pool e) e).
Proof.
  intros Hget. unfold marker_method. generator_step. rewrite Hget.
  do 2 generator_step. generator_finish.
Qed.

Lemma marker_method_empty get set m pick e :
  get (self e) = None → pool e = ∅ →
  marker_method get set m pick e = (Raise ValueError, e).
Proof.
  intros Hget Hempty. unfold marker_method. generator_step. rewrite Hget.
  erewrite bind_Raise; [done|]. erewrite bind_Raise; [done|].
  by apply allocate_after_empty.
Qed.

Lemma marker_method_member get set m pick e :
  get (self e) = None → pool e ≠ ∅ →
  ∃ n, n ∈ pool e ∧
    marker_method get set m pick e
    = (Return {| value := n |},
       after (set (Some {| value := n |}) (self e))
             [sour_dc_mark m (_channel (set (Some {| value := n |}) (self e))) n]
             (pool e ∖ {[n]}) e).
Proof.
  intros Hget Hne. destruct (allocate_after_member pick e Hne) as (n & Hn & Hrun).
  exists n. split; [done|].
  unfold marker_method. generator_step. rewrite Hget.
  erewrite bind_Return; last first.
  { erewrite bind_Return by exact Hrun. generator_normalize.
    generator_step. generator_finish. }
  generator_normalize. generator_step. generator_finish.
Qed.

End generator_methods.

(** X17.  [dc_sweep] never returns a context.  The constructor of
    [Sweep_Context] calls [self._set_direction], which no class of a
    sweep context defines, so it raises [AttributeError] for every choice
    of arguments.  By then it has put the generator on hold and has
    written the sweep mode, the start and stop voltage, the number of
    points, the generation mode, the dwell time and the delay, and these
    commands stay written; the repetition count, the bus trigger and the
    [init:cont] command, which come after the failing call, are never
    written.  The trigger pool is not touched. *)
Theorem dc_sweep_always_raises
    (channum : Z) (start_V stop_V : float) (points : Z) (repetitions : option Z)
    (dwell_s delay_s : float) (backwards stepped : bool) (d : Generator.driver) :
  Generator.dc_sweep channum start_V stop_V points repetitions dwell_s delay_s
    backwards stepped d
  = (Raise AttributeError,
     Generator.wrote
       [Generator.sour_dc_trig_sour channum Generator.hold;
        Generator.sour_volt_mode_swe channum;
        Generator.sour_swe_star channum start_V;
        Generator.sour_swe_stop channum stop_V;
        Generator.sour_swe_poin channum points;
        Generator.sour_swe_gen channum stepped;
        Generator.sour_swe_dwel channum dwell_s;
        Generator.sour_dc_del channum delay_s] d).
Proof.
  destruct d as [[p ro [] ss v] rec snt]; cbv -[app]; by rewrite <- !app_assoc.
Qed.

Section generator_lifecycle.

Import Generator.

Implicit Types (d : driver) (e : env) (c : t) (cmds : list command) (p : gset Z).

Lemma unchanged_after c cmds e :
  marker_ids c = marker_ids (self e) → unchanged_or_taken e (after c cmds (pool e) e).
Proof. intros Hc. by left. Qed.

Lemma marker_ids_set_trigger x c : marker_ids (set_trigger x c) = marker_ids c.
Proof. reflexivity. Qed.

Lemma marker_method_effect get set m pick e :
  (∀ x c, get c = None →
     marker_ids (set (Some x) c) = {[value x]} ∪ marker_ids c) →
  unchanged_or_taken e (marker_method get set m pick e).2.
Proof.
  intros Hset. destruct (get (self e)) as [trigger|] eqn:Hget.
  { rewrite (marker_method_present _ _ _ _ _ _ Hget). by apply unchanged_after. }
  destruct (decide (pool e = ∅)) as [Hempty|Hne].
  { rewrite (marker_method_empty _ _ _ _ _ Hget Hempty). by left. }
  destruct (marker_method_member get set m pick e Hget Hne) as (n & Hn & ->).
  right. exists n. split; [done|]. split; [done|].
  cbn [snd]. rewrite self_after. by apply Hset.
Qed.

Lemma bind_ret_snd {S A} (m : M S A) s : (bind m (λ _, ret tt) s).2 = (m s).2.
Proof. unfold bind. by destruct (m s) as [[a|x] s']. Qed.

(** Every call keeps the markers and the pool, or moves one id from
    the pool to the markers. *)
Lemma perform_effect call e : unchanged_or_taken e (perform call e).2.
Proof.
  destruct call; cbn [perform].
  - rewrite start_on_after. by apply unchanged_after.
  - rewrite start_once_on_after. by apply unchanged_after.
  - rewrite start_on_external_after. by apply unchanged_after.
  - rewrite start_once_on_external_after. by apply unchanged_after.
  - rewrite abort_after. by apply unchanged_after.
  - rewrite bind_ret_snd. apply marker_method_effect.
    intros x [k ch tr [a|] [b|] [c|] [d|]] Hnone; try discriminate;
      unfold marker_ids, markers; cbn; set_solver.
  - rewrite bind_ret_snd. apply marker_method_effect.
    intros x [k ch tr [a|] [b|] [c|] [d|]] Hnone; try discriminate;
      unfold marker_ids, markers; cbn; set_solver.
  - rewrite bind_ret_snd. apply marker_method_effect.
    intros x [k ch tr [a|] [b|] [c|] [d|]] Hnone; try discriminate;
      unfold marker_ids, markers; cbn; set_solver.
  - rewrite bind_ret_snd. apply marker_method_effect.
    intros x [k ch tr [a|] [b|] [c|] [d|]] Hnone; try discriminate;
      unfold marker_ids, markers; cbn; set_solver.
  - rewrite start_after. by apply unchanged_after.
  - unfold append, bind, attr. destruct (class_of (self e)); [by left|].
    fold (bind (_write_channel (λ ch, sour_list_volt_app ch voltages))
               (λ _, _make_ready_to_start) e).
    erewrite bind_Return by apply _write_channel_after.
    rewrite _make_ready_to_start_after. generator_normalize.
    by apply unchanged_after.
Qed.

(** The invariant of a context: its markers and the free triggers are
    the triggers that were free when it was made. *)
Lemma perform_all_invariant calls : ∀ e (free : gset Z),
  marker_ids (self e) ## pool e →
  pool e ∪ marker_ids (self e) = free →
  marker_ids (self (perform_all calls e)) ## pool (perform_all calls e) ∧
  pool (perform_all calls e) ∪ marker_ids (self (perform_all calls e)) = free.
Proof.
  induction calls as [|call calls IH]; intros e free Hdisjoint Hall; [done|].
  cbn [perform_all fold_left]. apply IH.
  - destruct (perform_effect call e) as [[-> ->]|(n & Hn & -> & ->)]; set_solver.
  - destruct (perform_effect call e) as [[-> ->]|(n & Hn & -> & ->)]; [done|].
    rewrite <- Hall. apply set_eq. intros x.
    rewrite !elem_of_union, elem_of_difference, elem_of_singleton.
    destruct (decide (x = n)) as [->|]; tauto.
Qed.

Lemma release_marker_after (m : option SPDacTrigger_Context) (clear : Z → command) e :
  release_marker m clear e
  = (Return tt,
     after (self e)
       match m with Some _ => [clear (_channel (self e))] | None => [] end
       (pool e ∪ match m with Some trigger => {[value trigger]} | None => ∅ end) e).
Proof.
  destruct m as [trigger|]; cbn [release_marker].
  - generator_step. generator_finish.
  - rewrite union_empty_r_L, after_id. reflexivity.
Qed.

(** [close] writes its commands and puts the attached trigger and all
    markers into the pool. *)
Lemma close_after e :
  close e
  = (Return tt,
     after (self e) (closing (self e))
           (pool e ∪ attached (self e) ∪ marker_ids (self e)) e).
Proof.
  unfold close, __exit__.
  erewrite bind_Return; last first.
  { generator_step. generator_step.
    erewrite bind_Return; last first.
    { instantiate (1 := after (self e) [plain (sour_dc_abor (_channel (self e)))]
                              (pool e ∪ attached (self e)) e).
      instantiate (1 := tt). unfold attached.
      destruct (_trigger (self e)) as [trigger|].
      - generator_finish.
      - by rewrite union_empty_r_L. }
    generator_step.
    erewrite bind_Return by apply release_marker_after. generator_normalize.
    generator_step.
    erewrite bind_Return by apply release_marker_after. generator_normalize.
    generator_step.
    erewrite bind_Return by apply release_marker_after. generator_normalize.
    generator_step.
    erewrite bind_Return by apply release_marker_after. generator_normalize.
    generator_step. generator_finish. }
  unfold ret. f_equal.
  assert (Hpool : ∀ a b c d : option SPDacTrigger_Context,
    (pool e ∪ attached (self e)
       ∪ match a with Some trigger => {[value trigger]} | None => ∅ end
       ∪ match b with Some trigger => {[value trigger]} | None => ∅ end
       ∪ match c with Some trigger => {[value trigger]} | None => ∅ end
       ∪ match d with Some trigger => {[value trigger]} | None => ∅ end : gset Z)
    = pool e ∪ attached (self e) ∪ list_to_set (map value (omap id [a; b; c; d]))).
  { intros [a|] [b|] [c|] [d|]; cbn; set_solver. }
  rewrite Hpool. unfold closing, marker_ids, markers.
  by rewrite <- !app_assoc.
Qed.

Lemma dc_list_after channum voltages repetitions dwell_s delay_s backwards stepped d :
  dc_list channum voltages repetitions dwell_s delay_s backwards stepped d
  = (Return (set_repetitions repetitions (blank List_Context channum)),
     wrote [sour_dc_trig_sour channum hold;
            sour_volt_mode_list channum;
            sour_list_volt channum voltages;
            sour_list_tmod channum stepped;
            sour_list_dwel channum dwell_s;
            sour_dc_del channum delay_s;
            sour_list_dir channum backwards;
            sour_list_coun channum repetitions;
            sour_dc_trig_sour channum bus;
            sour_dc_init_cont channum true] d).
Proof.
  destruct d as [[p ro [] ss v] rec snt]; cbv -[app]; by rewrite <- !app_assoc.
Qed.

End generator_lifecycle.

(** X18.  A DC list context gives back what it took.  [dc_list] always
    returns a context, having written its ten set-up commands, the last
    two putting the generator on the bus trigger and arming it.  Whatever
    the user then calls on the context, in any order and also after calls
    that raised, the markers of the context and the free triggers are
    disjoint and together are the triggers that were free when the context
    was made.  [close] returns no error, writes the abort, one clear
    command per marker in use and the immediate trigger source, and leaves
    the pool as it was before [dc_list], with one addition: the trigger
    that was attached by [start_on] or [start_once_on], which the context
    frees although it did not allocate it. *)
Theorem dc_list_context_returns_markers
    (channum : Z) (voltages : list float) (repetitions : option Z)
    (dwell_s delay_s : float) (backwards stepped : bool)
    (calls : list Generator.call) (d : Generator.driver) :
  ∃ ctx d0,
    Generator.dc_list channum voltages repetitions dwell_s delay_s backwards stepped d
      = (Return ctx, d0) ∧
    d0 = Generator.wrote
           [Generator.sour_dc_trig_sour channum Generator.hold;
            Generator.sour_volt_mode_list channum;
            Generator.sour_list_volt channum voltages;
            Generator.sour_list_tmod channum stepped;
            Generator.sour_list_dwel channum dwell_s;
            Generator.sour_dc_del channum delay_s;
            Generator.sour_list_dir channum backwards;
            Generator.sour_list_coun channum repetitions;
            Generator.sour_dc_trig_sour channum Generator.bus;
            Generator.sour_dc_init_cont channum true] d ∧
    let e := Generator.perform_all calls
               {| Generator.self := ctx; Generator._parent := d0 |} in
    let free := SPDac._internal_triggers (Generator.spdac d) in
    Generator.marker_ids (Generator.self e) ## Generator.pool e ∧
    Generator.pool e ∪ Generator.marker_ids (Generator.self e) = free ∧
    Generator.close e
    = (Return tt,
       Generator.after (Generator.self e) (Generator.closing (Generator.self e))
         (free ∪ Generator.attached (Generator.self e)) e).
Proof.
  eexists _, _. split; [apply dc_list_after|]. split; [reflexivity|].
  intros e free.
  destruct (perform_all_invariant calls
              {| Generator.self := Generator.set_repetitions repetitions
                                     (Generator.blank Generator.List_Context channum);
                 Generator._parent := Generator.wrote
           [Generator.sour_dc_trig_sour channum Generator.hold;
            Generator.sour_volt_mode_list channum;
            Generator.sour_list_volt channum voltages;
            Generator.sour_list_tmod channum stepped;
            Generator.sour_list_dwel channum dwell_s;
            Generator.sour_dc_del channum delay_s;
            Generator.sour_list_dir channum backwards;
            Generator.sour_list_coun channum repetitions;
            Generator.sour_dc_trig_sour channum Generator.bus;
            Generator.sour_dc_init_cont channum true] d |} free)
    as [Hdisjoint Hall].
  { unfold Generator.marker_ids, Generator.markers. cbn. set_solver. }
  { unfold Generator.marker_ids, Generator.markers, Generator.pool, free. cbn.
    set_solver. }
  fold e in Hdisjoint, Hall.
  split; [exact Hdisjoint|]. split; [exact Hall|].
  rewrite close_after. do 2 f_equal. rewrite <- Hall. set_solver.
Qed.

Section marker_once.

Import Generator.

Lemma marker_method_once get set m pick pick' (e : env) :
  (∀ x c, get (set x c) = x) →
  (∀ x c, _channel (set x c) = _channel c) →
  match marker_method get set m pick e with
  | (Return trigger, e1) =>
      marker_method get set m pick' e1
      = (Return trigger,
         after (self e1) [sour_dc_mark m (_channel (self e1)) (value trigger)]
               (pool e1) e1)
  | (Raise x, e1) => x = ValueError ∧ e1 = e ∧ pool e = ∅
  end.
Proof.
  intros Hget_set Hchannel. destruct (get (self e)) as [trigger|] eqn:Hget.
  { rewrite (marker_method_present _ _ _ _ _ _ Hget).
    by apply marker_method_present. }
  destruct (decide (pool e = ∅)) as [Hempty|Hne].
  { by rewrite (marker_method_empty _ _ _ _ _ Hget Hempty). }
  destruct (marker_method_member get set m pick e Hget Hne) as (n & Hn & ->).
  apply marker_method_present. by rewrite self_after.
Qed.

End marker_once.

(** X19.  Each of the four marker methods allocates at most once.  A
    call that returns a trigger has stored it in the context, and every
    later call of the same method returns that same trigger, takes nothing
    from the pool and only writes the marker command again.  A call raises
    only when no marker is stored yet and no trigger is free; it raises
    [ValueError] and changes nothing. *)
Theorem marker_allocated_once (e : Generator.env) (pick pick' : nat) :
  let once (method : nat → M Generator.env SPDacTrigger_Context) (m : Generator.marker) :=
    match method pick e with
    | (Return trigger, e1) =>
        method pick' e1
        = (Return trigger,
           Generator.after (Generator.self e1)
             [Generator.sour_dc_mark m (Generator._channel (Generator.self e1))
                (value trigger)]
             (Generator.pool e1) e1)
    | (Raise x, e1) => x = ValueError ∧ e1 = e ∧ Generator.pool e = ∅
    end in
  once Generator.end_marker Generator.end_ ∧
  once Generator.start_marker Generator.star ∧
  once Generator.step_end_marker Generator.send ∧
  once Generator.step_start_marker Generator.sst.
Proof.
  intros once. repeat split; apply marker_method_once; by intros x [].
Qed.

(** * Further properties: starting a virtual sweep *)

Section session.

Import Arrangement_Context Sweep_Session.

Implicit Types (s : Sweep_Session.t) (cmds : list Generator.command).

Lemma session_wrote_nil s : wrote [] s = s.
Proof.
  destruct s as [c a r l]. unfold wrote. cbn.
  destruct (SPDac._record_commands (_spdac a)); by rewrite !app_nil_r.
Qed.

Lemma session_wrote_wrote cmds1 cmds2 s :
  wrote cmds2 (wrote cmds1 s) = wrote (cmds1 ++ cmds2) s.
Proof.
  unfold wrote. cbn. destruct (SPDac._record_commands (_spdac (_arrangement s)));
    by rewrite <- !app_assoc.
Qed.

Lemma on_driver_wrote {A} (m : M Generator.driver A) (r : outcome A) cmds s :
  (∀ d, m d = (r, Generator.wrote cmds d)) →
  on_driver m s = (r, wrote cmds s).
Proof.
  intros Hm. unfold on_driver. rewrite Hm. unfold wrote, Generator.wrote. cbn.
  by destruct s as [c [a d] rc l].
Qed.

Lemma on_arrangement_pure {A} (m : M env A) (x : A) s :
  m (_arrangement s) = (Return x, _arrangement s) →
  on_arrangement m s = (Return x, s).
Proof.
  intros Hm. unfold on_arrangement, zoom. rewrite Hm. by destruct s.
Qed.

Lemma session_attr {A} (f : Virtual_Sweep_Context.t → A) s :
  Sweep_Session.attr f s = (Return (f (this s)), s).
Proof. reflexivity. Qed.

Lemma _get_channel_Return index channel (e : env) :
  _channels (self e) !! index = Some channel → (1 ≤ channel ≤ 4)%Z →
  Virtual_Sweep_Context._get_channel index e = (Return channel, e).
Proof.
  intros Hindex Hchannel. unfold Virtual_Sweep_Context._get_channel.
  unfold bind, Arrangement_Context.attr, lift, getitem. rewrite Hindex.
  unfold Arrangement_Context.on_spdac, zoom, SPDac.channel.
  rewrite decide_True by done.
  by destruct e.
Qed.

Lemma get_trigger_by_name_Return name trigger (e : env) :
  dict_get name (_internal_triggers (self e)) = Some trigger →
  get_trigger_by_name name e = (Return trigger, e).
Proof.
  intros H. unfold get_trigger_by_name, bind, Arrangement_Context.attr. by rewrite H.
Qed.

Lemma start_on_wrote (c : Generator.t) trigger d :
  on_context c (Generator.start_on trigger) d
  = (Return tt,
     Generator.wrote
       [Generator.sour_dc_trig_sour (Generator._channel c)
          (Generator.int (value trigger));
        Generator.sour_dc_init_cont (Generator._channel c) true] d).
Proof.
  unfold on_context. rewrite start_on_after. unfold Generator.after. cbn.
  f_equal. destruct d as [[p ro rc ss v] r l]. reflexivity.
Qed.

(** Setting up one channel. *)
Lemma _send_list_to_spdac_wrote index channel voltages trigger s :
  _channels (self (_arrangement s)) !! index = Some channel →
  (1 ≤ channel ≤ 4)%Z →
  dict_get (Virtual_Sweep_Context._start_trigger_name (this s))
           (_internal_triggers (self (_arrangement s))) = Some trigger →
  _send_list_to_spdac index voltages s
  = (Return tt,
     wrote (list_program channel voltages
              (Virtual_Sweep_Context._repetitions (this s))
              (Virtual_Sweep_Context._step_time_s (this s)) (value trigger)) s).
Proof.
  intros Hindex Hchannel Htrigger. unfold _send_list_to_spdac.
  erewrite bind_Return by (by apply on_arrangement_pure, _get_channel_Return).
  erewrite bind_Return by apply session_attr.
  erewrite bind_Return by apply session_attr.
  erewrite bind_Return by (apply on_driver_wrote; intros d; apply dc_list_after).
  erewrite bind_Return by apply session_attr.
  erewrite bind_Return
    by (by apply on_arrangement_pure, get_trigger_by_name_Return).
  erewrite on_driver_wrote by (intros d; apply start_on_wrote).
  by rewrite session_wrote_wrote.
Qed.

(** The loop of [_send_lists_to_spdac], from position [off] on. *)
Lemma send_lists_loop trigger row rows channels : ∀ off s,
  Virtual_Sweep_Context._sweep (this s) = row :: rows →
  (∀ i channel, channels !! i = Some channel →
     _channels (self (_arrangement s)) !! (off + i) = Some channel ∧
     (1 ≤ channel ≤ 4)%Z ∧ off + i < length row) →
  dict_get (Virtual_Sweep_Context._start_trigger_name (this s))
           (_internal_triggers (self (_arrangement s))) = Some trigger →
  for_each (seq off (length channels))
    (λ contact_index,
       do sweep <- Sweep_Session.attr Virtual_Sweep_Context._sweep;
       do voltages <- lift (ndarray.column sweep contact_index);
       _send_list_to_spdac contact_index voltages) s
  = (Return tt,
     wrote (flat_map (λ '(index, channel),
                        list_program channel (column_of (row :: rows) index)
                          (Virtual_Sweep_Context._repetitions (this s))
                          (Virtual_Sweep_Context._step_time_s (this s))
                          (value trigger))
                     (imap (λ i channel, (off + i, channel)) channels)) s).
Proof.
  induction channels as [|channel channels IH]; intros off s Hsweep Hchannels Htrigger.
  { cbn. by rewrite session_wrote_nil. }
  destruct (Hchannels 0 channel eq_refl) as (Hindex & Hvalid & Hwidth).
  rewrite Nat.add_0_r in Hindex, Hwidth.
  cbn [length seq for_each imap flat_map].
  erewrite bind_Return; last first.
  { erewrite bind_Return by apply session_attr. rewrite Hsweep.
    erewrite bind_Return; last first.
    { unfold lift, ndarray.column. rewrite decide_True by done. reflexivity. }
    by apply _send_list_to_spdac_wrote. }
  rewrite IH; last first.
  - done.
  - intros i c Hc. destruct (Hchannels (S i) c Hc) as (H1 & H2 & H3).
    replace (S off + i) with (off + S i) by lia. done.
  - done.
  - rewrite session_wrote_wrote, Nat.add_0_r. cbn [this wrote].
    apply (f_equal (λ cmds, (Return tt, wrote cmds s))).
    apply (f_equal2 app); [reflexivity|]. apply (f_equal (flat_map _)).
    apply imap_ext. intros i c _. cbn. f_equal. lia.
Qed.

(** The loop of [_make_ready_to_start]. *)
Lemma make_ready_loop channels : ∀ off s,
  (∀ i channel, channels !! i = Some channel →
     _channels (self (_arrangement s)) !! (off + i) = Some channel ∧
     (1 ≤ channel ≤ 4)%Z) →
  for_each (seq off (length channels))
    (λ contact_index,
       do channel <- on_arrangement (Virtual_Sweep_Context._get_channel contact_index);
       on_driver (Generator.write (Generator.sour_dc_init channel))) s
  = (Return tt, wrote (map Generator.sour_dc_init channels) s).
Proof.
  induction channels as [|channel channels IH]; intros off s Hchannels.
  { cbn. by rewrite session_wrote_nil. }
  destruct (Hchannels 0 channel eq_refl) as (Hindex & Hvalid).
  rewrite Nat.add_0_r in Hindex.
  cbn [length seq for_each map].
  erewrite bind_Return; last first.
  { erewrite bind_Return by (by apply on_arrangement_pure, _get_channel_Return).
    by apply on_driver_wrote. }
  rewrite IH; last first.
  - intros i c Hc. destruct (Hchannels (S i) c Hc) as (H1 & H2).
    replace (S off + i) with (off + S i) by lia. done.
  - by rewrite session_wrote_wrote.
Qed.

End session.

Section setup.

Import Arrangement_Context Sweep_Session.

Implicit Types (s : Sweep_Session.t) (cmds : list Generator.command).

Lemma _route_inner_trigger_wrote route s :
  routed s route → _route_inner_trigger s = (Return tt, wrote route s).
Proof.
  unfold routed, _route_inner_trigger. intros Hroute.
  erewrite bind_Return by apply session_attr.
  destruct (Virtual_Sweep_Context._step_trigger (this s)) as [[|a name]|].
  - subst route. by rewrite session_wrote_nil.
  - destruct Hroute as (step & channel & Hstep & Hchannel & Hvalid & ->).
    erewrite bind_Return
      by (by apply on_arrangement_pure, get_trigger_by_name_Return).
    erewrite bind_Return by (by apply on_arrangement_pure, _get_channel_Return).
    by apply on_driver_wrote.
  - subst route. by rewrite session_wrote_nil.
Qed.

Lemma shape_Return (e : env) : shape e = (Return (size (_contacts (self e))), e).
Proof. reflexivity. Qed.

Lemma channels_from_start (channels : list Z) (a : Arrangement_Context.t) (width : nat) :
  _channels a = channels →
  Forall (λ c, (1 ≤ c ≤ 4)%Z) channels →
  length channels ≤ width →
  ∀ i channel, channels !! i = Some channel →
    _channels a !! (0 + i) = Some channel ∧ (1 ≤ channel ≤ 4)%Z ∧ 0 + i < width.
Proof.
  intros <- Hvalid Hwidth i channel Hi. split; [done|]. split.
  - rewrite Forall_forall in Hvalid. apply Hvalid. by eapply list_elem_of_lookup_2.
  - apply lookup_lt_Some in Hi. simpl. lia.
Qed.

End setup.

(** X20.  Starting a virtual sweep.  For a sweep with at least one step, a
    column for every contact, channels the driver has and a registered
    start trigger, the first [start()] returns after it has set up the
    instrument: the marker command of the step trigger if there is one,
    then for every contact in order the commands of [dc_list] on its
    channel, with the values of that contact at each step as the list, the
    step time as dwell time and the repetitions of the sweep, followed by
    the two commands of [start_on] with the start trigger; and finally
    [tint] with the start trigger, which fires it.  The context is then
    marked as set up, and the arrangement and the pool are as before.
    Every later [start()] only writes [sour:dc:init] for each channel and
    fires the trigger again; [__enter__] does the same without firing. *)
Theorem start_programs_the_channels
    (s : Sweep_Session.t) (trigger : SPDacTrigger_Context)
    (row : list float) (rows : list (list float))
    (route : list Generator.command) :
  let a := Arrangement_Context.self (Sweep_Session._arrangement s) in
  let ctx := Sweep_Session.this s in
  let channels := Arrangement_Context._channels a in
  Virtual_Sweep_Context._spdac_ready ctx = false →
  Virtual_Sweep_Context._sweep ctx = row :: rows →
  size (Arrangement_Context._contacts a) = length channels →
  length channels ≤ length row →
  Forall (λ c, 1 ≤ c ≤ 4)%Z channels →
  dict_get (Virtual_Sweep_Context._start_trigger_name ctx)
           (Arrangement_Context._internal_triggers a) = Some trigger →
  Sweep_Session.routed s route →
  let program :=
    flat_map (λ '(index, channel),
                Sweep_Session.list_program channel
                  (Sweep_Session.column_of (row :: rows) index)
                  (Virtual_Sweep_Context._repetitions ctx)
                  (Virtual_Sweep_Context._step_time_s ctx) (value trigger))
             (imap pair channels) in
  let fire := [Generator.tint (value trigger)] in
  let s1 := Sweep_Session.ready (Sweep_Session.wrote (route ++ program ++ fire) s) in
  Sweep_Session.start s = (Return tt, s1) ∧
  Sweep_Session._arrangement s1 = Sweep_Session._arrangement s ∧
  Sweep_Session._sent s1 = Sweep_Session._sent s ++ route ++ program ++ fire ∧
  Sweep_Session.start s1
    = (Return tt,
       Sweep_Session.wrote (map Generator.sour_dc_init channels ++ fire) s1) ∧
  Sweep_Session.__enter__ s1
    = (Return tt, Sweep_Session.wrote (map Generator.sour_dc_init channels) s1).
Proof.
  intros a ctx channels Hready Hsweep Hsize Hwidth Hvalid Htrigger Hroute program fire s1.
  pose proof (channels_from_start channels a (length row) eq_refl Hvalid Hwidth)
    as Hchannels.
  assert (Hsetup : Sweep_Session._ensure_spdac_setup s
                   = (Return tt, Sweep_Session.ready
                                   (Sweep_Session.wrote (route ++ program) s))).
  { assert (Hlists : Sweep_Session._send_lists_to_spdac (Sweep_Session.wrote route s)
                     = (Return tt, Sweep_Session.wrote program
                                     (Sweep_Session.wrote route s))).
    { unfold Sweep_Session._send_lists_to_spdac.
      erewrite bind_Return by (apply on_arrangement_pure, shape_Return).
      cbn [Sweep_Session._arrangement Sweep_Session.wrote]. fold a.
      rewrite Hsize.
      apply (send_lists_loop trigger row rows channels 0); done. }
    unfold Sweep_Session._ensure_spdac_setup.
    erewrite bind_Return by apply session_attr. fold ctx. rewrite Hready.
    erewrite bind_Return by (by apply _route_inner_trigger_wrote).
    erewrite bind_Return by exact Hlists.
    rewrite session_wrote_wrote. reflexivity. }
  assert (Hagain : Sweep_Session._ensure_spdac_setup s1
                   = (Return tt,
                      Sweep_Session.wrote (map Generator.sour_dc_init channels) s1)).
  { unfold Sweep_Session._ensure_spdac_setup.
    erewrite bind_Return by apply session_attr.
    cbn [Sweep_Session.this s1 Sweep_Session.ready Sweep_Session.set_spdac_ready modify snd
         Virtual_Sweep_Context._spdac_ready].
    unfold Sweep_Session._make_ready_to_start.
    erewrite bind_Return by (apply on_arrangement_pure, shape_Return).
    match goal with
    | |- for_each (seq 0 ?n) _ _ = _ =>
        change n with (size (Arrangement_Context._contacts a))
    end.
    rewrite Hsize. apply (make_ready_loop channels 0). intros i channel Hi.
    destruct (Hchannels i channel Hi) as (H1 & H2 & _). done. }
  split; [|split; [|split; [|split]]].
  - unfold Sweep_Session.start.
    erewrite bind_Return by exact Hsetup.
    erewrite bind_Return by apply session_attr.
    erewrite bind_Return
      by (by apply on_arrangement_pure, get_trigger_by_name_Return).
    erewrite on_driver_wrote by done.
    change (Sweep_Session.wrote ?c (Sweep_Session.ready ?x))
      with (Sweep_Session.ready (Sweep_Session.wrote c x)).
    rewrite session_wrote_wrote, <- app_assoc. reflexivity.
  - reflexivity.
  - reflexivity.
  - unfold Sweep_Session.start.
    erewrite bind_Return by exact Hagain.
    erewrite bind_Return by apply session_attr.
    erewrite bind_Return
      by (by apply on_arrangement_pure, get_trigger_by_name_Return).
    erewrite on_driver_wrote by done.
    by rewrite session_wrote_wrote.
  - exact Hagain.
Qed.

Lemma start_programs_the_channels_witness :
  let s := Example_Session.ab_sweep in
  Virtual_Sweep_Context._spdac_ready (Sweep_Session.this s) = false ∧
  Virtual_Sweep_Context._sweep (Sweep_Session.this s) = [[0; 0]; [1; 0]]%float ∧
  Sweep_Session.routed s [] ∧
  (Sweep_Session.start s).1 = Return tt ∧
  length (Sweep_Session._sent (Sweep_Session.start s).2) = 25 ∧
  Sweep_Session._sent (Sweep_Session.start s).2 !! 2
    = Some (Generator.sour_list_volt 1 [0; 1]%float) ∧
  Sweep_Session._sent (Sweep_Session.start s).2 !! 14
    = Some (Generator.sour_list_volt 2 [0; 0]%float).
Proof.
  intros s.
  assert (Hready : Virtual_Sweep_Context._spdac_ready (Sweep_Session.this s) = false)
    by reflexivity.
  assert (Hsweep : Virtual_Sweep_Context._sweep (Sweep_Session.this s)
                   = [0; 0]%float :: [[1; 0]%float]) by (by vm_compute).
  assert (Hroute : Sweep_Session.routed s []) by (by vm_compute).
  destruct (dict_get (Virtual_Sweep_Context._start_trigger_name (Sweep_Session.this s))
              (Arrangement_Context._internal_triggers
                 (Arrangement_Context.self (Sweep_Session._arrangement s))))
    as [trigger|] eqn:Htrigger; [|by vm_compute in Htrigger].
  assert (Hvalid : Forall (λ c, 1 ≤ c ≤ 4)%Z
                     (Arrangement_Context._channels
                        (Arrangement_Context.self (Sweep_Session._arrangement s)))).
  { change (Arrangement_Context._channels _) with [1%Z; 2%Z].
    repeat first [apply List.Forall_nil | apply List.Forall_cons; [lia|]]. }
  destruct (start_programs_the_channels s trigger [0; 0]%float [[1; 0]%float] []
              Hready Hsweep ltac:(by vm_compute) ltac:(vm_compute; lia) Hvalid
              Htrigger Hroute) as (Hstart & _ & Hsent & _).
  split; [exact Hready|]. split; [exact Hsweep|]. split; [exact Hroute|].
  rewrite Hstart. cbn [fst snd]. rewrite Hsent.
  split; [reflexivity|]. split; [|split]; by vm_compute.
Defined.

(** X21.  A sweep over no voltages cannot be started.  [virtual_sweep]
    accepts an empty list of voltages and returns a context whose sweep
    has no rows; on an arrangement with at least one contact both
    [start()] and [__enter__] then raise [IndexError], because an array
    without rows has no columns.  Nothing has been sent to the channels by
    then (only the marker command of the step trigger, if there is one),
    and the context is still not set up, so every further call fails in
    the same way. *)
Theorem start_of_empty_sweep (s : Sweep_Session.t) (route : list Generator.command) :
  Virtual_Sweep_Context._spdac_ready (Sweep_Session.this s) = false →
  Virtual_Sweep_Context._sweep (Sweep_Session.this s) = [] →
  0 < size (Arrangement_Context._contacts
              (Arrangement_Context.self (Sweep_Session._arrangement s))) →
  Sweep_Session.routed s route →
  Sweep_Session.start s = (Raise IndexError, Sweep_Session.wrote route s) ∧
  Sweep_Session.__enter__ s = (Raise IndexError, Sweep_Session.wrote route s) ∧
  Virtual_Sweep_Context._spdac_ready (Sweep_Session.this (Sweep_Session.wrote route s))
    = false ∧
  (∀ e contact start_sweep_trigger step_time_s step_trigger repetitions fresh pick ctx e',
     Arrangement_Sweeps.virtual_sweep contact [] start_sweep_trigger step_time_s
       step_trigger repetitions fresh pick e = (Return ctx, e') →
     Virtual_Sweep_Context._sweep ctx = []).
Proof.
  intros Hready Hsweep Hsize Hroute.
  assert (Hsetup : Sweep_Session._ensure_spdac_setup s
                   = (Raise IndexError, Sweep_Session.wrote route s)).
  { unfold Sweep_Session._ensure_spdac_setup.
    erewrite bind_Return by apply session_attr. rewrite Hready.
    erewrite bind_Return by (by apply _route_inner_trigger_wrote).
    erewrite bind_Raise; [reflexivity|].
    unfold Sweep_Session._send_lists_to_spdac.
    erewrite bind_Return by (apply on_arrangement_pure, shape_Return).
    cbn [Sweep_Session._arrangement Sweep_Session.wrote].
    destruct (size _) as [|n]; [lia|]. cbn [seq for_each].
    erewrite bind_Raise; [reflexivity|].
    erewrite bind_Return by apply session_attr.
    cbn [Sweep_Session.this Sweep_Session.wrote]. rewrite Hsweep.
    by erewrite bind_Raise. }
  split; [|split; [exact Hsetup|split; [exact Hready|]]].
  - unfold Sweep_Session.start. by erewrite bind_Raise.
  - intros e contact start_sweep_trigger step_time_s step_trigger repetitions fresh pick
      ctx e' Hrun.
    unfold Arrangement_Sweeps.virtual_sweep, Arrangement_Context._calculate_1d_values
      in Hrun.
    unfold bind at 1 in Hrun.
    destruct (bind (Arrangement_Context.virtual_voltage contact) _ e)
      as [[sweep|x] e1] eqn:Hvalues; [|discriminate].
    assert (Hnil : sweep = []).
    { clear Hrun. unfold bind at 1 in Hvalues.
      destruct (Arrangement_Context.virtual_voltage contact e) as [[v0|x] e2];
        [|discriminate].
      unfold bind at 1 in Hvalues.
      destruct (Arrangement_Context._contact_index contact e2) as [[index|x] e3];
        [|discriminate].
      cbn [comprehension] in Hvalues.
      unfold bind at 1 in Hvalues. cbn [ret] in Hvalues.
      unfold bind at 1 in Hvalues.
      destruct (Arrangement_Context.store_virtual_voltage index v0 e3) as [[[]|x] e4];
        [|discriminate].
      by injection Hvalues as <- _. }
    subst sweep.
    unfold Virtual_Sweep_Context.__init__, bind at 1 in Hrun.
    destruct (Virtual_Sweep_Context._allocate_triggers _ _ _ e1) as [[name|x] e2];
      [|discriminate].
    by injection Hrun as <- _.
Qed.

Lemma start_of_empty_sweep_witness :
  let s := Example_Session.ab_empty_sweep in
  Virtual_Sweep_Context._spdac_ready (Sweep_Session.this s) = false ∧
  Virtual_Sweep_Context._sweep (Sweep_Session.this s) = [] ∧
  0 < size (Arrangement_Context._contacts
              (Arrangement_Context.self (Sweep_Session._arrangement s))) ∧
  Sweep_Session.routed s [] ∧
  Sweep_Session.start s = (Raise IndexError, s).
Proof.
  intros s.
  assert (Hready : Virtual_Sweep_Context._spdac_ready (Sweep_Session.this s) = false)
    by (by vm_compute).
  assert (Hsweep : Virtual_Sweep_Context._sweep (Sweep_Session.this s) = [])
    by (by vm_compute).
  assert (Hsize : 0 < size (Arrangement_Context._contacts
                    (Arrangement_Context.self (Sweep_Session._arrangement s))))
    by (vm_compute; lia).
  assert (Hroute : Sweep_Session.routed s []) by (by vm_compute).
  split; [exact Hready|]. split; [exact Hsweep|]. split; [exact Hsize|].
  split; [exact Hroute|].
  destruct (start_of_empty_sweep s [] Hready Hsweep Hsize Hroute) as (Hstart & _).
  by rewrite Hstart, session_wrote_nil.
Defined.

(** * Further properties: closing a sweep *)

Section sweep_teardown.

Import Arrangement_Context State Allocation.

Implicit Types (a : t) (e : env) (chans : list Z).

(** One round of the loop of [Virtual_Sweep_Context.__exit__]. *)
Local Abbreviation stop_body := (λ contact_index : nat,
  do channel <- Virtual_Sweep_Context._get_channel contact_index;
  do_ on_spdac (SPDacChannel.dc_abort channel);
  on_spdac (SPDac.write (sour_dc_trig_sour_imm channel))).

Local Abbreviation stops := (flat_map (λ ch, [sour_dc_abor ch; sour_dc_trig_sour_imm ch])).

Lemma get_channel_valid i ch a :
  _channels a !! i = Some ch → (1 ≤ ch ≤ 4)%Z →
  emits (Virtual_Sweep_Context._get_channel i) a (Return ch) [] ∅.
Proof.
  intros Hch Hvalid. pose proof (emits_get_channel i a) as H.
  by rewrite Hch, decide_True in H.
Qed.

Lemma get_channel_invalid i ch a :
  _channels a !! i = Some ch → ¬ (1 ≤ ch ≤ 4)%Z →
  emits (Virtual_Sweep_Context._get_channel i) a (Raise AttributeError) [] ∅.
Proof.
  intros Hch Hvalid. pose proof (emits_get_channel i a) as H.
  by rewrite Hch, decide_False in H.
Qed.

Lemma stop_round i ch a :
  _channels a !! i = Some ch → (1 ≤ ch ≤ 4)%Z →
  emits (stop_body i) a (Return tt) [sour_dc_abor ch; sour_dc_trig_sour_imm ch] ∅.
Proof.
  intros Hch Hvalid.
  eapply emits_bind with (f2 := ∅); [by apply get_channel_valid| |reflexivity|set_solver].
  eapply emits_bind; [apply emits_write|apply emits_write|done|set_solver].
Qed.

Lemma stop_loop_Return a chans i :
  (∀ j ch, chans !! j = Some ch → _channels a !! (i + j) = Some ch) →
  Forall (λ ch, 1 ≤ ch ≤ 4)%Z chans →
  emits (for_each (seq i (length chans)) stop_body) a (Return tt) (stops chans) ∅.
Proof.
  revert i. induction chans as [|ch chans IH]; intros i Hat Hvalid; [apply emits_ret|].
  apply Forall_cons in Hvalid as [Hch Hvalid]. cbn [length seq for_each flat_map].
  eapply emits_bind with (f2 := ∅); [apply (stop_round i ch)| |reflexivity|].
  - rewrite <- (Nat.add_0_r i). by apply Hat.
  - exact Hch.
  - apply IH; [|exact Hvalid]. intros j ch' Hj.
    replace (S i + j) with (i + S j) by lia. by apply Hat.
  - set_solver.
Qed.

Lemma stop_loop_Raise a good bad rest i :
  (∀ j ch, (good ++ bad :: rest) !! j = Some ch → _channels a !! (i + j) = Some ch) →
  Forall (λ ch, 1 ≤ ch ≤ 4)%Z good → ¬ (1 ≤ bad ≤ 4)%Z →
  emits (for_each (seq i (length (good ++ bad :: rest))) stop_body) a
    (Raise AttributeError) (stops good) ∅.
Proof.
  revert i. induction good as [|ch good IH]; intros i Hat Hvalid Hbad.
  - cbn [app length seq for_each flat_map].
    apply emits_bind_Raise, emits_bind_Raise.
    apply (get_channel_invalid i bad); [|exact Hbad].
    rewrite <- (Nat.add_0_r i). by apply Hat.
  - apply Forall_cons in Hvalid as [Hch Hvalid]. cbn [app length seq for_each flat_map].
    eapply emits_bind with (f2 := ∅); [apply (stop_round i ch)| |reflexivity|].
    + rewrite <- (Nat.add_0_r i). by apply Hat.
    + exact Hch.
    + apply IH; [|exact Hvalid|exact Hbad]. intros j ch' Hj.
      replace (S i + j) with (i + S j) by lia. by apply Hat.
    + set_solver.
Qed.

(** [__exit__] of a sweep context on channels the driver has. *)
Lemma sweep_exit_Return ctx a ch0 :
  _channels a !! 0 = Some ch0 →
  Forall (λ ch, 1 ≤ ch ≤ 4)%Z (_channels a) →
  size (_contacts a) = length (_channels a) →
  emits (Virtual_Sweep_Context.__exit__ ctx) a (Return false)
    (sour_dc_mark_sst ch0 0 :: stops (_channels a)) ∅.
Proof.
  intros Hch0 Hvalid Hsize. unfold Virtual_Sweep_Context.__exit__.
  eapply emits_bind with (f2 := ∅);
    [apply (get_channel_valid 0 ch0); [exact Hch0|]| |reflexivity|set_solver].
  { by eapply Forall_lookup_1 in Hvalid. }
  eapply emits_bind with (c1 := [sour_dc_mark_sst ch0 0]) (f2 := ∅);
    [apply emits_write| |reflexivity|set_solver].
  eapply emits_bind with (f2 := ∅); [apply emits_attr| |reflexivity|set_solver].
  rewrite Hsize.
  eapply emits_bind; [by apply stop_loop_Return|apply emits_ret| |set_solver].
  by rewrite app_nil_r.
Qed.

(** The same when the channel [bad] is none of the driver's. *)
Lemma sweep_exit_Raise ctx a good bad rest :
  _channels a = good ++ bad :: rest →
  Forall (λ ch, 1 ≤ ch ≤ 4)%Z good → ¬ (1 ≤ bad ≤ 4)%Z →
  size (_contacts a) = length (_channels a) →
  emits (Virtual_Sweep_Context.__exit__ ctx) a (Raise AttributeError)
    (match good with
     | [] => []
     | ch0 :: _ => sour_dc_mark_sst ch0 0 :: stops good
     end) ∅.
Proof.
  intros Hchans Hvalid Hbad Hsize. unfold Virtual_Sweep_Context.__exit__.
  destruct good as [|ch0 good].
  - apply emits_bind_Raise. apply (get_channel_invalid 0 bad); [|exact Hbad].
    by rewrite Hchans.
  - eapply emits_bind with (f2 := ∅);
      [apply (get_channel_valid 0 ch0); [by rewrite Hchans|]| |reflexivity|set_solver].
    { by apply Forall_cons in Hvalid as [? _]. }
    eapply emits_bind with (c1 := [sour_dc_mark_sst ch0 0]) (f2 := ∅);
      [apply emits_write| |reflexivity|set_solver].
    eapply emits_bind with (f2 := ∅); [apply emits_attr| |reflexivity|set_solver].
    rewrite Hsize, Hchans. apply emits_bind_Raise.
    apply stop_loop_Raise; [|exact Hvalid|exact Hbad].
    intros j ch Hj. by rewrite Hchans.
Qed.

(** Replacing the value of a key that is present. *)
Lemma dict_set_present {V} k (v old : V) d :
  dict_get k d = Some old →
  ∃ d1 d2, d = d1 ++ (k, old) :: d2 ∧ dict_set k v d = d1 ++ (k, v) :: d2.
Proof.
  induction d as [|[k' v'] d IH]; intros Hget; [done|].
  cbn [dict_get dict_set] in *. destruct (decide (k' = k)) as [->|Hne].
  - injection Hget as ->. by exists [], d.
  - destruct (IH Hget) as (d1 & d2 & -> & ->). by exists ((k', v') :: d1), d2.
Qed.

Lemma dict_get_None {V} k (d : list (string * V)) : dict_get k d = None → k ∉ d.*1.
Proof.
  induction d as [|[k' v'] d IH]; intros Hget; [set_solver|].
  cbn [dict_get] in Hget. destruct (decide (k' = k)) as [->|Hne]; [done|].
  specialize (IH Hget). set_solver.
Qed.

(** The triggers held after one more is registered. *)
Lemma held_fresh name n a :
  dict_get name (_internal_triggers a) = None →
  held (set_internal_triggers_attr
          (dict_set name {| value := n |} (_internal_triggers a)) a)
  = held a ∪ {[n]}.
Proof.
  intros Hget. unfold held. cbn [_internal_triggers set_internal_triggers_attr].
  rewrite dict_set_fresh by by apply dict_get_None.
  unfold dict_values. rewrite !map_app, list_to_set_app_L. simpl. set_solver.
Qed.

Lemma held_replaced name n old a :
  dict_get name (_internal_triggers a) = Some old →
  NoDup (map value (dict_values (_internal_triggers a))) →
  held (set_internal_triggers_attr
          (dict_set name {| value := n |} (_internal_triggers a)) a)
  = {[n]} ∪ held a ∖ {[value old]}.
Proof.
  intros Hget Hnodup. unfold held in *.
  cbn [_internal_triggers set_internal_triggers_attr].
  destruct (dict_set_present name {| value := n |} old _ Hget) as (d1 & d2 & Hd & ->).
  rewrite Hd in Hnodup |- *. unfold dict_values in *.
  rewrite !map_app in Hnodup |- *. cbn [map snd value] in Hnodup |- *.
  apply NoDup_app in Hnodup as (_ & Hfront & Hback).
  apply NoDup_cons in Hback as [Hback _].
  assert (Hnot : value old ∉ map value (map snd d1)).
  { intros H. apply (Hfront (value old)); [exact H|apply list_elem_of_here]. }
  rewrite !list_to_set_app_L, !list_to_set_cons.
  apply set_eq. intros x.
  rewrite !map_app. cbn [map snd value].
  repeat rewrite ?elem_of_union, ?elem_of_difference, ?elem_of_singleton,
    ?elem_of_list_to_set, ?elem_of_app, ?elem_of_cons.
  destruct (decide (x = value old)) as [->|Hne]; naive_solver.
Qed.

End sweep_teardown.

(** X22.  Closing the context of a virtual sweep.  When every channel of
    the arrangement is one of the driver's, [close()] returns: it writes
    the marker command on the first channel, then the abort and the
    immediate trigger source for every channel in order, then what closing
    the arrangement writes, and it gives back every trigger the
    arrangement holds.  If the start trigger was registered under a new
    name, the pool is then the pool before [virtual_sweep] together with
    the triggers the arrangement held.  If the name was already in use,
    the trigger registered under it before has been replaced and is lost:
    it was not free and is not free after [close()].  When a channel is
    none of the driver's, [close()] raises [AttributeError] at the first
    such channel and the arrangement is not closed: no trigger is given
    back, and the start trigger of the sweep stays taken. *)
Theorem sweep_close_returns_triggers
    (e e1 : Arrangement_Context.env) (ctx : Virtual_Sweep_Context.t)
    (contact : string) (index : nat) (voltages : list float)
    (start_sweep_trigger : option string) (step_time_s : float)
    (step_trigger : option string) (repetitions : option Z)
    (fresh : string) (pick : nat) :
  let a := Arrangement_Context.self e in
  let channels := Arrangement_Context._channels a in
  let name := match start_sweep_trigger with
              | None | Some EmptyString => fresh
              | Some name => name
              end in
  let stops := flat_map (λ ch, [sour_dc_abor ch; sour_dc_trig_sour_imm ch]) in
  State.well_formed a →
  Arrangement_Context._contacts a !! contact = Some index →
  Arrangement_Sweeps.virtual_sweep contact voltages start_sweep_trigger step_time_s
    step_trigger repetitions fresh pick e = (Return ctx, e1) →
  (Forall (λ ch, 1 ≤ ch ≤ 4)%Z channels →
     ∃ ch0 e2,
       channels !! 0 = Some ch0 ∧
       Virtual_Sweep_Context.close ctx e1 = (Return tt, e2) ∧
       State.written e2
       = State.written e
           ++ sour_dc_mark_sst ch0 0 :: stops channels
           ++ map outp_trig_sour_hold
                (dict_values (Arrangement_Context._external_triggers a)) ∧
       (dict_get name (Arrangement_Context._internal_triggers a) = None →
          State.pool e2 = State.pool e ∪ Allocation.held a) ∧
       (∀ old,
          dict_get name (Arrangement_Context._internal_triggers a) = Some old →
          NoDup (map value (dict_values (Arrangement_Context._internal_triggers a))) →
          State.pool e2 = State.pool e ∪ Allocation.held a ∖ {[value old]} ∧
          (value old ∉ State.pool e → value old ∉ State.pool e2))) ∧
  (∀ good bad rest,
     channels = good ++ bad :: rest →
     Forall (λ ch, 1 ≤ ch ≤ 4)%Z good → ¬ (1 ≤ bad ≤ 4)%Z →
     ∃ e2,
       Virtual_Sweep_Context.close ctx e1 = (Raise AttributeError, e2) ∧
       State.written e2
       = State.written e ++ match good with
                            | [] => []
                            | ch0 :: _ => sour_dc_mark_sst ch0 0 :: stops good
                            end ∧
       State.pool e2 = State.pool e1 ∧
       State.pool e1 ⊂ State.pool e).
Proof.
  intros a channels name stops (Hv & Hch & _ & _ & Hidx) Hc Hrun.
  assert (Hstep : ∃ n, n ∈ State.pool e ∧ e1 = Allocation.internal_step name n e).
  { unfold Arrangement_Sweeps.virtual_sweep in Hrun.
    erewrite bind_Return in Hrun;
      [|apply _calculate_1d_values_Return; [exact Hc|]].
    2:{ change (index < length (Arrangement_Context._virtual_voltages a)).
        rewrite Hv. by eapply Hidx. }
    match type of Hrun with
    | Virtual_Sweep_Context.__init__ ?rows _ _ _ _ _ _ _ = _ =>
        destruct (sweep_context_init rows start_sweep_trigger step_time_s step_trigger
                    repetitions fresh pick e) as [Hempty Hmember]
    end.
    destruct (decide (State.pool e = ∅)) as [Hpool|Hpool].
    - rewrite (Hempty Hpool) in Hrun. discriminate.
    - destruct (Hmember Hpool) as (n & Hn & Hinit). rewrite Hinit in Hrun.
      exists n. split; [exact Hn|]. by injection Hrun as _ <-. }
  destruct Hstep as (n & Hn & ->).
  set (e1 := Allocation.internal_step name n e).
  set (a1 := Arrangement_Context.self e1).
  assert (Hsize : size (Arrangement_Context._contacts a1)
                  = length (Arrangement_Context._channels a1)) by (symmetry; exact Hch).
  assert (Hw1 : State.written e1 = State.written e) by reflexivity.
  assert (Hp1 : State.pool e1 = State.pool e ∖ {[n]}) by reflexivity.
  split.
  - intros Hvalid.
    destruct channels as [|ch0 chans] eqn:Hchans.
    { exfalso. subst channels. rewrite Hchans in Hch. simpl in Hch.
      specialize (Hidx _ _ Hc). fold a in Hidx. lia. }
    exists ch0.
    pose proof (sweep_exit_Return ctx a1 ch0) as Hexit.
    change (Arrangement_Context._channels a1) with channels in Hexit.
    rewrite Hchans in Hexit. specialize (Hexit eq_refl Hvalid).
    rewrite <- Hchans in Hexit. subst channels. specialize (Hexit Hsize).
    pose proof (emits_bind_Return _ (λ _, Arrangement_Context.close) _ _ _ _ _ _ _
                  Hexit (emits_close a1)) as Hclose.
    destruct (Hclose e1 eq_refl) as (e2 & Hrun2 & _ & Hw2 & Hp2 & _).
    exists e2. split; [done|]. split; [exact Hrun2|].
    split; [|split].
    + by rewrite Hw2, Hw1, Hchans.
    + intros Hnew. rewrite Hp2, Hp1, (left_id_L ∅ (∪)).
      change (list_to_set _) with (Allocation.held a1).
      unfold a1, e1. cbn [Arrangement_Context.self Allocation.internal_step].
      rewrite held_fresh by exact Hnew. fold a.
      apply set_eq. intros x. rewrite !elem_of_union, elem_of_difference,
        elem_of_singleton.
      destruct (decide (x = n)) as [->|Hx]; [tauto|tauto].
    + intros old Hold Hnodup.
      assert (Hpool : State.pool e2
                      = State.pool e ∪ Allocation.held a ∖ {[value old]}).
      { rewrite Hp2, Hp1, (left_id_L ∅ (∪)).
        change (list_to_set _) with (Allocation.held a1).
        unfold a1, e1. cbn [Arrangement_Context.self Allocation.internal_step].
        rewrite (held_replaced name n old) by done. fold a.
        apply set_eq. intros x. rewrite !elem_of_union, !elem_of_difference,
          !elem_of_singleton.
        destruct (decide (x = n)) as [->|Hx]; [tauto|tauto]. }
      split; [exact Hpool|]. rewrite Hpool. set_solver.
  - intros good bad rest Hchans Hgood Hbad.
    pose proof (sweep_exit_Raise ctx a1 good bad rest Hchans Hgood Hbad Hsize) as Hexit.
    pose proof (emits_bind_Raise _ (λ _, Arrangement_Context.close) _ _ _ _ Hexit)
      as Hclose.
    destruct (Hclose e1 eq_refl) as (e2 & Hrun2 & _ & Hw2 & Hp2 & _).
    exists e2. split; [exact Hrun2|]. split; [by rewrite Hw2, Hw1|].
    split; [by rewrite Hp2, (right_id_L ∅ (∪))|].
    rewrite Hp1. set_solver.
Qed.

Lemma sweep_close_returns_triggers_witness :
  State.well_formed (Arrangement_Context.self Example.ab) ∧
  ∃ ctx e1 e2,
    Example.ab_sweep = (Return ctx, e1) ∧
    Virtual_Sweep_Context.close ctx e1 = (Return tt, e2) ∧
    State.pool e2 = State.pool Example.ab ∧
    State.written e2
    = [sour_dc_mark_sst 1 0; sour_dc_abor 1; sour_dc_trig_sour_imm 1;
       sour_dc_abor 2; sour_dc_trig_sour_imm 2].
Proof.
  split; [exact ab_well_formed|].
  destruct Example.ab_sweep as [[ctx|x] e1] eqn:Hrun; [|by vm_compute in Hrun].
  destruct (sweep_close_returns_triggers Example.ab e1 ctx "a" 0 [0; 1]%float None
              Arrangement_Sweeps.step_time_s_default None (Some 1%Z) "fresh" 0
              ab_well_formed ltac:(by vm_compute) Hrun) as [Hclose _].
  destruct Hclose as (ch0 & e2 & Hch0 & Hrun2 & Hw & Hnew & _).
  { change (Arrangement_Context._channels _) with [1%Z; 2%Z].
    repeat first [apply List.Forall_nil | apply List.Forall_cons; [lia|]]. }
  exists ctx, e1, e2. split; [reflexivity|]. split; [exact Hrun2|].
  split.
  - rewrite Hnew by (by vm_compute).
    change (Allocation.held _) with (∅ : gset Z). set_solver.
  - rewrite Hw. injection Hch0 as <-. by vm_compute.
Defined.
